(** * TIGS (TI Game Setup): a shallow embedding of [tigs.py]

    The development follows the source file top-down:

    - [Py]      the Python primitives the program relies on (exceptions,
                list indexing and assignment, [list.insert], [list.index],
                [any]/[all], [itertools.permutations],
                [itertools.combinations], [random.randint],
                [random.sample]);
    - [Hex]     the cube-coordinate geometry ([cube_add], [cube_distance],
                [cube_ring], [init_hex_coords]);
    - [WEIGHTS] the scoring constants;
    - [HomeStats], [Home], [Board]
                the three classes, whose methods take the module-level
                state they read as a [Globals] record: the tile catalogue
                ([TILES], [NONHOME_TILES]) that [load_tiles] reads from
                [planets.csv], and the command line [FLAGS].

    The properties follow the definitions: floating point, scores and
    differences, the combination of statistics, the hex tables, random
    generation, the legality check, the imbalance, and the optimiser.

    Numbers.  Tile identities and statistics are Python [int]s, modelled by
    [Z].  Positions (keegan indices) index lists and are modelled by [nat].
    Scores are Python floats obtained from the integer statistics by
    multiplication with the constants of [WEIGHTS]; every such constant is a
    dyadic rational (0.75, 0.25, 0.5, 0.125, 5.0, -2, -100, ...), so on the
    statistics of a tile catalogue the binary floating point arithmetic of
    the source is exact, and scores are modelled by [Q].  [Float64] models
    the floating point arithmetic itself, and [score64_exact],
    [difference64_exact] and [home_difference64_exact] prove that it is
    exact on statistics up to [2^40]; beyond the precision of a float it
    is not, as [score_of_vast_ring_is_rounded] shows.

    Randomness.  The process-wide pseudorandom source is modelled by the
    finite sequence of raw draws it will deliver ([list Z]); [randint] and
    [sample] consume draws from it and map each one into the requested
    range.  A computation that asks for a draw when none is left has outcome
    [Starved]. *)

From Stdlib Require Import ZArith QArith Qabs Lqa Lia String.
From stdpp Require Import base option list gmap.

Open Scope Z_scope.

(** ** Python primitives *)

Module Py.

(** The exceptions the program can raise.  [Exception msg] is the bare
    [Exception("...")] of [generate_random_board]. *)
Inductive exn : Set :=
| KeyError
| IndexError
| ValueError
| Exception (msg : string).

Inductive outcome (A : Type) : Type :=
| Ret (a : A)
| Raise (e : exn)
| Starved.
Arguments Ret {A} a.
Arguments Raise {A} e.
Arguments Starved {A}.

Definition bind {A B} (m : outcome A) (k : A -> outcome B) : outcome B :=
  match m with
  | Ret a => k a
  | Raise e => Raise e
  | Starved => Starved
  end.

(** Computations that read the random source: the remaining draws are
    threaded through, and are returned also when an exception escapes. *)
Definition Rand (A : Type) : Type := list Z -> outcome A * list Z.

Definition rret {A} (a : A) : Rand A := fun ds => (Ret a, ds).

Definition rbind {A B} (m : Rand A) (k : A -> Rand B) : Rand B :=
  fun ds =>
    match m ds with
    | (Ret a, ds') => k a ds'
    | (Raise e, ds') => (Raise e, ds')
    | (Starved, ds') => (Starved, ds')
    end.

(** A deterministic computation run inside a randomised one. *)
Definition lift {A} (m : outcome A) : Rand A := fun ds => (m, ds).

(** [l[i]] for a non-negative index. *)
Definition get {A} (l : list A) (i : nat) : outcome A :=
  match l !! i with
  | Some x => Ret x
  | None => Raise IndexError
  end.

(** [l[i] = x] for a non-negative index. *)
Definition set {A} (l : list A) (i : nat) (x : A) : outcome (list A) :=
  if decide (i < length l)%nat then Ret (<[i:=x]> l) else Raise IndexError.

(** [l.insert(k, x)] for a non-negative [k]: beyond the end it appends. *)
Definition insert {A} (k : nat) (x : A) (l : list A) : list A :=
  take k l ++ x :: drop k l.

(** [l.index(x)]: position of the first occurrence. *)
Fixpoint index (l : list Z) (x : Z) : outcome nat :=
  match l with
  | [] => Raise ValueError
  | y :: l' => if decide (y = x) then Ret 0%nat
               else bind (index l' x) (fun i => Ret (S i))
  end.

(** [d[k]] on a dictionary with integer keys. *)
Definition item {V} (d : gmap Z V) (k : Z) : outcome V :=
  match d !! k with
  | Some v => Ret v
  | None => Raise KeyError
  end.

(** Truth value of a string-or-[None]: [None] and [''] are false. *)
Definition truthy (o : option string) : bool :=
  match o with
  | Some s => negb (String.eqb s EmptyString)
  | None => false
  end.

(** [del l[i]] for a non-negative index. *)
Definition del {A} (l : list A) (i : nat) : outcome (list A) :=
  if decide (i < length l)%nat then Ret (delete i l) else Raise IndexError.

(** A [for] loop over a list that threads a state and may raise. *)
Fixpoint foldM {A S} (f : S -> A -> outcome S) (s : S) (l : list A)
  : outcome S :=
  match l with
  | [] => Ret s
  | x :: l' => bind (f s x) (fun s' => foldM f s' l')
  end.

(** A list comprehension whose element expression may raise. *)
Fixpoint mapM {A B} (f : A -> outcome B) (l : list A) : outcome (list B) :=
  match l with
  | [] => Ret []
  | x :: l' => bind (f x) (fun y => bind (mapM f l') (fun ys => Ret (y :: ys)))
  end.

(** A list comprehension whose filter condition may raise. *)
Fixpoint filterM {A} (f : A -> outcome bool) (l : list A) : outcome (list A) :=
  match l with
  | [] => Ret []
  | x :: l' => bind (f x) (fun b =>
               bind (filterM f l') (fun ys => Ret (if b then x :: ys else ys)))
  end.

(** [any(f(x) for x in l)]: stops at the first true element. *)
Fixpoint any {A} (f : A -> outcome bool) (l : list A) : outcome bool :=
  match l with
  | [] => Ret false
  | x :: l' => bind (f x) (fun b => if b then Ret true else any f l')
  end.

(** [all(f(x) for x in l)]: stops at the first false element. *)
Fixpoint all {A} (f : A -> outcome bool) (l : list A) : outcome bool :=
  match l with
  | [] => Ret true
  | x :: l' => bind (f x) (fun b => if b then all f l' else Ret false)
  end.

(** Every way of taking one element out of a list, in position order. *)
Fixpoint picks {A} (l : list A) : list (A * list A) :=
  match l with
  | [] => []
  | x :: l' => (x, l') :: map (fun p => (p.1, x :: p.2)) (picks l')
  end.

(** [itertools.permutations(l, r)] for [r >= 0]: the [r]-length
    arrangements of elements at distinct positions of [l], in
    lexicographic order of positions. *)
Fixpoint permutations {A} (r : nat) (l : list A) : list (list A) :=
  match r with
  | O => [[]]
  | S r' => flat_map (fun p => map (cons p.1) (permutations r' p.2)) (picks l)
  end.

(** [itertools.combinations(range(n), 2)]. *)
Definition combinations2 (n : nat) : list (nat * nat) :=
  flat_map (fun i => map (pair i) (seq (S i) (n - S i))) (seq 0 n).

(** [random.randint(a, b)]: an integer of [[a, b]]. *)
Definition randint (a b : Z) : Rand Z :=
  fun ds =>
    if decide (b < a) then (Raise ValueError, ds)
    else match ds with
         | [] => (Starved, [])
         | d :: ds' => (Ret (a + d mod (b - a + 1)), ds')
         end.

(** Drawing [k] elements at distinct positions of [pool]. *)
Fixpoint draw_distinct {A} (k : nat) (pool : list A) : Rand (list A) :=
  match k with
  | O => rret []
  | S k' => fun ds =>
      match ds with
      | [] => (Starved, [])
      | d :: ds' =>
          let j := Z.to_nat (d mod Z.of_nat (length pool)) in
          match pool !! j with
          | Some x => rbind (draw_distinct k' (delete j pool))
                            (fun xs => rret (x :: xs)) ds'
          | None => (Raise ValueError, ds)
          end
      end
  end.

(** [random.sample(population, k)]: [k] elements chosen at distinct
    positions, in selection order; [ValueError] when [k] is negative or
    exceeds the population. *)
Definition sample {A} (population : list A) (k : Z) : Rand (list A) :=
  fun ds =>
    if decide (k < 0 \/ Z.of_nat (length population) < k)
    then (Raise ValueError, ds)
    else draw_distinct (Z.to_nat k) population ds.

End Py.

Import Py.

(** [x ← m; k] sequences deterministic code, [x ←$ m; k] code that may read
    the random source. *)
Declare Scope py_scope.
Notation "x ← y ; z" := (bind y (fun x => z))
  (at level 20, y at level 100, z at level 200, only parsing) : py_scope.
Notation "x ←$ y ; z" := (rbind y (fun x => z))
  (at level 20, y at level 100, z at level 200, only parsing) : py_scope.
Open Scope py_scope.

(** ** Hex geometry *)

Module Hex.

(** A cube coordinate [(q, r, s)]. *)
Definition Cube : Type := Z * Z * Z.

Definition MAX_RINGS : nat := 4.
Definition HEX_SIDES : nat := 6.

(** Offsets of the six neighbours of a hex. *)
Definition NEIGHBORS : list Cube :=
  [(1,0,-1); (0,1,-1); (-1,1,0); (-1,0,1); (0,-1,1); (1,-1,0)].

Definition cube_add (x y : Cube) : Cube :=
  let '(x0, x1, x2) := x in
  let '(y0, y1, y2) := y in
  (x0 + y0, x1 + y1, x2 + y2).

Definition cube_distance (x y : Cube) : Z :=
  let '(x0, x1, x2) := x in
  let '(y0, y1, y2) := y in
  Z.max (Z.max (Z.abs (x0 - y0)) (Z.abs (x1 - y1))) (Z.abs (x2 - y2)).

Definition cube_ring_number (x : Cube) : Z :=
  let '(x0, x1, x2) := x in
  Z.max (Z.max (Z.abs x0) (Z.abs x1)) (Z.abs x2).

(** One pass of the inner loop of [cube_ring]:
    [RING += [coord]; coord = cube_add(coord, side)]. *)
Definition ring_step (side : Cube) (st : list Cube * Cube) : list Cube * Cube :=
  (st.1 ++ [st.2], cube_add st.2 side).

(** [for k in range(n)] along one side. *)
Definition ring_side (n : nat) (st : list Cube * Cube) (side : Cube)
  : list Cube * Cube :=
  Nat.iter n (ring_step side) st.

Definition cube_ring (n : Z) : list Cube :=
  if decide (n <= 0) then [(0,0,0)]
  else (foldl (ring_side (Z.to_nat n)) ([], (0, -n, n)) NEIGHBORS).1.

(** The three global tables filled by [init_hex_coords]. *)
Definition KEEGAN_TO_COORD : list Cube :=
  flat_map (fun ring => cube_ring (Z.of_nat ring)) (seq 0 (MAX_RINGS + 1)).

(** [{KEEGAN_TO_COORD[k]: k for k in range(len(KEEGAN_TO_COORD))}]:
    a later position overwrites an earlier one with the same key. *)
Definition COORD_TO_KEEGAN : gmap Cube nat :=
  foldl (fun m kc => <[kc.2 := kc.1]> m) ∅
        (zip (seq 0 (length KEEGAN_TO_COORD)) KEEGAN_TO_COORD).

Definition adjacent_of (coord : Cube) : list nat :=
  omap (fun offset => COORD_TO_KEEGAN !! cube_add coord offset) NEIGHBORS.

Definition KEEGAN_ADJACENT : list (list nat) :=
  map adjacent_of KEEGAN_TO_COORD.

End Hex.

Import Hex.

(** ** Scoring constants (class [WEIGHTS]) *)

Module WEIGHTS.
Open Scope Q_scope.

Definition DIFF_SCORE : Q := 1.
Definition DIFF_RES : Q := 1 # 2.
Definition DIFF_INF : Q := 1 # 2.
Definition DIFF_WORM : Q := 5.
Definition DIFF_ANOM : Q := 5.
Definition DIFF_SKIP : Q := 5.

Definition DIFF_HOP1 : Q := 1.
Definition DIFF_HOP2C : Q := 1 # 8.
Definition DIFF_HOP2U : Q := 1 # 4.

Definition SCORE_EFF_RESOURCE : Q := 3 # 4.
Definition SCORE_RESOURCE : Q := 1 # 4.
Definition SCORE_EFF_INFLUENCE : Q := 3 # 4.
Definition SCORE_INFLUENCE : Q := 1 # 4.
Definition SCORE_SKIPS : Q := 1 # 2.
Definition SCORE_ADJ_WORM : Q := -2.
Definition SCORE_HOP2_WORM : Q := 1 # 4.

Definition SCORE_MIN_HOP1_PLANET_SYS : Z := 3%Z.
Definition SCORE_MAX_HOP1_PLANET_SYS : Z := 4%Z.

Definition SCORE_HOP1 : Q := 1.
Definition SCORE_HOP2C : Q := 1 # 8.
Definition SCORE_HOP2U : Q := 1 # 4.
End WEIGHTS.

(** ** The tile catalogue and the command line *)

Definition MECATOL_INDEX : Z := 18.

(** A row of [PLANETS]; of a planet the program reads only the resource and
    the influence. *)
Record Planet : Type := {
  planet_resource : Z;
  planet_influence : Z
}.

(** A value of the dictionary [TILES]. *)
Record Tile : Type := {
  tile_resource : Z;
  tile_influence : Z;
  tile_skip : option string;
  tile_anomaly : option string;
  tile_worm : option string;
  tile_planets : list Planet;
  tile_home : option string
}.

(** The parsed arguments the board code reads: [FLAGS.require],
    [FLAGS.exclude] and [FLAGS.lock] are sets of tile identities,
    [FLAGS.shuffle] is the number of positions shuffled by one step (at
    least one by contract, so a natural number here). *)
Record Flags : Type := {
  require : gset Z;
  exclude : gset Z;
  lock : gset Z;
  shuffle : nat
}.

(** The module-level state the classes read. *)
Record Globals : Type := {
  TILES : gmap Z Tile;
  NONHOME_TILES : list Z;
  FLAGS : Flags
}.

Definition is_home (G : Globals) (tile_index : Z) : outcome bool :=
  if decide (tile_index = 0) then Ret true
  else tile ← item (TILES G) tile_index;
       Ret (bool_decide (tile_home tile <> None)).

(** ** class [HomeStats] *)

Module HomeStats.

Record t : Type := {
  hop : Z;
  sub_category : option string;
  resource : Z;
  influence : Z;
  eff_resource : Z;
  eff_influence : Z;
  eff_both : Z;
  skips : list string;
  worms : Z;
  anomalies : Z;
  planet_systems : Z
}.

Definition reset (self : t) : t :=
  {| hop := hop self; sub_category := sub_category self;
     resource := 0; influence := 0;
     eff_resource := 0; eff_influence := 0; eff_both := 0;
     skips := []; worms := 0; anomalies := 0; planet_systems := 0 |}.

(** [HomeStats(hop, sub_category)]. *)
Definition init (hop : Z) (sub_category : option string) : t :=
  {| hop := hop; sub_category := sub_category;
     resource := 0; influence := 0;
     eff_resource := 0; eff_influence := 0; eff_both := 0;
     skips := []; worms := 0; anomalies := 0; planet_systems := 0 |}.

(** [self += rhs]. *)
Definition iadd (self rhs : t) : t :=
  {| hop := hop self; sub_category := sub_category self;
     resource := resource self + resource rhs;
     influence := influence self + influence rhs;
     eff_resource := eff_resource self + eff_resource rhs;
     eff_influence := eff_influence self + eff_influence rhs;
     eff_both := eff_both self + eff_both rhs;
     skips := skips self ++ skips rhs;
     worms := worms self + worms rhs;
     anomalies := anomalies self + anomalies rhs;
     planet_systems := planet_systems self + planet_systems rhs |}.

(** Body of the loop over the planets of a tile. *)
Definition add_planet (self : t) (planet : Planet) : t :=
  let resource' := planet_resource planet in
  let influence' := planet_influence planet in
  {| hop := hop self; sub_category := sub_category self;
     resource := resource self + resource';
     influence := influence self + influence';
     eff_resource :=
       if decide (resource' > influence') then eff_resource self + resource'
       else eff_resource self;
     eff_influence :=
       if decide (resource' > influence') then eff_influence self
       else if decide (resource' < influence')
            then eff_influence self + influence'
            else eff_influence self;
     eff_both :=
       if decide (resource' > influence') then eff_both self
       else if decide (resource' < influence') then eff_both self
            else eff_both self + resource';
     skips := skips self; worms := worms self;
     anomalies := anomalies self;
     planet_systems := planet_systems self |}.

Definition add_tile (self : t) (tile : Tile) : t :=
  let self1 := foldl add_planet self (tile_planets tile) in
  {| hop := hop self1; sub_category := sub_category self1;
     resource := resource self1; influence := influence self1;
     eff_resource := eff_resource self1;
     eff_influence := eff_influence self1;
     eff_both := eff_both self1;
     skips := if truthy (tile_skip tile)
              then skips self1 ++ [default EmptyString (tile_skip tile)]
              else skips self1;
     worms := worms self1
              + (if decide (tile_worm tile <> None) then 1 else 0);
     anomalies := anomalies self1
                  + (if decide (tile_anomaly tile <> None) then 1 else 0);
     planet_systems :=
       planet_systems self1
       + (if decide (tile_resource tile + tile_influence tile > 0)
          then 1 else 0) |}.

Section WithGlobals.
Variable G : Globals.

(** [update(tile_indices, board)]: positions [tile_indices] of the tile
    list [board]. *)
Definition update (self : t) (tile_indices : list nat) (board : list Z)
  : outcome t :=
  foldM (fun self k =>
           tile_index ← get board k;
           h ← is_home G tile_index;
           if h then Ret self
           else tile ← item (TILES G) tile_index;
                Ret (add_tile self tile))
        (reset self) tile_indices.
End WithGlobals.

Definition score (self : t) : Q :=
  let w := [WEIGHTS.SCORE_EFF_RESOURCE; WEIGHTS.SCORE_RESOURCE;
            WEIGHTS.SCORE_EFF_INFLUENCE; WEIGHTS.SCORE_INFLUENCE;
            WEIGHTS.SCORE_SKIPS;
            if decide (hop self = 1) then WEIGHTS.SCORE_ADJ_WORM
            else WEIGHTS.SCORE_HOP2_WORM] in
  let v := [eff_resource self + eff_both self; resource self;
            eff_influence self; resource self;
            Z.of_nat (length (skips self)); worms self] in
  let _score :=
    foldl Qplus 0%Q (map (fun elem => (elem.1 * inject_Z elem.2)%Q) (zip w v)) in
  if decide (hop self = 1) then
    let _score :=
      if decide (planet_systems self > WEIGHTS.SCORE_MAX_HOP1_PLANET_SYS)
      then (_score + -100)%Q else _score in
    let _score :=
      if decide (planet_systems self < WEIGHTS.SCORE_MIN_HOP1_PLANET_SYS)
      then (_score + -100)%Q else _score in
    _score
  else _score.

Definition difference (self other : t) : Q :=
  let diff := 0%Q in
  let diff := (diff + WEIGHTS.DIFF_SCORE * Qabs (score self - score other))%Q in
  let diff := (diff + WEIGHTS.DIFF_RES
                      * inject_Z (Z.abs (resource self - resource other)))%Q in
  let diff := (diff + WEIGHTS.DIFF_INF
                      * inject_Z (Z.abs (influence self - influence other)))%Q in
  let diff := (diff + WEIGHTS.DIFF_WORM
                      * inject_Z (Z.abs (worms self - worms other)))%Q in
  let diff := (diff + WEIGHTS.DIFF_ANOM
                      * inject_Z (Z.abs (anomalies self - anomalies other)))%Q in
  let diff := (diff + WEIGHTS.DIFF_SKIP
                      * inject_Z (Z.abs (Z.of_nat (length (skips self))
                                         - Z.of_nat (length (skips other)))))%Q in
  diff.

End HomeStats.

(** ** class [Home] *)

Module Home.

(** [hop2u], [hop2c] and the four statistics objects are attributes that
    [initialize_hop2_tile_lists] creates; [init] leaves them empty, and
    nothing reads them before [Board.init] has initialised every home. *)
Record t : Type := {
  index : nat;
  keegan : nat;
  coord : Cube;
  dist_to : list Z;
  hop : list (list nat);
  hop2u : list nat;
  hop2c : list nat;
  stats1 : HomeStats.t;
  stats2u : HomeStats.t;
  stats2c : HomeStats.t;
  stats2t : HomeStats.t
}.

(** [Home(index, keegan, num_tiles)]. *)
Definition init (index keegan num_tiles : nat) : outcome t :=
  coord ← get KEEGAN_TO_COORD keegan;
  dist_to ← mapM (fun c => x ← get KEEGAN_TO_COORD c;
                           Ret (cube_distance coord x))
                 (seq 0 num_tiles);
  let hop := map (fun h : Z =>
                    filter (fun i => dist_to !! i = Some h)
                           (seq 0 (length dist_to)))
                 [0; 1; 2] in
  Ret {| index := index; keegan := keegan; coord := coord;
         dist_to := dist_to; hop := hop; hop2u := []; hop2c := [];
         stats1 := HomeStats.init 1 None;
         stats2u := HomeStats.init 2 (Some "U"%string);
         stats2c := HomeStats.init 2 (Some "C"%string);
         stats2t := HomeStats.init 2 (Some "T"%string) |}.

(** The two sets accumulated by the first loop of
    [initialize_hop2_tile_lists]. *)
Definition others (self : t) (all_homes : list t)
  : outcome (gset nat * gset nat) :=
  foldM (fun acc i =>
           h ← get all_homes i;
           if decide (index h <> index self) then
             h1 ← get (hop h) 1;
             h2 ← get (hop h) 2;
             Ret (acc.1 ∪ list_to_set h1, acc.2 ∪ list_to_set h2)
           else Ret acc)
        (∅, ∅) (seq 0 (length all_homes)).

Definition initialize_hop2_tile_lists (self : t) (all_homes : list t)
  : outcome t :=
  oth ← others self all_homes;
  let other_hop1 : gset nat := oth.1 in
  let other_hop2 : gset nat := oth.2 in
  own2 ← get (hop self) 2;
  let hop2u := filter (fun k => (k ∉ other_hop2) /\ (k ∉ other_hop1)) own2 in
  let hop2c := filter (fun k => (k ∈ other_hop2) /\ (k ∉ other_hop1)) own2 in
  Ret {| index := index self; keegan := keegan self; coord := coord self;
         dist_to := dist_to self; hop := hop self;
         hop2u := hop2u; hop2c := hop2c;
         stats1 := HomeStats.init 1 None;
         stats2u := HomeStats.init 2 (Some "U"%string);
         stats2c := HomeStats.init 2 (Some "C"%string);
         stats2t := HomeStats.init 2 (Some "T"%string) |}.

Section WithGlobals.
Variable G : Globals.

Definition update_stats (self : t) (tiles : list Z) : outcome t :=
  hop1 ← get (hop self) 1;
  s1 ← HomeStats.update G (stats1 self) hop1 tiles;
  s2u ← HomeStats.update G (stats2u self) (hop2u self) tiles;
  s2c ← HomeStats.update G (stats2c self) (hop2c self) tiles;
  let s2t := HomeStats.reset (stats2t self) in
  let s2t := HomeStats.iadd s2t s2u in
  let s2t := HomeStats.iadd s2t s2c in
  Ret {| index := index self; keegan := keegan self; coord := coord self;
         dist_to := dist_to self; hop := hop self;
         hop2u := hop2u self; hop2c := hop2c self;
         stats1 := s1; stats2u := s2u; stats2c := s2c; stats2t := s2t |}.
End WithGlobals.

Definition score (self : t) : Q :=
  (WEIGHTS.SCORE_HOP1 * HomeStats.score (stats1 self)
   + WEIGHTS.SCORE_HOP2U * HomeStats.score (stats2u self)
   + WEIGHTS.SCORE_HOP2C * HomeStats.score (stats2c self))%Q.

Definition difference (self other_home : t) : Q :=
  (WEIGHTS.DIFF_HOP1
     * HomeStats.difference (stats1 self) (stats1 other_home)
   + WEIGHTS.DIFF_HOP2C
     * HomeStats.difference (stats2c self) (stats2c other_home)
   + WEIGHTS.DIFF_HOP2U
     * HomeStats.difference (stats2u self) (stats2c other_home))%Q.

End Home.

(** ** class [Board] *)

Module Board.

Record t : Type := {
  tiles : list Z;
  unused : list Z;
  homes : list Home.t;
  num_homes : nat;
  num_tiles : nat
}.

Definition with_tiles (self : t) (tiles' : list Z) : t :=
  {| tiles := tiles'; unused := unused self; homes := homes self;
     num_homes := num_homes self; num_tiles := num_tiles self |}.

Definition with_homes (self : t) (homes' : list Home.t) : t :=
  {| tiles := tiles self; unused := unused self; homes := homes';
     num_homes := num_homes self; num_tiles := num_tiles self |}.

Definition with_unused (self : t) (unused' : list Z) : t :=
  {| tiles := tiles self; unused := unused'; homes := homes self;
     num_homes := num_homes self; num_tiles := num_tiles self |}.

(** Keegan numbers of the home positions of [generate_random_board]. *)
Definition home_keegan (n : Z) : outcome (list nat) :=
  if decide (n = 4) then Ret [23; 27; 32; 36]%nat
  else if decide (n = 6) then Ret [19; 22; 25; 28; 31; 34]%nat
  else if decide (n = 8) then Ret [37; 40; 43; 46; 49; 52; 55; 58]%nat
  else Raise (Exception "Unsupported player count").

Section WithGlobals.
Variable G : Globals.

(** [for r in FLAGS.require: del all_tiles[all_tiles.index(r)]]. *)
Definition remove_required (all_tiles : list Z) (required : list Z)
  : outcome (list Z) :=
  foldM (fun all_tiles r => i ← index all_tiles r; del all_tiles i)
        all_tiles required.

Definition generate_random_board (n : Z) : Rand (list Z) :=
  home_keegan ←$ lift (home_keegan n);
  let num_tiles : Z := if decide (n <= 6) then 37 else 61 in
  let all_tiles :=
    filter (fun i => i <> MECATOL_INDEX) (NONHOME_TILES G) in
  let tile_list := MECATOL_INDEX :: elements (require (FLAGS G)) in
  all_tiles ←$ lift (remove_required all_tiles
                                     (elements (require (FLAGS G))));
  picked ←$ sample all_tiles (num_tiles - Z.of_nat (length tile_list) - n);
  let tile_list := tile_list ++ picked in
  rret (foldl (fun tile_list k => Py.insert k 0 tile_list)
              tile_list home_keegan).

Definition update_unused (self : t) : t :=
  with_unused self
    (filter (fun tile => (tile ∉ tiles self) /\ (tile ∉ exclude (FLAGS G)))
            (NONHOME_TILES G)).

Definition update_stats (self : t) : outcome t :=
  homes' ← mapM (fun h => Home.update_stats G h (tiles self)) (homes self);
  Ret (with_homes self homes').

(** [Board(board=board, num_homes=num_homes)]. *)
Definition init (board : list Z) (num_homes : Z) : Rand t :=
  tiles ←$ match board with
           | [] => generate_random_board num_homes
           | _ => rret board
           end;
  let num_tiles := length tiles in
  home_keegan ←$ lift (filterM (fun i => tile_index ← get tiles i;
                                         is_home G tile_index)
                               (seq 0 (length tiles)));
  let num_homes := length home_keegan in
  homes ←$ lift (mapM (fun i => k ← get home_keegan i;
                                Home.init i k num_tiles)
                      (seq 0 num_homes));
  homes ←$ lift (foldM (fun homes i =>
                          h ← get homes i;
                          h' ← Home.initialize_hop2_tile_lists h homes;
                          set homes i h')
                       homes (seq 0 num_homes));
  let self := {| tiles := tiles; unused := []; homes := homes;
                 num_homes := num_homes; num_tiles := num_tiles |} in
  let self := update_unused self in
  lift (update_stats self).

Definition get_imbalance (self : t) : outcome Q :=
  foldM (fun max_diff pair =>
           a ← get (homes self) pair.1;
           b ← get (homes self) pair.2;
           let diff := Home.difference a b in
           Ret (if Qlt_le_dec max_diff diff then diff else max_diff))
        0%Q (combinations2 (num_homes self)).

(** [k for k in KEEGAN_ADJACENT[keegan] if k < self.num_tiles]. *)
Definition neighbors (self : t) (keegan : nat) : outcome (list nat) :=
  adjacent ← get KEEGAN_ADJACENT keegan;
  Ret (filter (fun k => (k < num_tiles self)%nat) adjacent).

Definition is_valid (self : t) (keegan : nat) : outcome bool :=
  tile_index ← get (tiles self) keegan;
  tile ← item (TILES G) tile_index;
  bad ← (if truthy (tile_anomaly tile) then
           ks ← neighbors self keegan;
           any (fun k => tk ← get (tiles self) k;
                         if decide (tk > 0) then
                           other ← item (TILES G) tk;
                           Ret (bool_decide (tile_anomaly other <> None))
                         else Ret false) ks
         else Ret false);
  if bad then Ret false else
  bad ← (if truthy (tile_worm tile) then
           ks ← neighbors self keegan;
           any (fun k => tk ← get (tiles self) k;
                         if decide (tk > 0) then
                           other ← item (TILES G) tk;
                           Ret (bool_decide (tile_worm tile = tile_worm other))
                         else Ret false) ks
         else Ret false);
  if bad then Ret false else
  bad ← (if decide (tile_skip tile = Some "legend"%string) then
           ks ← neighbors self keegan;
           any (fun k => tk ← get (tiles self) k;
                         Ret (bool_decide (tk = 0))) ks
         else Ret false);
  if bad then Ret false else
  bad ← (if truthy (tile_worm tile) then
           ks ← neighbors self keegan;
           any (fun k => tk ← get (tiles self) k;
                         Ret (bool_decide (tk = 0))) ks
         else Ret false);
  if bad then Ret false else Ret true.

(** The three tests of the selection loop of [improve] that send the
    loop back for another draw. *)
Definition rejected (self : t) (shuffle_keegan : list nat) (keegan : nat)
  : outcome bool :=
  if decide (keegan ∈ shuffle_keegan) then Ret true else
  tile_index ← get (tiles self) keegan;
  h ← is_home G tile_index;
  if h then Ret true else
  Ret (bool_decide (lock (FLAGS G) <> ∅)
       && bool_decide (tile_index ∈ lock (FLAGS G))).

(** The [while True] loop of [improve]: draw positions with
    [random.randint(1, self.num_tiles - 1)] until one is accepted. *)
Fixpoint pick_keegan (self : t) (shuffle_keegan : list nat) (ds : list Z)
  : outcome nat * list Z :=
  let hi := Z.of_nat (num_tiles self) - 1 in
  if decide (hi < 1) then (Raise ValueError, ds) else
  match ds with
  | [] => (Starved, [])
  | d :: ds' =>
      let keegan := Z.to_nat (1 + d mod (hi - 1 + 1)) in
      match rejected self shuffle_keegan keegan with
      | Ret true => pick_keegan self shuffle_keegan ds'
      | Ret false => (Ret keegan, ds')
      | Raise e => (Raise e, ds')
      | Starved => (Starved, ds')
      end
  end.

(** The outer [for i in range(FLAGS.shuffle)] loop of the selection. *)
Fixpoint pick_all (self : t) (n : nat) (shuffle_keegan : list nat)
  : Rand (list nat) :=
  match n with
  | O => rret shuffle_keegan
  | S n' => keegan ←$ pick_keegan self shuffle_keegan;
            pick_all self n' (shuffle_keegan ++ [keegan])
  end.

(** [[self.tiles[shuffle_keegan[i]] for i in range(n)]]. *)
Definition lifted (self : t) (n : nat) (shuffle_keegan : list nat)
  : outcome (list Z) :=
  mapM (fun i => k ← get shuffle_keegan i; get (tiles self) k) (seq 0 n).

(** [for i in range(n): self.tiles[shuffle_keegan[i]] = new[i]]. *)
Definition place (self : t) (n : nat) (shuffle_keegan : list nat)
           (new : list Z) : outcome t :=
  tiles' ← foldM (fun ts i => k ← get shuffle_keegan i;
                              x ← get new i;
                              set ts k x)
                 (tiles self) (seq 0 n);
  Ret (with_tiles self tiles').

(** One pass of the loop over the permutations; the state is the board
    together with [best_imbalance] and [best_tiles]. *)
Definition try_permutation (shuffle_keegan : list nat)
           (st : t * Q * list Z) (perm : list Z)
  : outcome (t * Q * list Z) :=
  let '(self, best_imbalance, best_tiles) := st in
  let n := shuffle (FLAGS G) in
  self ← place self n shuffle_keegan perm;
  ok ← all (fun i => k ← get shuffle_keegan i; is_valid self k) (seq 0 n);
  if negb ok then Ret (self, best_imbalance, best_tiles) else
  self ← update_stats self;
  imbalance ← get_imbalance self;
  if Qlt_le_dec imbalance best_imbalance then
    best_tiles ← lifted self n shuffle_keegan;
    Ret (self, imbalance, best_tiles)
  else Ret (self, best_imbalance, best_tiles).

Definition improve (self : t) : Rand t :=
  let n := shuffle (FLAGS G) in
  shuffle_keegan ←$ pick_all self n [];
  free_tiles ←$ lift (lifted_all ← mapM (get (tiles self)) shuffle_keegan;
                      Ret (lifted_all ++ unused self));
  best_imbalance ←$ lift (get_imbalance self);
  best_tiles ←$ lift (lifted self n shuffle_keegan);
  st ←$ lift (foldM (try_permutation shuffle_keegan)
                    (self, best_imbalance, best_tiles)
                    (permutations n free_tiles));
  let '(self, _, best_tiles) := st in
  self ←$ lift (place self n shuffle_keegan best_tiles);
  self ←$ lift (update_stats self);
  rret (update_unused self).

(** [optimize(steps)]; the method body works on the module-level
    [board], which is the receiver at its only call site
    ([board.optimize(FLAGS.rounds)] in [main_board]). *)
Fixpoint optimize_loop (steps : nat) (board : t) : Rand (Q * t) :=
  match steps with
  | O => imbalance ←$ lift (get_imbalance board); rret (imbalance, board)
  | S steps' =>
      imbalance ←$ lift (get_imbalance board);
      if Qeq_bool imbalance 0 then rret (0%Q, board)
      else board ←$ improve board; optimize_loop steps' board
  end.

Definition optimize (board : t) (steps : Z) : Rand (Q * t) :=
  optimize_loop (Z.to_nat steps) board.

End WithGlobals.

End Board.

(** ** Vocabulary of the properties *)

(** Weight of the wormhole term of the score of a ring. *)
Definition worm_weight (hop : Z) : Q :=
  if decide (hop = 1) then (-2)%Q else (1 # 4)%Q.

(** Penalty for the number of planet systems next to a home. *)
Definition band_penalty (hop planet_systems : Z) : Q :=
  if decide (hop = 1) then
    ((if decide (planet_systems > 4)%Z then -100 else 0)
     + (if decide (planet_systems < 3)%Z then -100 else 0))%Q
  else 0%Q.

(** The integer counters of a [HomeStats] (all fields but [hop], [sub_category]
    and the skip sequence). *)
Definition counters (s : HomeStats.t) : list Z :=
  [HomeStats.resource s; HomeStats.influence s; HomeStats.eff_resource s;
   HomeStats.eff_influence s; HomeStats.eff_both s; HomeStats.worms s;
   HomeStats.anomalies s; HomeStats.planet_systems s].

Definition sum_zero (c : Cube) : Prop := c.1.1 + c.1.2 + c.2 = 0.

Definition unsupported : exn := Exception "Unsupported player count".

(** Board size chosen by [generate_random_board]. *)
Definition board_size (n : Z) : nat := if decide (n <= 6) then 37%nat else 61%nat.

(** The home positions configured for a player count. *)
Definition home_positions (n : Z) : list nat :=
  match Board.home_keegan n with
  | Ret ks => ks
  | _ => []
  end.

(** Number of tiles that [generate_random_board] draws or takes from the
    required set: every position but the centre and the homes. *)
Definition free_slots (n : Z) : Z := Z.of_nat (board_size n) - 1 - n.

(** [ks] can be inserted one after the other into a list of length [len]
    whose entries from position [lo] on are untouched so far: each position
    lies beyond the previous one and within the list as it has grown. *)
Fixpoint insertion_plan (lo len : nat) (ks : list nat) : Prop :=
  match ks with
  | [] => True
  | k :: ks' => (lo <= k)%nat /\ (k <= len)%nat /\ insertion_plan (S k) (S len) ks'
  end.

(** *** Well-formed catalogues

    What [load_tiles] guarantees of the tables it fills.  Tile numbers are
    positive (0 is the home slot of a board) and a tag is absent or a
    non-empty string ([tags_ok]); the tiles listed as non-home are in
    [TILES] without a home mark, so that [is_home] is false of them
    ([nonhome_ok]). *)
Definition tags_ok (G : Globals) : Prop :=
  forall t tile, TILES G !! t = Some tile ->
                 0 < t
                 /\ tile_anomaly tile <> Some EmptyString
                 /\ tile_worm tile <> Some EmptyString.

Definition nonhome_ok (G : Globals) : Prop :=
  forall t, t ∈ NONHOME_TILES G -> is_home G t = Ret false.

(** Every position of the board holds the home slot or a catalogue tile. *)
Definition tiles_known (G : Globals) (tiles : list Z) : Prop :=
  Forall (fun t => t = 0 \/ is_Some (TILES G !! t)) tiles.

(** *** The adjacency rules *)

(** The neighbours of a position that exist on the board. *)
Definition adjacent (b : Board.t) (p : nat) : list nat :=
  filter (fun k => (k < Board.num_tiles b)%nat) (default [] (KEEGAN_ADJACENT !! p)).

(** The catalogue record of the tile at a position, if any. *)
Definition tile_at (G : Globals) (b : Board.t) (k : nat) : option Tile :=
  match Board.tiles b !! k with
  | Some t => TILES G !! t
  | None => None
  end.

Definition home_slot (b : Board.t) (k : nat) : Prop := Board.tiles b !! k = Some 0.

(** (a) an anomaly has no neighbour of identity above 0 with an anomaly. *)
Definition anomaly_rule (G : Globals) (b : Board.t) (p : nat) (tile : Tile) : Prop :=
  tile_anomaly tile <> None ->
  forall k t other, k ∈ adjacent b p -> Board.tiles b !! k = Some t -> t > 0 ->
                    TILES G !! t = Some other -> tile_anomaly other = None.

(** (b) a wormhole has no neighbour with the same wormhole. *)
Definition wormhole_rule (G : Globals) (b : Board.t) (p : nat) (tile : Tile) : Prop :=
  tile_worm tile <> None ->
  forall k other, k ∈ adjacent b p -> tile_at G b k = Some other ->
                  tile_worm other <> tile_worm tile.

(** (c) a legendary planet has no home slot as a neighbour. *)
Definition legendary_rule (b : Board.t) (p : nat) (tile : Tile) : Prop :=
  tile_skip tile = Some "legend"%string ->
  forall k, k ∈ adjacent b p -> ~ home_slot b k.

(** (d) a wormhole has no home slot as a neighbour. *)
Definition wormhole_home_rule (b : Board.t) (p : nat) (tile : Tile) : Prop :=
  tile_worm tile <> None ->
  forall k, k ∈ adjacent b p -> ~ home_slot b k.

(** The three tests that [is_valid] runs over the neighbours, as boolean
    functions of the neighbour's position. *)
Definition anomalous (G : Globals) (b : Board.t) (k : nat) : bool :=
  match Board.tiles b !! k with
  | Some t => if decide (t > 0) then
                match TILES G !! t with
                | Some other => bool_decide (tile_anomaly other <> None)
                | None => false
                end
              else false
  | None => false
  end.

Definition same_worm (G : Globals) (b : Board.t) (tile : Tile) (k : nat) : bool :=
  match Board.tiles b !! k with
  | Some t => if decide (t > 0) then
                match TILES G !! t with
                | Some other => bool_decide (tile_worm tile = tile_worm other)
                | None => false
                end
              else false
  | None => false
  end.

Definition is_slot (b : Board.t) (k : nat) : bool :=
  bool_decide (Board.tiles b !! k = Some 0).

(** Executable checks of [tags_ok] and [nonhome_ok]. *)
Definition tags_check (G : Globals) : bool :=
  bool_decide (map_Forall (fun t tile => 0 < t
                                         /\ tile_anomaly tile <> Some EmptyString
                                         /\ tile_worm tile <> Some EmptyString)
                          (TILES G)).

Definition nonhome_check (G : Globals) : bool :=
  forallb (fun t => bool_decide (t <> 0)
                    && match TILES G !! t with
                       | Some tile => bool_decide (tile_home tile = None)
                       | None => false
                       end) (NONHOME_TILES G).

(** The tile list after [for i in range(n): tiles[positions[i]] = new[i]],
    and the list [[tiles[k] for k in positions]], for positions in range. *)
Definition write (positions : list nat) (new tiles : list Z) : list Z :=
  foldl (fun ts kx => <[kx.1 := kx.2]> ts) tiles (zip positions new).

Definition read (positions : list nat) (tiles : list Z) : list Z :=
  omap (fun k => tiles !! k) positions.

(** *** Boards as [Board.init] and [improve] leave them *)

(** The two attributes of a [HomeStats] that [reset] keeps. *)
Definition ring_kind (s : HomeStats.t) : Z * option string :=
  (HomeStats.hop s, HomeStats.sub_category s).

(** Two states of a home that differ at most in the statistics. *)
Definition same_static (h h' : Home.t) : Prop :=
  Home.index h = Home.index h'
  /\ Home.keegan h = Home.keegan h'
  /\ Home.coord h = Home.coord h'
  /\ Home.dist_to h = Home.dist_to h'
  /\ Home.hop h = Home.hop h'
  /\ Home.hop2u h = Home.hop2u h'
  /\ Home.hop2c h = Home.hop2c h'
  /\ ring_kind (Home.stats1 h) = ring_kind (Home.stats1 h')
  /\ ring_kind (Home.stats2u h) = ring_kind (Home.stats2u h')
  /\ ring_kind (Home.stats2c h) = ring_kind (Home.stats2c h')
  /\ ring_kind (Home.stats2t h) = ring_kind (Home.stats2t h').

(** Two states of a board that differ at most in the tiles and in the
    statistics of the homes. *)
Definition same_frame (b b' : Board.t) : Prop :=
  Board.unused b = Board.unused b'
  /\ Board.num_homes b = Board.num_homes b'
  /\ Board.num_tiles b = Board.num_tiles b'
  /\ Forall2 same_static (Board.homes b) (Board.homes b').

(** The rings of a home lie on a board of [n] positions. *)
Definition home_ok (n : nat) (h : Home.t) : Prop :=
  (exists hop1, Home.hop h !! 1%nat = Some hop1
                /\ Forall (fun k => (k < n)%nat) hop1)
  /\ Forall (fun k => (k < n)%nat) (Home.hop2u h)
  /\ Forall (fun k => (k < n)%nat) (Home.hop2c h).

(** The invariant of a board between two method calls: the tile list has
    [num_tiles] entries, between 2 and 61, each the home slot or a
    catalogue tile; the rings of the [num_homes] homes lie on the board;
    the unused pool and the statistics are those of the tiles. *)
Record board_ok (G : Globals) (b : Board.t) : Prop := {
  ok_length : length (Board.tiles b) = Board.num_tiles b;
  ok_size : (2 <= Board.num_tiles b <= 61)%nat;
  ok_known : tiles_known G (Board.tiles b);
  ok_homes_length : length (Board.homes b) = Board.num_homes b;
  ok_homes : Forall (home_ok (Board.num_tiles b)) (Board.homes b);
  ok_unused : Board.update_unused G b = b;
  ok_stats : Board.update_stats G b = Ret b
}.

(** A tile identity that may be placed on a shuffled position: a catalogue
    tile without a home mark. *)
Definition placeable (G : Globals) (t : Z) : Prop := is_home G t = Ret false.

(** [FLAGS.lock and t in FLAGS.lock]. *)
Definition locked (G : Globals) (t : Z) : Prop :=
  lock (FLAGS G) <> ∅ /\ t ∈ lock (FLAGS G).

(** A position that the selection loop of [improve] may choose: not the
    centre, and holding a catalogue tile that is neither a home nor locked. *)
Definition selectable (G : Globals) (b : Board.t) (k : nat) : Prop :=
  (1 <= k < Board.num_tiles b)%nat
  /\ exists t, Board.tiles b !! k = Some t /\ placeable G t /\ ~ locked G t.

(** The position that [random.randint(1, num_tiles - 1)] makes of a raw
    draw, and a raw draw that yields a given position. *)
Definition position_of (b : Board.t) (d : Z) : nat :=
  Z.to_nat (1 + d mod (Z.of_nat (Board.num_tiles b) - 1 - 1 + 1)).

Definition draw_of (k : nat) : Z := Z.of_nat k - 1.

(** A tile list that differs from that of [b] at most at the positions
    [ps], where it holds placeable tiles. *)
Definition candidate (G : Globals) (b : Board.t) (ps : list nat) (T : list Z)
  : Prop :=
  length T = length (Board.tiles b)
  /\ (forall q, q ∉ ps -> T !! q = Board.tiles b !! q)
  /\ (forall q t, q ∈ ps -> T !! q = Some t -> placeable G t).

(** The imbalance of [b] once its tiles are [T] and the statistics have
    been recomputed. *)
Definition imbalance_of (G : Globals) (b : Board.t) (T : list Z) (v : Q) : Prop :=
  exists b2, Board.update_stats G (Board.with_tiles b T) = Ret b2
             /\ Board.get_imbalance b2 = Ret v.

(** Invariant of the loop over the permutations in [improve], for the board
    [b] at entry, its imbalance [v0] and the selected positions [ps]. *)
Definition loop_inv (G : Globals) (b : Board.t) (v0 : Q) (ps : list nat)
           (st : Board.t * Q * list Z) : Prop :=
  same_frame b st.1.1
  /\ candidate G b ps (Board.tiles st.1.1)
  /\ exists T, candidate G b ps T
               /\ st.2 = read ps T
               /\ imbalance_of G b T st.1.2
               /\ ((T = Board.tiles b /\ st.1.2 = v0) \/ (st.1.2 < v0)%Q).

(** Executable checks of [home_ok] and of the list part of [board_ok]. *)
Definition home_check (n : nat) (h : Home.t) : bool :=
  match Home.hop h !! 1%nat with
  | Some hop1 => forallb (fun k => bool_decide (k < n)%nat) hop1
  | None => false
  end
  && forallb (fun k => bool_decide (k < n)%nat) (Home.hop2u h)
  && forallb (fun k => bool_decide (k < n)%nat) (Home.hop2c h).

Definition board_check (G : Globals) (b : Board.t) : bool :=
  bool_decide (length (Board.tiles b) = Board.num_tiles b)
  && bool_decide (2 <= Board.num_tiles b <= 61)%nat
  && forallb (fun t => bool_decide (t = 0) || bool_decide (is_Some (TILES G !! t)))
             (Board.tiles b)
  && bool_decide (length (Board.homes b) = Board.num_homes b)
  && forallb (home_check (Board.num_tiles b)) (Board.homes b).

(** The rings that [Home.init] computes lie on a board of [n] positions. *)
Definition rings_ok (n : nat) (h : Home.t) : Prop :=
  (exists hop1 hop2, Home.hop h !! 1%nat = Some hop1
                     /\ Home.hop h !! 2%nat = Some hop2
                     /\ Forall (fun k => (k < n)%nat) hop1
                     /\ Forall (fun k => (k < n)%nat) hop2)
  /\ Forall (fun k => (k < n)%nat) (Home.hop2u h)
  /\ Forall (fun k => (k < n)%nat) (Home.hop2c h).

(** ** Further vocabulary *)

(** [k] steps in a direction. *)
Definition cube_scale (k : Z) (c : Cube) : Cube :=
  (k * c.1.1, k * c.1.2, k * c.2).

(** Number of coordinates in the rings [0 .. m]. *)
Definition hex_count (m : nat) : nat := (1 + 3 * m * (m + 1))%nat.

(** The planets of the catalogue have non-negative resource and influence. *)
Definition planets_nonneg (G : Globals) : Prop :=
  forall t tile p, TILES G !! t = Some tile -> p ∈ tile_planets tile ->
                   0 <= planet_resource p /\ 0 <= planet_influence p.

(** The body of the loop of [HomeStats.update]. *)
Definition update_step (G : Globals) (board : list Z) (self : HomeStats.t)
           (k : nat) : outcome HomeStats.t :=
  tile_index ← get board k;
  h ← is_home G tile_index;
  if h then Ret self
  else tile ← item (TILES G) tile_index;
       Ret (HomeStats.add_tile self tile).

(** Growth of the counters by one tile. *)
Definition grows_by_one (x r : HomeStats.t) : Prop :=
  HomeStats.worms x <= HomeStats.worms r <= HomeStats.worms x + 1
  /\ HomeStats.anomalies x <= HomeStats.anomalies r <= HomeStats.anomalies x + 1
  /\ HomeStats.planet_systems x <= HomeStats.planet_systems r
     <= HomeStats.planet_systems x + 1
  /\ (length (HomeStats.skips x) <= length (HomeStats.skips r)
      <= length (HomeStats.skips x) + 1)%nat.

(** The effective totals stay within the raw totals. *)
Definition effective_within (x : HomeStats.t) : Prop :=
  0 <= HomeStats.eff_resource x /\ 0 <= HomeStats.eff_both x
  /\ HomeStats.eff_resource x + HomeStats.eff_both x <= HomeStats.resource x
  /\ 0 <= HomeStats.eff_influence x <= HomeStats.influence x.


(** Ring [d] of a home: [h.hop[d]]. *)
Definition ring_of (h : Home.t) (d : nat) : list nat :=
  default [] (Home.hop h !! d).

(** [h.index != self.index]. *)
Definition rival (self h : Home.t) : Prop := Home.index h <> Home.index self.

(** The statistics objects that [initialize_hop2_tile_lists] creates. *)
Definition fresh_stats (h : Home.t) : Prop :=
  Home.stats1 h = HomeStats.init 1 None
  /\ Home.stats2u h = HomeStats.init 2 (Some "U"%string)
  /\ Home.stats2c h = HomeStats.init 2 (Some "C"%string)
  /\ Home.stats2t h = HomeStats.init 2 (Some "T"%string).

(** The body of the first loop of [initialize_hop2_tile_lists]. *)
Definition others_step (self : Home.t) (acc : gset nat * gset nat) (h : Home.t)
  : outcome (gset nat * gset nat) :=
  if decide (Home.index h <> Home.index self) then
    h1 ← get (Home.hop h) 1;
    h2 ← get (Home.hop h) 2;
    Ret (acc.1 ∪ list_to_set h1, acc.2 ∪ list_to_set h2)
  else Ret acc.

(** The position holds a home: the home slot 0 or a tile with a home mark. *)
Definition holds_home (G : Globals) (tiles : list Z) (k : nat) : Prop :=
  exists t, tiles !! k = Some t /\ is_home G t = Ret true.

(** What the construction of a board keeps of a home once [Home.init] has
    made it. *)
Definition same_place (h0 h : Home.t) : Prop :=
  Home.index h = Home.index h0 /\ Home.keegan h = Home.keegan h0
  /\ Home.hop h = Home.hop h0.

(** No tile other than the home slot is on the list twice. *)
Definition distinct_tiles (T : list Z) : Prop :=
  forall i j t, t <> 0 -> T !! i = Some t -> T !! j = Some t -> i = j.

(** The tiles in play: those on the board and those of its unused pool. *)
Definition pool (b : Board.t) : list Z := Board.tiles b ++ Board.unused b.

(** [b'] is a rearrangement of the tiles in play of [b]. *)
Definition rearranged (G : Globals) (b b' : Board.t) : Prop :=
  board_ok G b'
  /\ (forall t, t ∈ pool b' -> t ∈ pool b)
  /\ (forall t, t ∈ Board.tiles b' -> t ∈ exclude (FLAGS G) -> t ∈ Board.tiles b)
  /\ (NoDup (NONHOME_TILES G) -> distinct_tiles (Board.tiles b) ->
      distinct_tiles (Board.tiles b')).

(** Every position that holds a tile other than the home slot passes
    [is_valid]. *)
Definition legal (G : Globals) (b : Board.t) : Prop :=
  forall p t, Board.tiles b !! p = Some t -> t <> 0 ->
              Board.is_valid G b p = Ret true.

(** ** [load_tiles]

    [load_tiles] reads the rows of [planets.csv] and fills the module-level
    tables.  The rows are the lists of strings that [csv.reader] yields;
    the builtins [int] and [str.strip] and the flag [FLAGS.effective] are
    parameters.  Of the dictionary of a planet only the resource and the
    influence are kept, which is all the program reads of it. *)

Module Load.

Record tables : Type := {
  PLANETS : list Planet;
  TILES : gmap Z Tile;
  HOME_TILES : list Z;
  NONHOME_TILES : list Z
}.

(** The tables before [load_tiles] runs. *)
Definition initial : tables :=
  {| PLANETS := []; TILES := ∅; HOME_TILES := []; NONHOME_TILES := [] |}.

(** [while len(row) < 8: row += ['']]. *)
Definition pad (row : list string) : list string :=
  row ++ replicate (8 - length row) EmptyString.

(** [new if new != '' else old]. *)
Definition keep (new : string) (old : option string) : option string :=
  if decide (new <> EmptyString) then Some new else old.

Section WithBuiltins.

Variable int : string -> outcome Z.
Variable strip : string -> string.
Variable effective : bool.

(** The body of the loop over the rows. *)
Definition load_row (st : tables) (row : list string) : outcome tables :=
  let row := pad row in
  c0 ← get row 0;
  index ← int c0;
  c4 ← get row 4;
  let planet_type := strip c4 in
  let is_home := bool_decide (planet_type = "home"%string) in
  c2 ← get row 2;
  resource ← int c2;
  c3 ← get row 3;
  influence ← int c3;
  tags ← (if is_home then Ret (EmptyString, EmptyString, EmptyString)
          else c5 ← get row 5;
               c6 ← get row 6;
               c7 ← get row 7;
               Ret (strip c5, strip c6, strip c7));
  let skip := tags.1.1 in
  let anomaly := tags.1.2 in
  let worm := tags.2 in
  let values :=
    if effective then
      if decide (resource >= influence) then (resource, 0) else (0, influence)
    else (resource, influence) in
  let planet :=
    {| planet_resource := values.1; planet_influence := values.2 |} in
  let known := TILES st !! index in
  let tile :=
    match known with
    | Some tile => tile
    | None => {| tile_resource := 0; tile_influence := 0;
                 tile_skip := None; tile_anomaly := None; tile_worm := None;
                 tile_planets := [];
                 tile_home := if is_home then Some skip else None |}
    end in
  let home_tiles :=
    match known with
    | Some _ => HOME_TILES st
    | None => if is_home then HOME_TILES st ++ [index] else HOME_TILES st
    end in
  let nonhome_tiles :=
    match known with
    | Some _ => NONHOME_TILES st
    | None => if is_home then NONHOME_TILES st else NONHOME_TILES st ++ [index]
    end in
  let tile :=
    {| tile_resource := tile_resource tile + planet_resource planet;
       tile_influence := tile_influence tile + planet_influence planet;
       tile_skip := if is_home then tile_skip tile
                    else keep skip (tile_skip tile);
       tile_anomaly := if is_home then tile_anomaly tile
                       else keep anomaly (tile_anomaly tile);
       tile_worm := if is_home then tile_worm tile
                    else keep worm (tile_worm tile);
       tile_planets := tile_planets tile ++ [planet];
       tile_home := tile_home tile |} in
  Ret {| PLANETS := PLANETS st ++ [planet];
         TILES := <[index := tile]> (TILES st);
         HOME_TILES := home_tiles;
         NONHOME_TILES := nonhome_tiles |}.

Definition load_tiles (rows : list (list string)) : outcome tables :=
  foldM load_row initial rows.

End WithBuiltins.

End Load.

(** The module-level state after [load_tiles], for given flags. *)
Definition catalogue (flags : Flags) (st : Load.tables) : Globals :=
  {| TILES := Load.TILES st; NONHOME_TILES := Load.NONHOME_TILES st;
     FLAGS := flags |}.

Definition sum_resource (ps : list Planet) : Z :=
  foldr (fun p a => planet_resource p + a) 0 ps.

Definition sum_influence (ps : list Planet) : Z :=
  foldr (fun p a => planet_influence p + a) 0 ps.

(** What holds of the tables between two rows: the keys of [TILES] are the
    tiles listed as home or non-home, each listed once; a tile has a home
    mark exactly when it is listed as home; no tag is the empty string; the
    totals of a tile are the sums over its planets, of which it has at
    least one. *)
Record tables_ok (st : Load.tables) : Prop := {
  tab_keys : forall t, is_Some (Load.TILES st !! t)
                       <-> t ∈ Load.HOME_TILES st \/ t ∈ Load.NONHOME_TILES st;
  tab_nodup : NoDup (Load.HOME_TILES st ++ Load.NONHOME_TILES st);
  tab_mark : forall t tile,
      Load.TILES st !! t = Some tile ->
      (tile_home tile = None /\ t ∈ Load.NONHOME_TILES st)
      \/ (tile_home tile = Some EmptyString /\ t ∈ Load.HOME_TILES st);
  tab_tags : forall t tile,
      Load.TILES st !! t = Some tile ->
      tile_skip tile <> Some EmptyString
      /\ tile_anomaly tile <> Some EmptyString
      /\ tile_worm tile <> Some EmptyString;
  tab_totals : forall t tile,
      Load.TILES st !! t = Some tile ->
      tile_planets tile <> []
      /\ tile_resource tile = sum_resource (tile_planets tile)
      /\ tile_influence tile = sum_influence (tile_planets tile)
}.

(** A property of every planet of every tile. *)
Definition every_planet (st : Load.tables) (P : Planet -> Prop) : Prop :=
  forall t tile p, Load.TILES st !! t = Some tile -> p ∈ tile_planets tile -> P p.

(** The planet that a row contributes: its values are the numbers read,
    one of them replaced by 0 in effective mode. *)
Definition row_planet (effective : bool) (resource influence : Z) : Planet :=
  let values :=
    if effective then
      if decide (resource >= influence) then (resource, 0) else (0, influence)
    else (resource, influence) in
  {| planet_resource := values.1; planet_influence := values.2 |}.

(** ** [Board.get_url] *)

Definition BASE_URL : string :=
  "https://keeganw.github.io/ti4/?settings=T40004892FFF&tiles=".

(** The [while True] loop of [get_url]: [tiles.pop()] until a tile that
    is not negative comes off, which is put back.  Each pass shortens the
    list, so [fuel] passes are enough for a list of fewer than [fuel]
    tiles. *)
Fixpoint pop_negative (fuel : nat) (tiles : list Z) : outcome (list Z) :=
  match fuel with
  | O => Starved
  | S fuel' =>
      match last tiles with
      | None => Raise IndexError
      | Some t =>
          let tiles := removelast tiles in
          if decide (t >= 0) then Ret (tiles ++ [t])
          else pop_negative fuel' tiles
      end
  end.

(** [get_url()], with the builtin [str] as a parameter. *)
Definition get_url (str : Z -> string) (self : Board.t) : outcome string :=
  tiles ← pop_negative (S (length (Board.tiles self))) (Board.tiles self);
  Ret (BASE_URL ++ String.concat "," (map str tiles))%string.

(** ** Binary floating point

    The scores are Python floats: IEEE 754 binary64 numbers, 53 bits of
    precision, every operation rounded to the nearest representable number
    with ties to the even one.  [Float64] models them: a finite float is
    the rational number it denotes, in lowest terms (the two zeros are
    one, which no operation of the program tells apart), and an operation
    is the exact operation followed by [round].  [HomeStats64] and
    [Home64] are [score] and [difference] in this arithmetic, operation by
    operation in the order of the source; [HomeStats.score],
    [HomeStats.difference] and [Home.difference] above are the numbers
    they denote as long as no operation rounds. *)

From Stdlib Require Import Qround Qpower.

Module Float64.

Inductive t : Type :=
| Fin (q : Q)
| Inf (negative : bool)
| NaN.

(** [floor (log2 a)] for a positive rational: the quotient of two numbers
    of [n] and [d] bits lies between [2^(n-d-1)] and [2^(n-d+1)]. *)
Definition log2_floor (a : Q) : Z :=
  let l := Z.log2 (Qnum a) - Z.log2 (Zpos (Qden a)) in
  if Qle_bool (2 ^ l) a then l else l - 1.

(** The nearest integer of a non-negative rational, the even one of two. *)
Definition nearest_even (m : Q) : Z :=
  let f := Qfloor m in
  match (m - inject_Z f ?= 1 # 2)%Q with
  | Lt => f
  | Gt => f + 1
  | Eq => if Z.even f then f else f + 1
  end.

(** Rounding to binary64: the unit in the last place of a number between
    [2^e] and [2^(e+1)] is [2^(e-52)], and not less than [2^-1074]; a
    result of [2^1024] or more is an infinity. *)
Definition round (x : Q) : t :=
  if Qeq_bool x 0 then Fin 0
  else
    let a := Qabs x in
    let p := Z.max (log2_floor a - 52) (-1074) in
    let r := (inject_Z (nearest_even (a / 2 ^ p)) * 2 ^ p)%Q in
    let negative := if Qlt_le_dec x 0 then true else false in
    if Qle_bool (2 ^ 1024) r then Inf negative
    else Fin (Qred (if negative then - r else r))%Q.

Definition opp (x : t) : t :=
  match x with
  | Fin q => Fin (- q)
  | Inf s => Inf (negb s)
  | NaN => NaN
  end.

Definition abs (x : t) : t :=
  match x with
  | Fin q => Fin (Qabs q)
  | Inf _ => Inf false
  | NaN => NaN
  end.

Definition add (x y : t) : t :=
  match x, y with
  | Fin a, Fin b => round (a + b)
  | Inf s, Inf s' => if Bool.eqb s s' then Inf s else NaN
  | Inf s, Fin _ => Inf s
  | Fin _, Inf s => Inf s
  | _, _ => NaN
  end.

Definition sub (x y : t) : t := add x (opp y).

Definition mul (x y : t) : t :=
  match x, y with
  | Fin a, Fin b => round (a * b)
  | Inf s, Inf s' => Inf (xorb s s')
  | Inf s, Fin b =>
      if Qeq_bool b 0 then NaN
      else Inf (xorb s (if Qlt_le_dec b 0 then true else false))
  | Fin a, Inf s =>
      if Qeq_bool a 0 then NaN
      else Inf (xorb s (if Qlt_le_dec a 0 then true else false))
  | _, _ => NaN
  end.

(** Arithmetic can raise one exception, [OverflowError]. *)
Inductive result (A : Type) : Type :=
| Value (a : A)
| OverflowError.
Arguments Value {A} a.
Arguments OverflowError {A}.

Definition bind {A B} (m : result A) (k : A -> result B) : result B :=
  match m with
  | Value a => k a
  | OverflowError => OverflowError
  end.

(** The conversion of an [int] to a [float], explicit or implied by an
    operation: [OverflowError: int too large to convert to float]. *)
Definition of_int (z : Z) : result t :=
  match round (inject_Z z) with
  | Inf _ => OverflowError
  | x => Value x
  end.

(** A Python number: an [int], or a [float]. *)
Inductive num : Type :=
| Int (z : Z)
| Float (x : t).

Definition to_float (a : num) : result t :=
  match a with
  | Int z => of_int z
  | Float x => Value x
  end.

(** [a + b], [a - b], [a * b] and [abs(a)]: on two [int]s the operation
    of the integers, otherwise that of the floats after conversion. *)
Definition num_add (a b : num) : result num :=
  match a, b with
  | Int x, Int y => Value (Int (x + y))
  | _, _ => bind (to_float a) (fun x =>
            bind (to_float b) (fun y => Value (Float (add x y))))
  end.

Definition num_sub (a b : num) : result num :=
  match a, b with
  | Int x, Int y => Value (Int (x - y))
  | _, _ => bind (to_float a) (fun x =>
            bind (to_float b) (fun y => Value (Float (sub x y))))
  end.

Definition num_mul (a b : num) : result num :=
  match a, b with
  | Int x, Int y => Value (Int (x * y))
  | _, _ => bind (to_float a) (fun x =>
            bind (to_float b) (fun y => Value (Float (mul x y))))
  end.

Definition num_abs (a : num) : num :=
  match a with
  | Int z => Int (Z.abs z)
  | Float x => Float (abs x)
  end.

(** A [for] loop that threads a state and may raise. *)
Fixpoint fold {A S} (f : S -> A -> result S) (s : S) (l : list A) : result S :=
  match l with
  | [] => Value s
  | x :: l' => bind (f s x) (fun s' => fold f s' l')
  end.

End Float64.

Declare Scope f64_scope.
Notation "x ← y ; z" := (Float64.bind y (fun x => z))
  (at level 20, y at level 100, z at level 200, only parsing) : f64_scope.

(** The constants of [WEIGHTS] as Python has them: floats, but for
    [SCORE_ADJ_WORM] and the two bounds, which are [int]s. *)
Module WEIGHTS64.
Import Float64.
Definition DIFF_SCORE : num := Float (Fin 1).
Definition DIFF_RES : num := Float (Fin (1 # 2)).
Definition DIFF_INF : num := Float (Fin (1 # 2)).
Definition DIFF_WORM : num := Float (Fin 5).
Definition DIFF_ANOM : num := Float (Fin 5).
Definition DIFF_SKIP : num := Float (Fin 5).
Definition DIFF_HOP1 : num := Float (Fin 1).
Definition DIFF_HOP2C : num := Float (Fin (1 # 8)).
Definition DIFF_HOP2U : num := Float (Fin (1 # 4)).
Definition SCORE_EFF_RESOURCE : num := Float (Fin (3 # 4)).
Definition SCORE_RESOURCE : num := Float (Fin (1 # 4)).
Definition SCORE_EFF_INFLUENCE : num := Float (Fin (3 # 4)).
Definition SCORE_INFLUENCE : num := Float (Fin (1 # 4)).
Definition SCORE_SKIPS : num := Float (Fin (1 # 2)).
Definition SCORE_ADJ_WORM : num := Int (-2).
Definition SCORE_HOP2_WORM : num := Float (Fin (1 # 4)).
Definition SCORE_HOP1 : num := Float (Fin 1).
Definition SCORE_HOP2C : num := Float (Fin (1 # 8)).
Definition SCORE_HOP2U : num := Float (Fin (1 # 4)).
End WEIGHTS64.

Module HomeStats64.
Import Float64.
Local Open Scope f64_scope.

(** [score()]: [sum] adds the products to 0 from left to right. *)
Definition score (self : HomeStats.t) : result num :=
  let w := [WEIGHTS64.SCORE_EFF_RESOURCE; WEIGHTS64.SCORE_RESOURCE;
            WEIGHTS64.SCORE_EFF_INFLUENCE; WEIGHTS64.SCORE_INFLUENCE;
            WEIGHTS64.SCORE_SKIPS;
            if decide (HomeStats.hop self = 1) then WEIGHTS64.SCORE_ADJ_WORM
            else WEIGHTS64.SCORE_HOP2_WORM] in
  let v := [Int (HomeStats.eff_resource self + HomeStats.eff_both self);
            Int (HomeStats.resource self);
            Int (HomeStats.eff_influence self);
            Int (HomeStats.resource self);
            Int (Z.of_nat (length (HomeStats.skips self)));
            Int (HomeStats.worms self)] in
  _score ← fold (fun acc elem => p ← num_mul elem.1 elem.2; num_add acc p)
                (Int 0) (zip w v);
  if decide (HomeStats.hop self = 1) then
    _score ← (if decide (HomeStats.planet_systems self
                         > WEIGHTS.SCORE_MAX_HOP1_PLANET_SYS)
              then num_add _score (Int (-100)) else Value _score);
    _score ← (if decide (HomeStats.planet_systems self
                         < WEIGHTS.SCORE_MIN_HOP1_PLANET_SYS)
              then num_add _score (Int (-100)) else Value _score);
    Value _score
  else Value _score.

(** [difference(other)]. *)
Definition difference (self other : HomeStats.t) : result num :=
  let diff := Int 0 in
  s ← score self;
  s' ← score other;
  d ← num_sub s s';
  x ← num_mul WEIGHTS64.DIFF_SCORE (num_abs d);
  diff ← num_add diff x;
  d ← num_sub (Int (HomeStats.resource self)) (Int (HomeStats.resource other));
  x ← num_mul WEIGHTS64.DIFF_RES (num_abs d);
  diff ← num_add diff x;
  d ← num_sub (Int (HomeStats.influence self)) (Int (HomeStats.influence other));
  x ← num_mul WEIGHTS64.DIFF_INF (num_abs d);
  diff ← num_add diff x;
  d ← num_sub (Int (HomeStats.worms self)) (Int (HomeStats.worms other));
  x ← num_mul WEIGHTS64.DIFF_WORM (num_abs d);
  diff ← num_add diff x;
  d ← num_sub (Int (HomeStats.anomalies self)) (Int (HomeStats.anomalies other));
  x ← num_mul WEIGHTS64.DIFF_ANOM (num_abs d);
  diff ← num_add diff x;
  d ← num_sub (Int (Z.of_nat (length (HomeStats.skips self))))
              (Int (Z.of_nat (length (HomeStats.skips other))));
  x ← num_mul WEIGHTS64.DIFF_SKIP (num_abs d);
  diff ← num_add diff x;
  Value diff.

End HomeStats64.

Module Home64.
Import Float64.
Local Open Scope f64_scope.

Definition score (self : Home.t) : result num :=
  s ← HomeStats64.score (Home.stats1 self);
  a ← num_mul WEIGHTS64.SCORE_HOP1 s;
  s ← HomeStats64.score (Home.stats2u self);
  b ← num_mul WEIGHTS64.SCORE_HOP2U s;
  ab ← num_add a b;
  s ← HomeStats64.score (Home.stats2c self);
  c ← num_mul WEIGHTS64.SCORE_HOP2C s;
  num_add ab c.

Definition difference (self other_home : Home.t) : result num :=
  d ← HomeStats64.difference (Home.stats1 self) (Home.stats1 other_home);
  a ← num_mul WEIGHTS64.DIFF_HOP1 d;
  d ← HomeStats64.difference (Home.stats2c self) (Home.stats2c other_home);
  b ← num_mul WEIGHTS64.DIFF_HOP2C d;
  ab ← num_add a b;
  d ← HomeStats64.difference (Home.stats2u self) (Home.stats2c other_home);
  c ← num_mul WEIGHTS64.DIFF_HOP2U d;
  num_add ab c.

End Home64.

(** ** Exact values

    An operation on floats is exact when its result is representable:
    [rep a j k] says that the number [a], an [int] or a finite [float], is
    [k / 2^j].  The statistics of a board are sums over at most 61
    positions; [small s] bounds the counters of [s] by [2^40], which is
    far above any such sum and low enough for every operation of [score]
    and [difference] to be exact. *)

Module Exact.
Import Float64.

Definition is_float (a : num) : bool :=
  match a with
  | Int _ => false
  | Float _ => true
  end.

Definition rep (a : num) (j k : Z) : Prop :=
  match a with
  | Int z => (inject_Z z == inject_Z k * 2 ^ (- j))%Q
  | Float (Fin y) => (y == inject_Z k * 2 ^ (- j))%Q
  | Float _ => False
  end.

(** A finite float is kept in lowest terms. *)
Definition canonical (a : num) : Prop :=
  match a with
  | Float (Fin y) => Qred y = y
  | _ => True
  end.

Definition LIMIT : Z := 2 ^ 40.

Definition small (s : HomeStats.t) : Prop :=
  Z.abs (HomeStats.resource s) <= LIMIT
  /\ Z.abs (HomeStats.influence s) <= LIMIT
  /\ Z.abs (HomeStats.eff_resource s) <= LIMIT
  /\ Z.abs (HomeStats.eff_influence s) <= LIMIT
  /\ Z.abs (HomeStats.eff_both s) <= LIMIT
  /\ Z.of_nat (length (HomeStats.skips s)) <= LIMIT
  /\ Z.abs (HomeStats.worms s) <= LIMIT
  /\ Z.abs (HomeStats.anomalies s) <= LIMIT.

End Exact.

(** ** The order of the required tiles

    [FLAGS.require] is a Python [set].  [list(FLAGS.require)] and the loop
    [for r in FLAGS.require] of [generate_random_board] visit its members in
    the order of the set's hash table, the same order both times since the
    set is not changed in between, but one that the members alone do not
    determine.  [Board.generate_random_board] takes them in the order of
    [elements]; [Ordered.generate_random_board] is the same function with
    that order as a parameter, [required] being any list of the members of
    the set without repetition. *)

Module Ordered.

Definition generate_random_board (G : Globals) (required : list Z) (n : Z)
  : Rand (list Z) :=
  home_keegan ←$ lift (Board.home_keegan n);
  let num_tiles : Z := if decide (n <= 6) then 37 else 61 in
  let all_tiles :=
    filter (fun i => i <> MECATOL_INDEX) (NONHOME_TILES G) in
  let tile_list := MECATOL_INDEX :: required in
  all_tiles ←$ lift (Board.remove_required all_tiles required);
  picked ←$ sample all_tiles (num_tiles - Z.of_nat (length tile_list) - n);
  let tile_list := tile_list ++ picked in
  rret (foldl (fun tile_list k => Py.insert k 0 tile_list)
              tile_list home_keegan).

(** [required] lists the members of [FLAGS.require], each once. *)
Definition lists_required (G : Globals) (required : list Z) : Prop :=
  required ≡ₚ elements (require (FLAGS G)).

End Ordered.

(** ** Concrete catalogues, boards and statistics

    [planets.csv] is read by [load_tiles]; the catalogues below are what
    [load_tiles] builds from small data files: every non-home tile has
    [tile_home = None], and tags are absent or non-empty. *)

Module Examples.

Definition blank : Tile :=
  {| tile_resource := 0; tile_influence := 0; tile_skip := None;
     tile_anomaly := None; tile_worm := None;
     tile_planets := [{| planet_resource := 0; planet_influence := 0 |}];
     tile_home := None |}.

(** A system with one planet and possibly a technology skip. *)
Definition system (r i : Z) (skip : option string) : Tile :=
  {| tile_resource := r; tile_influence := i; tile_skip := skip;
     tile_anomaly := None; tile_worm := None;
     tile_planets := [{| planet_resource := r; planet_influence := i |}];
     tile_home := None |}.

Definition wormhole (w : string) : Tile :=
  {| tile_resource := 0; tile_influence := 0; tile_skip := None;
     tile_anomaly := None; tile_worm := Some w;
     tile_planets := [{| planet_resource := 0; planet_influence := 0 |}];
     tile_home := None |}.

Definition anomaly (a : string) : Tile :=
  {| tile_resource := 0; tile_influence := 0; tile_skip := None;
     tile_anomaly := Some a; tile_worm := None;
     tile_planets := [{| planet_resource := 0; planet_influence := 0 |}];
     tile_home := None |}.

Definition no_flags (shuffle : nat) : Flags :=
  {| require := ∅; exclude := ∅; lock := ∅; shuffle := shuffle |}.

(** Two ring statistics that differ in their skips only. *)
Definition blue_ring : HomeStats.t :=
  HomeStats.add_tile (HomeStats.init 2 (Some "U"%string))
                     (system 1 2 (Some "blue"%string)).
Definition red_ring : HomeStats.t :=
  HomeStats.add_tile (HomeStats.init 2 (Some "U"%string))
                     (system 1 2 (Some "red"%string)).

(** A home at the top of the third ring with given ring statistics. *)
Definition home_with (stats1 stats2u stats2c : HomeStats.t) : Home.t :=
  {| Home.index := 0; Home.keegan := 19; Home.coord := (0, -3, 3);
     Home.dist_to := []; Home.hop := [[]; []; []];
     Home.hop2u := []; Home.hop2c := [];
     Home.stats1 := stats1; Home.stats2u := stats2u;
     Home.stats2c := stats2c;
     Home.stats2t := HomeStats.iadd stats2u stats2c |}.

Definition empty_ring (hop : Z) : HomeStats.t := HomeStats.init hop None.

(** A catalogue of 63 systems numbered 18 to 80, the first of which is
    the centre. *)
Definition numbered : list Z := map Z.of_nat (seq 18 63).

Definition wide (flags : Flags) : Globals :=
  {| TILES := list_to_map (map (fun i => (i, system (i mod 4) (i mod 3) None))
                               numbered);
     NONHOME_TILES := numbered;
     FLAGS := flags |}.

(** The same numbers, where only the centre and the systems 19 to 24
    have a planet. *)
Definition sparse (flags : Flags) : Globals :=
  {| TILES := list_to_map
                ((MECATOL_INDEX, system 1 6 None)
                 :: map (fun i => (i, if decide (i < 25)
                                      then system (i mod 4) (i mod 3) None
                                      else blank))
                        (map Z.of_nat (seq 19 62)));
     NONHOME_TILES := numbered;
     FLAGS := flags |}.

(** A two-player board of 37 positions with homes at positions 19 and
    28: every system is blank but the centre and system 19, which lies
    two hops from the second home. *)
Definition lopsided_tiles : list Z :=
  map (fun k : nat => if decide (k = 0%nat) then MECATOL_INDEX
                      else if decide (k = 19%nat \/ k = 28%nat) then 0
                      else if decide (k = 12%nat) then 19
                      else Z.of_nat (k + 30))
      (seq 0 37).

(** A catalogue of nine systems: the centre, four planets, a blank, a
    wormhole, an anomaly and a legendary planet. *)
Definition small (flags : Flags) : Globals :=
  {| TILES := list_to_map
                [(18, system 1 6 None); (19, system 2 1 None);
                 (20, system 1 2 (Some "blue"%string));
                 (21, system 3 1 None); (22, blank);
                 (23, system 0 3 None); (24, wormhole "alpha");
                 (25, anomaly "nebula");
                 (26, system 1 1 (Some "legend"%string))];
     NONHOME_TILES := [18; 19; 20; 21; 22; 23; 24; 25; 26];
     FLAGS := flags |}.

(** The board record of a tile list, before any home is analysed. *)
Definition bare (tiles : list Z) : Board.t :=
  {| Board.tiles := tiles; Board.unused := []; Board.homes := [];
     Board.num_homes := 0; Board.num_tiles := length tiles |}.

(** What [Board(board=tiles)] builds, when it returns. *)
Definition built (G : Globals) (tiles : list Z) : Board.t :=
  match Board.init G tiles 6 [] with
  | (Ret b, _) => b
  | _ => bare tiles
  end.

(** The two-player board 18,0,19,20,0,21,22 over the small catalogue,
    shuffled two positions at a time. *)
Definition duel : Board.t :=
  built (small (no_flags 2)) [18; 0; 19; 20; 0; 21; 22].

(** Raw draws: positions 2, 2 again and 3 for a first step, then 3 and 5,
    then 6 and 2. *)
Definition duel_draws : list Z := [1; 1; 2; 2; 4; 5; 1; 9].

(** [--require 20,25] and [--require 18]. *)
Definition require_two : Flags :=
  {| require := {[20; 25]}; exclude := ∅; lock := ∅; shuffle := 3 |}.
Definition require_center : Flags :=
  {| require := {[MECATOL_INDEX]}; exclude := ∅; lock := ∅; shuffle := 3 |}.

(** [--require 19,20,...,51]: thirty-three systems. *)
Definition require_many : Flags :=
  {| require := list_to_set (map Z.of_nat (seq 19 33));
     exclude := ∅; lock := ∅; shuffle := 3 |}.

(** Forty raw draws. *)
Definition forty_draws : list Z := map (fun i => Z.of_nat (7 * i + 3)) (seq 0 40).

End Examples.

(** ** A small data file *)

Module DataFile.

(** Decimal numerals without sign, as [int] reads them. *)
Fixpoint digits (acc : Z) (s : string) : outcome Z :=
  match s with
  | EmptyString => Ret acc
  | String c s' =>
      let d := (Z.of_nat (Ascii.nat_of_ascii c) - 48)%Z in
      if decide (0 <= d < 10) then digits (10 * acc + d) s'
      else Raise ValueError
  end.

Definition decimal (s : string) : outcome Z :=
  match s with
  | EmptyString => Raise ValueError
  | _ => digits 0 s
  end.

(** Four rows: the centre, a home system, and a system of two planets
    the second of which gives the tile its wormhole. *)
Definition rows : list (list string) :=
  [["18"; "Mecatol Rex"; "1"; "6"];
   ["1"; "Jord"; "4"; "2"; "home"];
   ["25"; "Quann"; "2"; "1"; ""; ""; ""; ""];
   ["25"; "Lodor"; "3"; "3"; ""; "blue"; ""; "beta"]]%string.

End DataFile.

(** ** Statistics beyond the precision of a float *)

Module Large.

Definition ring (hop resource worms : Z) : HomeStats.t :=
  {| HomeStats.hop := hop; HomeStats.sub_category := None;
     HomeStats.resource := resource; HomeStats.influence := 0;
     HomeStats.eff_resource := 0; HomeStats.eff_influence := 0;
     HomeStats.eff_both := 0; HomeStats.skips := [];
     HomeStats.worms := worms; HomeStats.anomalies := 0;
     HomeStats.planet_systems := 0 |}.

(** A 2-hop ring whose resource needs 54 bits, and one whose resource is
    no float at all. *)
Definition vast_ring : HomeStats.t := ring 2 (2 ^ 53 + 1) 0.
Definition huge_ring : HomeStats.t := ring 2 (2 ^ 1024) 0.

(** Two homes that differ by [2^54] in the resource of their 1-hop rings
    and by a wormhole in their contested 2-hop rings. *)
Definition rich_home : Home.t :=
  Examples.home_with (ring 1 (2 ^ 54) 0) (ring 2 0 0) (ring 2 0 1).
Definition poor_home : Home.t :=
  Examples.home_with (ring 1 0 0) (ring 2 0 0) (ring 2 0 0).

End Large.

(** ** A required set in the order of the interpreter

    [--require 40,42]: CPython iterates over this set as 40, 42. *)

Module Listed.

Definition require_pair : Flags :=
  {| require := {[40; 42]}; exclude := ∅; lock := ∅; shuffle := 3 |}.

Definition pair_order : list Z := [40; 42].

End Listed.

(** * Properties *)

(** ** Binary floating point

    Rounding leaves a number [k / 2^j] of fewer than 53 bits as it is, so
    that the operations on such numbers are exact; on statistics within
    [Exact.small] every operation of [score] and [difference] is of that
    kind, and the floats computed are the rational numbers of
    [HomeStats.score], [HomeStats.difference] and [Home.difference]. *)

Section Exactness.

Import Float64 Exact.
Local Open Scope Q_scope.

Lemma two_neq_0 : ~ 2 == 0.
Proof. discriminate. Qed.

Lemma Qpower2_pos (z : Z) : 0 < 2 ^ z.
Proof. by apply Qpower_0_lt. Qed.

Lemma Qpower2_inject (z : Z) : (0 <= z)%Z -> 2 ^ z == inject_Z (2 ^ z).
Proof. intros Hz. symmetry. exact (Zpower_Qpower 2 z Hz). Qed.

Lemma Qpower2_plus (n m : Z) : 2 ^ (n + m) == 2 ^ n * 2 ^ m.
Proof. apply Qpower_plus, two_neq_0. Qed.

(** [log2_floor a] is the exponent of [a]: [2^e <= a < 2^(e+1)]. *)
Lemma log2_floor_le (a : Q) : 0 < a -> 2 ^ log2_floor a <= a.
Proof.
  intros Ha. unfold log2_floor.
  set (l := (Z.log2 (Qnum a) - Z.log2 (Z.pos (Qden a)))%Z).
  destruct (Qle_bool (2 ^ l) a) eqn:Hle.
  - by apply Qle_bool_iff.
  - destruct a as [n d]. cbn [Qnum Qden] in l.
    assert (Hn : (0 < n)%Z) by (unfold Qlt in Ha; cbn in Ha; lia).
    pose proof (Z.log2_spec n Hn) as [Hn1 _].
    pose proof (Z.log2_spec (Z.pos d) eq_refl) as [_ Hd2].
    pose proof (Z.log2_nonneg n) as Hln.
    pose proof (Z.log2_nonneg (Z.pos d)) as Hld.
    replace (l - 1)%Z with (Z.log2 n + - Z.succ (Z.log2 (Z.pos d)))%Z by lia.
    rewrite Qpower2_plus, Qpower_opp.
    rewrite (Qpower2_inject (Z.log2 n)), (Qpower2_inject (Z.succ _)) by lia.
    set (x := (2 ^ Z.log2 n)%Z) in *. set (y := (2 ^ Z.succ (Z.log2 (Z.pos d)))%Z) in *.
    assert (Hy : (0 < y)%Z) by lia.
    destruct y as [|y|y]; try lia.
    unfold Qle, Qmult, Qinv, inject_Z. cbn. nia.
Qed.

Lemma log2_floor_lt (a : Q) : 0 < a -> a < 2 ^ (log2_floor a + 1).
Proof.
  intros Ha. unfold log2_floor.
  set (l := (Z.log2 (Qnum a) - Z.log2 (Z.pos (Qden a)))%Z).
  destruct (Qle_bool (2 ^ l) a) eqn:Hle.
  - destruct a as [n d]. cbn [Qnum Qden] in l.
    assert (Hn : (0 < n)%Z) by (unfold Qlt in Ha; cbn in Ha; lia).
    pose proof (Z.log2_spec n Hn) as [_ Hn2].
    pose proof (Z.log2_spec (Z.pos d) eq_refl) as [Hd1 _].
    pose proof (Z.log2_nonneg n) as Hln.
    pose proof (Z.log2_nonneg (Z.pos d)) as Hld.
    replace (l + 1)%Z with (Z.succ (Z.log2 n) + - Z.log2 (Z.pos d))%Z by lia.
    rewrite Qpower2_plus, Qpower_opp.
    rewrite (Qpower2_inject (Z.log2 (Z.pos d))), (Qpower2_inject (Z.succ _)) by lia.
    set (x := (2 ^ Z.succ (Z.log2 n))%Z) in *. set (y := (2 ^ (Z.log2 (Z.pos d)))%Z) in *.
    assert (Hy : (0 < y)%Z) by lia.
    destruct y as [|y|y]; try lia.
    unfold Qlt, Qmult, Qinv, inject_Z. cbn. nia.
  - replace (l - 1 + 1)%Z with l by lia.
    apply Qnot_le_lt. intros H. apply Qle_bool_iff in H. congruence.
Qed.

(** An integer is its own nearest integer. *)
Lemma nearest_even_integer (m : Q) (n : Z) : m == inject_Z n -> nearest_even m = n.
Proof.
  intros Hm. unfold nearest_even.
  assert (Hf : Qfloor m = n) by (by rewrite Hm, Qfloor_Z).
  rewrite Hf.
  assert (Hc : (m - inject_Z n ?= 1 # 2) = Lt).
  { apply (proj1 (Qlt_alt _ _)). rewrite Hm.
    assert (H0 : inject_Z n - inject_Z n == 0) by ring.
    rewrite H0. reflexivity. }
  by rewrite Hc.
Qed.

Lemma Qabs_inject_Z (k : Z) : Qabs (inject_Z k) == inject_Z (Z.abs k).
Proof. reflexivity. Qed.

Lemma Qabs_grid (x : Q) (k j : Z) :
  x == inject_Z k * 2 ^ (- j) -> Qabs x == inject_Z (Z.abs k) * 2 ^ (- j).
Proof.
  intros Hx. rewrite Hx, Qabs_Qmult, Qabs_inject_Z.
  rewrite (Qabs_pos (2 ^ (- j))); [reflexivity|].
  apply Qlt_le_weak, Qpower2_pos.
Qed.

(** A number [k / 2^j] with [|k| < 2^53] and [j <= 1074] is a float:
    rounding returns it. *)
Lemma round_exact (x : Q) (k j : Z) :
  x == inject_Z k * 2 ^ (- j) -> (Z.abs k < 2 ^ 53)%Z -> (0 <= j <= 1074)%Z ->
  exists y, round x = Fin y /\ y == x.
Proof.
  intros Hx Hk Hj. unfold round.
  destruct (Qeq_bool x 0) eqn:H0.
  { exists 0. split; [done|]. symmetry. by apply Qeq_bool_iff. }
  apply Qeq_bool_neq in H0.
  pose proof (Qabs_grid x k j Hx) as Ha.
  set (a := Qabs x) in *.
  assert (Hk0 : (0 < Z.abs k)%Z).
  { destruct (decide (k = 0%Z)) as [->|]; [|lia].
    exfalso. apply H0. rewrite Hx. ring. }
  assert (Hpos : 0 < a).
  { rewrite Ha. apply Qmult_lt_0_compat; [|apply Qpower2_pos].
    change 0 with (inject_Z 0). rewrite <- Zlt_Qlt. lia. }
  pose proof (log2_floor_le a Hpos) as He.
  set (e := log2_floor a) in *.
  assert (Hlt : a < 2 ^ (53 - j)).
  { rewrite Ha. replace (53 - j)%Z with (53 + - j)%Z by lia.
    rewrite Qpower2_plus. apply Qmult_lt_compat_r; [apply Qpower2_pos|].
    rewrite (Qpower2_inject 53) by lia. rewrite <- Zlt_Qlt. lia. }
  assert (He' : (e < 53 - j)%Z).
  { apply (Qpower_lt_compat_l_inv 2); [|reflexivity].
    eapply Qle_lt_trans; eauto. }
  set (p := Z.max (e - 52) (-1074)).
  set (d := (- j - p)%Z).
  assert (Hd : (0 <= d)%Z) by lia.
  assert (Hm : a / 2 ^ p == inject_Z (Z.abs k * 2 ^ d)).
  { rewrite inject_Z_mult, <- (Qpower2_inject d) by lia.
    unfold Qdiv. rewrite <- Qpower_opp, Ha, <- Qmult_assoc, <- Qpower2_plus.
    replace (- j + - p)%Z with d by lia. reflexivity. }
  rewrite (nearest_even_integer _ _ Hm).
  assert (Hr : inject_Z (Z.abs k * 2 ^ d) * 2 ^ p == a).
  { rewrite <- Hm. field. apply Qpower_not_0, two_neq_0. }
  set (r := inject_Z (Z.abs k * 2 ^ d) * 2 ^ p) in *.
  assert (Hfin : Qle_bool (2 ^ 1024) r = false).
  { destruct (Qle_bool (2 ^ 1024) r) eqn:E; [|done].
    apply Qle_bool_iff in E. rewrite Hr in E.
    assert (a < 2 ^ 1024); [|lra].
    eapply Qlt_le_trans; [exact Hlt|].
    apply Qpower_le_compat_l; [lia|discriminate]. }
  rewrite Hfin.
  destruct (Qlt_le_dec x 0) as [Hneg|Hnn]; eexists; split; try reflexivity.
  - rewrite Qred_correct, Hr. unfold a. rewrite Qabs_neg by lra. ring.
  - rewrite Qred_correct, Hr. unfold a. by rewrite Qabs_pos.
Qed.

(** The result of rounding is in lowest terms. *)
Lemma round_canonical (x y : Q) : round x = Fin y -> Qred y = y.
Proof.
  unfold round. destruct (Qeq_bool x 0); [by intros [= <-]|].
  cbv zeta. destruct (Qle_bool _ _); [done|]. intros [= <-].
  apply Qred_complete, Qred_correct.
Qed.

Lemma rep_int (z : Z) : rep (Int z) 0 z.
Proof. cbn. change (2 ^ (- 0)) with 1. ring. Qed.

(** The conversion of such a number to a float, and the operations on
    two such numbers whose result is one too, are exact. *)
Lemma to_float_rep (a : num) (j k : Z) :
  rep a j k -> (Z.abs k < 2 ^ 53)%Z -> (0 <= j <= 1074)%Z ->
  exists y, to_float a = Value (Fin y) /\ y == inject_Z k * 2 ^ (- j).
Proof.
  intros Ha Hk Hj. destruct a as [z|[y| |]]; cbn [rep num_abs abs to_float] in *; try done.
  - destruct (round_exact (inject_Z z) k j Ha Hk Hj) as (y & Hy & E).
    exists y. unfold of_int. rewrite Hy. split; [done|]. by rewrite E.
  - by exists y.
Qed.

Lemma num_add_rep (a b : num) (j k k' : Z) :
  rep a j k -> rep b j k' ->
  (Z.abs k < 2 ^ 53)%Z -> (Z.abs k' < 2 ^ 53)%Z -> (Z.abs (k + k') < 2 ^ 53)%Z ->
  (0 <= j <= 1074)%Z ->
  exists c, num_add a b = Value c /\ rep c j (k + k')
            /\ is_float c = is_float a || is_float b
            /\ canonical c.
Proof.
  intros Ha Hb Hk Hk' Hs Hj.
  assert (E : forall x y, x == inject_Z k * 2 ^ (- j) -> y == inject_Z k' * 2 ^ (- j) ->
                          x + y == inject_Z (k + k') * 2 ^ (- j)).
  { intros x y -> ->. rewrite inject_Z_plus. ring. }
  destruct (to_float_rep a j k Ha Hk Hj) as (x & Hx & Ex).
  destruct (to_float_rep b j k' Hb Hk' Hj) as (y & Hy & Ey).
  destruct (round_exact (x + y) (k + k') j (E _ _ Ex Ey) Hs Hj) as (r & Hr & Er).
  assert (G : bind (to_float a) (fun x => bind (to_float b) (fun y => Value (Float (add x y))))
              = Value (Float (Fin r))).
  { rewrite Hx, Hy. cbn. by rewrite Hr. }
  assert (R : rep (Float (Fin r)) j (k + k')).
  { cbn. rewrite Er. by apply E. }
  destruct a as [z|fa], b as [z'|fb]; cbn [num_add is_float orb].
  - eexists. split_and!; [done| |done|done]. cbn [rep] in *.
    rewrite inject_Z_plus. by apply E.
  - exists (Float (Fin r)). rewrite G. split_and!; try done.
    by apply round_canonical in Hr.
  - exists (Float (Fin r)). rewrite G. split_and!; try done.
    by apply round_canonical in Hr.
  - exists (Float (Fin r)). rewrite G. split_and!; try done.
    by apply round_canonical in Hr.
Qed.

Lemma num_sub_rep (a b : num) (j k k' : Z) :
  rep a j k -> rep b j k' ->
  (Z.abs k < 2 ^ 53)%Z -> (Z.abs k' < 2 ^ 53)%Z -> (Z.abs (k - k') < 2 ^ 53)%Z ->
  (0 <= j <= 1074)%Z ->
  exists c, num_sub a b = Value c /\ rep c j (k - k')
            /\ is_float c = is_float a || is_float b
            /\ canonical c.
Proof.
  intros Ha Hb Hk Hk' Hs Hj.
  assert (E : forall x y, x == inject_Z k * 2 ^ (- j) -> y == inject_Z k' * 2 ^ (- j) ->
                          x + - y == inject_Z (k - k') * 2 ^ (- j)).
  { intros x y -> ->. unfold Z.sub. rewrite inject_Z_plus, inject_Z_opp. ring. }
  destruct (to_float_rep a j k Ha Hk Hj) as (x & Hx & Ex).
  destruct (to_float_rep b j k' Hb Hk' Hj) as (y & Hy & Ey).
  destruct (round_exact (x + - y) (k - k') j (E _ _ Ex Ey) Hs Hj) as (r & Hr & Er).
  assert (G : bind (to_float a) (fun x => bind (to_float b) (fun y => Value (Float (sub x y))))
              = Value (Float (Fin r))).
  { rewrite Hx, Hy. cbn. by rewrite Hr. }
  assert (R : rep (Float (Fin r)) j (k - k')).
  { cbn. rewrite Er. by apply E. }
  destruct a as [z|fa], b as [z'|fb]; cbn [num_sub is_float orb].
  - eexists. split_and!; [done| |done|done]. cbn [rep] in *.
    unfold Z.sub at 1. rewrite inject_Z_plus, inject_Z_opp. by apply E.
  - exists (Float (Fin r)). rewrite G. split_and!; try done.
    by apply round_canonical in Hr.
  - exists (Float (Fin r)). rewrite G. split_and!; try done.
    by apply round_canonical in Hr.
  - exists (Float (Fin r)). rewrite G. split_and!; try done.
    by apply round_canonical in Hr.
Qed.

Lemma num_mul_rep (a b : num) (j k j' k' J : Z) :
  rep a j k -> rep b j' k' -> J = (j + j')%Z ->
  (Z.abs k < 2 ^ 53)%Z -> (Z.abs k' < 2 ^ 53)%Z -> (Z.abs (k * k') < 2 ^ 53)%Z ->
  (0 <= j <= 1074)%Z -> (0 <= j' <= 1074)%Z -> (0 <= J <= 1074)%Z ->
  exists c, num_mul a b = Value c /\ rep c J (k * k')
            /\ is_float c = is_float a || is_float b
            /\ canonical c.
Proof.
  intros Ha Hb -> Hk Hk' Hs Hj Hj' HJ.
  assert (E : forall x y, x == inject_Z k * 2 ^ (- j) -> y == inject_Z k' * 2 ^ (- j') ->
                          x * y == inject_Z (k * k') * 2 ^ (- (j + j'))).
  { intros x y -> ->. rewrite inject_Z_mult, Z.opp_add_distr, Qpower2_plus. ring. }
  destruct (to_float_rep a j k Ha Hk Hj) as (x & Hx & Ex).
  destruct (to_float_rep b j' k' Hb Hk' Hj') as (y & Hy & Ey).
  destruct (round_exact (x * y) (k * k') (j + j') (E _ _ Ex Ey) Hs HJ) as (r & Hr & Er).
  assert (G : bind (to_float a) (fun x => bind (to_float b) (fun y => Value (Float (mul x y))))
              = Value (Float (Fin r))).
  { rewrite Hx, Hy. cbn. by rewrite Hr. }
  assert (R : rep (Float (Fin r)) (j + j') (k * k')).
  { cbn. rewrite Er. by apply E. }
  destruct a as [z|fa], b as [z'|fb]; cbn [num_mul is_float orb].
  - eexists. split_and!; [done| |done|done]. cbn [rep] in *.
    rewrite inject_Z_mult. by apply E.
  - exists (Float (Fin r)). rewrite G. split_and!; try done.
    by apply round_canonical in Hr.
  - exists (Float (Fin r)). rewrite G. split_and!; try done.
    by apply round_canonical in Hr.
  - exists (Float (Fin r)). rewrite G. split_and!; try done.
    by apply round_canonical in Hr.
Qed.

Lemma num_abs_rep (a : num) (j k : Z) :
  rep a j k -> rep (num_abs a) j (Z.abs k) /\ is_float (num_abs a) = is_float a.
Proof.
  intros Ha. split; [|by destruct a].
  destruct a as [z|[y| |]]; cbn [rep num_abs abs to_float] in *; try done.
  - rewrite <- Qabs_inject_Z. by apply Qabs_grid.
  - by apply Qabs_grid.
Qed.

(** One step of [sum]: a product is added to the sum so far. *)
Lemma dot_step_rep (acc w v : num) (j K jw kw kv : Z) :
  rep acc j K -> rep w jw kw -> rep v (j - jw) kv ->
  (Z.abs K < 2 ^ 53)%Z -> (Z.abs kw < 2 ^ 53)%Z -> (Z.abs kv < 2 ^ 53)%Z ->
  (Z.abs (kw * kv) < 2 ^ 53)%Z -> (Z.abs (K + kw * kv) < 2 ^ 53)%Z ->
  (0 <= jw <= j)%Z -> (j <= 1074)%Z ->
  exists c, bind (num_mul w v) (fun p => num_add acc p) = Value c
            /\ rep c j (K + kw * kv)
            /\ is_float c = is_float acc || (is_float w || is_float v)
            /\ canonical c.
Proof.
  intros Ha Hw Hv ? ? ? ? ? ? ?.
  destruct (num_mul_rep w v jw kw (j - jw) kv j Hw Hv)
    as (p & -> & Hp & Fp & _); try lia.
  destruct (num_add_rep acc p j K (kw * kv) Ha Hp) as (c & Hc & Hr & Fc & Cc);
    try lia.
  exists c. cbn [bind]. by rewrite Hc, Fc, Fp.
Qed.

Ltac rep_closed := unfold rep; vm_compute; reflexivity.

Lemma rep_float (c : num) (j k : Z) :
  rep c j k -> is_float c = true -> canonical c ->
  c = Float (Fin (Qred (inject_Z k * 2 ^ (- j)))).
Proof.
  destruct c as [z|[y| |]]; cbn; try done. intros E _ C.
  by rewrite <- (Qred_complete _ _ E), C.
Qed.

(** [_score += -100]. *)
Lemma penalty_rep (c : num) (K : Z) :
  rep c 2 K -> (Z.abs K + 400 < 2 ^ 53)%Z -> is_float c = true ->
  exists c', num_add c (Int (-100)) = Value c' /\ rep c' 2 (K + -400)
             /\ is_float c' = true /\ canonical c'.
Proof.
  intros Hc HK Fc.
  destruct (num_add_rep c (Int (-100)) 2 K (-400) Hc ltac:(rep_closed))
    as (c' & Hc' & R & F & C); try lia.
  exists c'. by rewrite F, Fc.
Qed.

Ltac grid_eq :=
  repeat match goal with
         | |- context [2 ^ ?z] =>
             let q := eval vm_compute in (2 ^ z) in change (2 ^ z) with q
         end;
  unfold Qeq, Qplus, Qmult, inject_Z; cbn [Qnum Qden]; lia.

(** [score] on small statistics: a float, a multiple of a quarter. *)
Lemma score64_rep (s : HomeStats.t) :
  small s ->
  exists c K, HomeStats64.score s = Value c /\ is_float c = true
              /\ canonical c
              /\ rep c 2 K /\ (Z.abs K <= 21 * LIMIT + 800)%Z
              /\ inject_Z K * 2 ^ (- 2) == HomeStats.score s.
Proof.
  unfold small, LIMIT.
  intros (Hr & Hi & Her & Hei & Heb & Hsk & Hw & Han).
  unfold HomeStats64.score, HomeStats.score.
  set (er := HomeStats.eff_resource s) in *. set (eb := HomeStats.eff_both s) in *.
  set (r := HomeStats.resource s) in *. set (ei := HomeStats.eff_influence s) in *.
  set (n := Z.of_nat (length (HomeStats.skips s))) in *.
  set (wo := HomeStats.worms s) in *.
  pose proof (Nat2Z.is_nonneg (length (HomeStats.skips s))) as Hn. fold n in Hn.
  cbn [zip zip_with fold fst snd map foldl].
  assert (H0 : rep (Int 0) 2 0) by rep_closed.
  destruct (dot_step_rep (Int 0) WEIGHTS64.SCORE_EFF_RESOURCE (Int (er + eb))
              2 0 2 3 (er + eb) H0 ltac:(rep_closed) (rep_int _))
    as (c1 & -> & R1 & F1 & _); try lia.
  cbn [bind].
  destruct (dot_step_rep c1 WEIGHTS64.SCORE_RESOURCE (Int r)
              2 _ 2 1 r R1 ltac:(rep_closed) (rep_int _))
    as (c2 & -> & R2 & F2 & _); try lia.
  cbn [bind].
  destruct (dot_step_rep c2 WEIGHTS64.SCORE_EFF_INFLUENCE (Int ei)
              2 _ 2 3 ei R2 ltac:(rep_closed) (rep_int _))
    as (c3 & -> & R3 & F3 & _); try lia.
  cbn [bind].
  destruct (dot_step_rep c3 WEIGHTS64.SCORE_INFLUENCE (Int r)
              2 _ 2 1 r R3 ltac:(rep_closed) (rep_int _))
    as (c4 & -> & R4 & F4 & _); try lia.
  cbn [bind].
  destruct (dot_step_rep c4 WEIGHTS64.SCORE_SKIPS (Int n)
              2 _ 2 2 n R4 ltac:(rep_closed) (rep_int _))
    as (c5 & -> & R5 & F5 & _); try lia.
  cbn [bind].
  assert (F5' : is_float c5 = true).
  { rewrite F5, F4, F3, F2, F1. reflexivity. }
  clear F1 F2 F3 F4 F5.
  unfold WEIGHTS.SCORE_EFF_RESOURCE, WEIGHTS.SCORE_RESOURCE,
    WEIGHTS.SCORE_EFF_INFLUENCE, WEIGHTS.SCORE_INFLUENCE,
    WEIGHTS.SCORE_SKIPS, WEIGHTS.SCORE_ADJ_WORM, WEIGHTS.SCORE_HOP2_WORM.
  destruct (decide (HomeStats.hop s = 1%Z)) as [Hhop|Hhop].
  - destruct (dot_step_rep c5 WEIGHTS64.SCORE_ADJ_WORM (Int wo)
                2 _ 2 (-8) wo R5 ltac:(rep_closed) (rep_int _))
      as (c6 & -> & R6 & F6 & C6); try lia.
    cbn [bind]. rewrite F5' in F6. cbn [orb] in F6.
    destruct (decide (HomeStats.planet_systems s > WEIGHTS.SCORE_MAX_HOP1_PLANET_SYS)%Z);
      destruct (decide (HomeStats.planet_systems s < WEIGHTS.SCORE_MIN_HOP1_PLANET_SYS)%Z).
    + unfold WEIGHTS.SCORE_MAX_HOP1_PLANET_SYS, WEIGHTS.SCORE_MIN_HOP1_PLANET_SYS in *. lia.
    + destruct (penalty_rep c6 _ R6) as (c7 & -> & R7 & F7 & C7); [lia|done|].
      cbn [bind]. eexists _, _. split_and!; [done|done|done|exact R7|lia|grid_eq].
    + cbn [bind].
      destruct (penalty_rep c6 _ R6) as (c7 & -> & R7 & F7 & C7); [lia|done|].
      cbn [bind]. eexists _, _. split_and!; [done|done|done|exact R7|lia|grid_eq].
    + cbn [bind]. eexists _, _. split_and!; [done|done|done|exact R6|lia|grid_eq].
  - destruct (dot_step_rep c5 WEIGHTS64.SCORE_HOP2_WORM (Int wo)
                2 _ 2 1 wo R5 ltac:(rep_closed) (rep_int _))
      as (c6 & -> & R6 & F6 & C6); try lia.
    cbn [bind]. rewrite F5' in F6. cbn [orb] in F6.
    eexists _, _. split_and!; [done|done|done|exact R6|lia|grid_eq].
Qed.

(** On small statistics [score] is exact: it returns the float that is
    the rational number [HomeStats.score]. *)
Lemma score64_exact (s : HomeStats.t) :
  small s ->
  HomeStats64.score s = Value (Float (Fin (Qred (HomeStats.score s)))).
Proof.
  intros Hs. destruct (score64_rep s Hs) as (c & K & -> & F & C & R & _ & E).
  rewrite (rep_float c 2 K R F C). do 3 f_equal. by apply Qred_complete.
Qed.

(** One term of [difference]: [diff += w * abs(z)]. *)
Lemma term_rep (acc w : num) (K kw z : Z) :
  rep acc 2 K -> rep w 2 kw -> is_float w = true ->
  (0 <= K)%Z -> (0 <= kw < 2 ^ 53)%Z -> (0 <= z < 2 ^ 53)%Z ->
  (K + kw * z < 2 ^ 53)%Z ->
  exists x c, num_mul w (Int z) = Value x /\ num_add acc x = Value c
              /\ rep c 2 (K + kw * z) /\ is_float c = true /\ canonical c.
Proof.
  intros Ha Hw Fw ? ? ? ?.
  destruct (num_mul_rep w (Int z) 2 kw 0 z 2 Hw (rep_int _))
    as (x & Hx & Rx & Fx & _); try lia; try nia.
  destruct (num_add_rep acc x 2 K _ Ha Rx) as (c & Hc & Rc & Fc & Cc);
    try lia; try nia.
  exists x, c. split_and!; try done.
  rewrite Fc, Fx, Fw. by destruct (is_float acc).
Qed.

(** [difference] on small statistics: a float, a multiple of a quarter. *)
Lemma difference64_rep (x y : HomeStats.t) :
  small x -> small y ->
  exists c D, HomeStats64.difference x y = Value c /\ is_float c = true
              /\ canonical c
              /\ rep c 2 D /\ (0 <= D <= 150 * LIMIT + 1600)%Z
              /\ inject_Z D * 2 ^ (- 2) == HomeStats.difference x y.
Proof.
  intros Hx Hy.
  destruct (score64_rep x Hx) as (s & K & Hs & Fs & _ & Rs & Bs & Es).
  destruct (score64_rep y Hy) as (s' & K' & Hs' & Fs' & _ & Rs' & Bs' & Es').
  unfold HomeStats64.difference, HomeStats.difference.
  rewrite Hs, Hs'. cbn [bind num_sub num_abs].
  set (a0 := Z.abs (K - K')).
  set (a1 := Z.abs (HomeStats.resource x - HomeStats.resource y)).
  set (a2 := Z.abs (HomeStats.influence x - HomeStats.influence y)).
  set (a3 := Z.abs (HomeStats.worms x - HomeStats.worms y)).
  set (a4 := Z.abs (HomeStats.anomalies x - HomeStats.anomalies y)).
  set (a5 := Z.abs (Z.of_nat (length (HomeStats.skips x))
                    - Z.of_nat (length (HomeStats.skips y)))).
  unfold small, LIMIT in *.
  destruct Hx as (Hr & Hi & _ & _ & _ & Hsk & Hw & Han).
  destruct Hy as (Hr' & Hi' & _ & _ & _ & Hsk' & Hw' & Han').
  assert (E0 : Qabs (HomeStats.score x - HomeStats.score y)
               == inject_Z a0 * 2 ^ (- 2)).
  { unfold a0. apply (Qabs_grid _ (K - K') 2). rewrite <- Es, <- Es'.
    unfold Z.sub. rewrite inject_Z_plus, inject_Z_opp.
    change (2 ^ (- (2))) with (1 # 4). change (2 ^ (-2)) with (1 # 4). ring. }
  assert (B0 : (0 <= a0 <= 42 * 2 ^ 40 + 1600)%Z) by (clear - Bs Bs'; lia).
  assert (B1 : (0 <= a1 <= 2 * 2 ^ 40)%Z) by (clear - Hr Hr'; lia).
  assert (B2 : (0 <= a2 <= 2 * 2 ^ 40)%Z) by (clear - Hi Hi'; lia).
  assert (B3 : (0 <= a3 <= 2 * 2 ^ 40)%Z) by (clear - Hw Hw'; lia).
  assert (B4 : (0 <= a4 <= 2 * 2 ^ 40)%Z) by (clear - Han Han'; lia).
  assert (B5 : (0 <= a5 <= 2 ^ 40)%Z) by (clear - Hsk Hsk'; lia).
  destruct (num_sub_rep s s' 2 K K' Rs Rs') as (d & -> & Rd & Fd & _);
    try (clear - Bs Bs'; lia).
  cbn [bind]. apply num_abs_rep in Rd as [Rd Fd']. fold a0 in Rd.
  clear Hr Hr' Hi Hi' Hw Hw' Han Han' Hsk Hsk' Bs Bs'.
  clearbody a0 a1 a2 a3 a4 a5.
  destruct (num_mul_rep WEIGHTS64.DIFF_SCORE (num_abs d) 0 1 2 _ 2
              ltac:(rep_closed) Rd) as (t & -> & Rt & Ft & _); try lia.
  cbn [bind].
  destruct (num_add_rep (Int 0) t 2 0 _ ltac:(rep_closed) Rt)
    as (c0 & -> & R0 & F0 & _); try lia.
  cbn [bind].
  destruct (term_rep c0 WEIGHTS64.DIFF_RES _ 2 a1 R0 ltac:(rep_closed) eq_refl)
    as (t1 & c1 & -> & Hc1 & R1 & F1 & _); try lia.
  cbn [bind]. rewrite Hc1. cbn [bind].
  destruct (term_rep c1 WEIGHTS64.DIFF_INF _ 2 a2 R1 ltac:(rep_closed) eq_refl)
    as (t2 & c2 & -> & Hc2 & R2 & F2 & _); try lia.
  cbn [bind]. rewrite Hc2. cbn [bind].
  destruct (term_rep c2 WEIGHTS64.DIFF_WORM _ 20 a3 R2 ltac:(rep_closed) eq_refl)
    as (t3 & c3 & -> & Hc3 & R3 & F3 & _); try lia.
  cbn [bind]. rewrite Hc3. cbn [bind].
  destruct (term_rep c3 WEIGHTS64.DIFF_ANOM _ 20 a4 R3 ltac:(rep_closed) eq_refl)
    as (t4 & c4 & -> & Hc4 & R4 & F4 & _); try lia.
  cbn [bind]. rewrite Hc4. cbn [bind].
  destruct (term_rep c4 WEIGHTS64.DIFF_SKIP _ 20 a5 R4 ltac:(rep_closed) eq_refl)
    as (t5 & c5 & -> & Hc5 & R5 & F5 & C5); try lia.
  cbn [bind]. rewrite Hc5.
  eexists _, _. split_and!; [done|done|done|exact R5|lia|lia|].
  rewrite E0.
  unfold WEIGHTS.DIFF_SCORE, WEIGHTS.DIFF_RES, WEIGHTS.DIFF_INF,
    WEIGHTS.DIFF_WORM, WEIGHTS.DIFF_ANOM, WEIGHTS.DIFF_SKIP.
  grid_eq.
Qed.

(** On small statistics [difference] is exact. *)
Lemma difference64_exact (x y : HomeStats.t) :
  small x -> small y ->
  HomeStats64.difference x y
  = Value (Float (Fin (Qred (HomeStats.difference x y)))).
Proof.
  intros Hx Hy.
  destruct (difference64_rep x y Hx Hy) as (c & D & -> & F & C & R & _ & E).
  rewrite (rep_float c 2 D R F C). do 3 f_equal. by apply Qred_complete.
Qed.

(** So is the difference of two homes. *)
Lemma home_difference64_exact (a b : Home.t) :
  small (Home.stats1 a) -> small (Home.stats2c a) -> small (Home.stats2u a) ->
  small (Home.stats1 b) -> small (Home.stats2c b) ->
  Home64.difference a b = Value (Float (Fin (Qred (Home.difference a b)))).
Proof.
  intros H1 H2c H2u H1' H2c'.
  destruct (difference64_rep _ _ H1 H1') as (d1 & D1 & E1 & F1 & _ & R1 & B1 & Q1).
  destruct (difference64_rep _ _ H2c H2c') as (d2 & D2 & E2 & F2 & _ & R2 & B2 & Q2).
  destruct (difference64_rep _ _ H2u H2c') as (d3 & D3 & E3 & F3 & _ & R3 & B3 & Q3).
  unfold Home64.difference, Home.difference, LIMIT in *.
  rewrite E1, E2, E3. cbn [bind].
  destruct (num_mul_rep WEIGHTS64.DIFF_HOP1 d1 3 8 2 D1 5 ltac:(rep_closed) R1)
    as (x1 & -> & X1 & G1 & _); try lia.
  destruct (num_mul_rep WEIGHTS64.DIFF_HOP2C d2 3 1 2 D2 5 ltac:(rep_closed) R2)
    as (x2 & -> & X2 & G2 & _); try lia.
  destruct (num_mul_rep WEIGHTS64.DIFF_HOP2U d3 3 2 2 D3 5 ltac:(rep_closed) R3)
    as (x3 & -> & X3 & G3 & _); try lia.
  cbn [bind].
  destruct (num_add_rep x1 x2 5 _ _ X1 X2) as (y1 & -> & Y1 & I1 & _); try lia.
  cbn [bind].
  destruct (num_add_rep y1 x3 5 _ _ Y1 X3) as (y2 & -> & Y2 & I2 & C2); try lia.
  assert (F : is_float y2 = true) by (by rewrite I2, I1, G1).
  rewrite (rep_float y2 5 _ Y2 F C2). do 3 f_equal. apply Qred_complete.
  rewrite <- Q1, <- Q2, <- Q3.
  unfold WEIGHTS.DIFF_HOP1, WEIGHTS.DIFF_HOP2C, WEIGHTS.DIFF_HOP2U.
  grid_eq.
Qed.

End Exactness.
(** ** Scores and differences *)

(** The number that [score] denotes is the dot product of the weights with
    the six values, with the two penalties of a 1-hop ring. *)
Lemma score_dot_product (s : HomeStats.t) :
  (HomeStats.score s ==
     (3 # 4) * inject_Z (HomeStats.eff_resource s + HomeStats.eff_both s)
   + (1 # 4) * inject_Z (HomeStats.resource s)
   + (3 # 4) * inject_Z (HomeStats.eff_influence s)
   + (1 # 4) * inject_Z (HomeStats.resource s)
   + (1 # 2) * inject_Z (Z.of_nat (length (HomeStats.skips s)))
   + worm_weight (HomeStats.hop s) * inject_Z (HomeStats.worms s)
   + band_penalty (HomeStats.hop s) (HomeStats.planet_systems s))%Q.
Proof.
  unfold HomeStats.score, worm_weight, band_penalty.
  unfold WEIGHTS.SCORE_EFF_RESOURCE, WEIGHTS.SCORE_RESOURCE,
    WEIGHTS.SCORE_EFF_INFLUENCE, WEIGHTS.SCORE_INFLUENCE,
    WEIGHTS.SCORE_SKIPS, WEIGHTS.SCORE_ADJ_WORM, WEIGHTS.SCORE_HOP2_WORM,
    WEIGHTS.SCORE_MAX_HOP1_PLANET_SYS, WEIGHTS.SCORE_MIN_HOP1_PLANET_SYS.
  cbn [zip zip_with map foldl fst snd].
  repeat case_decide; try lia; ring.
Qed.

(** C4.  On a ring whose counters are within [Exact.small], [score] returns
    a float, and that float is the dot product of the fixed weights with
    [eff_resource + eff_both], [resource], [eff_influence], [resource]
    again, the number of skips and the number of wormholes, the wormhole
    weight being -2 for a 1-hop ring and 0.25 otherwise, to which a 1-hop
    ring adds -100 when it has more than 4 planet systems and -100 when it
    has fewer than 3. *)
Theorem homestats_score_formula (s : HomeStats.t) :
  Exact.small s ->
  exists q : Q,
    HomeStats64.score s = Float64.Value (Float64.Float (Float64.Fin q))
    /\ (q ==
          (3 # 4) * inject_Z (HomeStats.eff_resource s + HomeStats.eff_both s)
        + (1 # 4) * inject_Z (HomeStats.resource s)
        + (3 # 4) * inject_Z (HomeStats.eff_influence s)
        + (1 # 4) * inject_Z (HomeStats.resource s)
        + (1 # 2) * inject_Z (Z.of_nat (length (HomeStats.skips s)))
        + worm_weight (HomeStats.hop s) * inject_Z (HomeStats.worms s)
        + band_penalty (HomeStats.hop s) (HomeStats.planet_systems s))%Q.
Proof.
  intros Hs. exists (Qred (HomeStats.score s)).
  split; [by apply score64_exact|].
  rewrite Qred_correct. apply score_dot_product.
Qed.

Lemma small_check (s : HomeStats.t) :
  bool_decide (Exact.small s) = true -> Exact.small s.
Proof. apply bool_decide_eq_true_1. Qed.

Lemma homestats_score_formula_witness :
  exists q : Q,
    HomeStats64.score Examples.blue_ring
    = Float64.Value (Float64.Float (Float64.Fin q))
    /\ (q ==
          (3 # 4) * inject_Z (HomeStats.eff_resource Examples.blue_ring
                              + HomeStats.eff_both Examples.blue_ring)
        + (1 # 4) * inject_Z (HomeStats.resource Examples.blue_ring)
        + (3 # 4) * inject_Z (HomeStats.eff_influence Examples.blue_ring)
        + (1 # 4) * inject_Z (HomeStats.resource Examples.blue_ring)
        + (1 # 2) * inject_Z (Z.of_nat (length (HomeStats.skips
                                                  Examples.blue_ring)))
        + worm_weight (HomeStats.hop Examples.blue_ring)
          * inject_Z (HomeStats.worms Examples.blue_ring)
        + band_penalty (HomeStats.hop Examples.blue_ring)
                       (HomeStats.planet_systems Examples.blue_ring))%Q.
Proof.
  apply (homestats_score_formula Examples.blue_ring).
  apply small_check. by vm_compute.
Defined.

(** C4, as stated for every state, fails: the score is a float.  With a
    resource of [2^53 + 1] and nothing else a 2-hop ring has the dot product
    [2^52 + 1/2]; the conversion of the resource to a float rounds it to
    [2^53], and [score] returns [2^52]. *)
Lemma score_of_vast_ring_is_rounded :
  HomeStats64.score Large.vast_ring
  = Float64.Value (Float64.Float (Float64.Fin 4503599627370496))
  /\ ~ (4503599627370496 ==
          (3 # 4) * inject_Z (HomeStats.eff_resource Large.vast_ring
                              + HomeStats.eff_both Large.vast_ring)
        + (1 # 4) * inject_Z (HomeStats.resource Large.vast_ring)
        + (3 # 4) * inject_Z (HomeStats.eff_influence Large.vast_ring)
        + (1 # 4) * inject_Z (HomeStats.resource Large.vast_ring)
        + (1 # 2) * inject_Z (Z.of_nat (length (HomeStats.skips
                                                  Large.vast_ring)))
        + worm_weight (HomeStats.hop Large.vast_ring)
          * inject_Z (HomeStats.worms Large.vast_ring)
        + band_penalty (HomeStats.hop Large.vast_ring)
                       (HomeStats.planet_systems Large.vast_ring))%Q.
Proof.
  split; [by vm_compute|].
  intros H. vm_compute in H. discriminate H.
Qed.

(** A counter of [2^1024] is no float at all: its conversion raises
    [OverflowError], and so does [score]. *)
Lemma score_of_huge_ring_overflows :
  HomeStats64.score Large.huge_ring = Float64.OverflowError.
Proof. by vm_compute. Qed.

(** The other home's uncontested statistics play no part in the
    difference. *)
Lemma home_difference64_ignores_stats2u (a b b' : Home.t) :
  Home.stats1 b' = Home.stats1 b ->
  Home.stats2c b' = Home.stats2c b ->
  Home64.difference a b' = Home64.difference a b.
Proof. intros H1 H2. unfold Home64.difference. by rewrite H1, H2. Qed.

(** C5.  On homes whose ring statistics are within [Exact.small], the
    three differences of statistics and the difference of the homes are
    floats, and the difference of the homes is that of the 1-hop
    statistics weighed by 1, plus that of the contested 2-hop statistics
    weighed by 0.125, plus 0.25 times the difference of the first home's
    uncontested statistics against the second home's contested ones; the
    second home's uncontested statistics play no part. *)
Theorem home_difference_formula (a b : Home.t) :
  Exact.small (Home.stats1 a) -> Exact.small (Home.stats2c a) ->
  Exact.small (Home.stats2u a) ->
  Exact.small (Home.stats1 b) -> Exact.small (Home.stats2c b) ->
  (exists d1 d2c d2u d : Q,
      HomeStats64.difference (Home.stats1 a) (Home.stats1 b)
      = Float64.Value (Float64.Float (Float64.Fin d1))
      /\ HomeStats64.difference (Home.stats2c a) (Home.stats2c b)
         = Float64.Value (Float64.Float (Float64.Fin d2c))
      /\ HomeStats64.difference (Home.stats2u a) (Home.stats2c b)
         = Float64.Value (Float64.Float (Float64.Fin d2u))
      /\ Home64.difference a b
         = Float64.Value (Float64.Float (Float64.Fin d))
      /\ (d == 1 * d1 + (1 # 8) * d2c + (1 # 4) * d2u)%Q)
  /\ (forall b' : Home.t,
        Home.stats1 b' = Home.stats1 b ->
        Home.stats2c b' = Home.stats2c b ->
        Home64.difference a b' = Home64.difference a b).
Proof.
  intros H1 H2c H2u H1' H2c'.
  split; [|intros b'; apply home_difference64_ignores_stats2u].
  eexists _, _, _, _. split_and!.
  - by apply difference64_exact.
  - by apply difference64_exact.
  - by apply difference64_exact.
  - by apply home_difference64_exact.
  - rewrite !Qred_correct. reflexivity.
Qed.

Lemma home_difference_formula_witness :
  (exists d1 d2c d2u d : Q,
      HomeStats64.difference (Examples.empty_ring 1) (Examples.empty_ring 1)
      = Float64.Value (Float64.Float (Float64.Fin d1))
      /\ HomeStats64.difference (Examples.empty_ring 2) Examples.blue_ring
         = Float64.Value (Float64.Float (Float64.Fin d2c))
      /\ HomeStats64.difference Examples.red_ring Examples.blue_ring
         = Float64.Value (Float64.Float (Float64.Fin d2u))
      /\ Home64.difference
           (Examples.home_with (Examples.empty_ring 1) Examples.red_ring
                               (Examples.empty_ring 2))
           (Examples.home_with (Examples.empty_ring 1) (Examples.empty_ring 2)
                               Examples.blue_ring)
         = Float64.Value (Float64.Float (Float64.Fin d))
      /\ (d == 1 * d1 + (1 # 8) * d2c + (1 # 4) * d2u)%Q)
  /\ Home64.difference
       (Examples.home_with (Examples.empty_ring 1) Examples.red_ring
                           (Examples.empty_ring 2))
       (Examples.home_with (Examples.empty_ring 1) Examples.red_ring
                           Examples.blue_ring)
     = Home64.difference
         (Examples.home_with (Examples.empty_ring 1) Examples.red_ring
                             (Examples.empty_ring 2))
         (Examples.home_with (Examples.empty_ring 1) (Examples.empty_ring 2)
                             Examples.blue_ring).
Proof.
  destruct (home_difference_formula
              (Examples.home_with (Examples.empty_ring 1) Examples.red_ring
                                  (Examples.empty_ring 2))
              (Examples.home_with (Examples.empty_ring 1)
                                  (Examples.empty_ring 2)
                                  Examples.blue_ring))
    as [H1 H2]; try (apply small_check; by vm_compute).
  split; [exact H1|]. apply H2; reflexivity.
Defined.

(** C5, as stated for every two homes, fails: the sum is a sum of floats.
    The 1-hop rings of these homes differ by [2^54] and their contested
    rings by 5.25; the floats next to [2^54] are 4 apart, and the
    difference of the homes is [2^54], not [2^54 + 5.25/8]. *)
Lemma home_difference_of_rich_home_is_rounded :
  HomeStats64.difference (Home.stats1 Large.rich_home)
                         (Home.stats1 Large.poor_home)
  = Float64.Value (Float64.Float (Float64.Fin 18014398509481984))
  /\ HomeStats64.difference (Home.stats2c Large.rich_home)
                            (Home.stats2c Large.poor_home)
     = Float64.Value (Float64.Float (Float64.Fin (21 # 4)))
  /\ HomeStats64.difference (Home.stats2u Large.rich_home)
                            (Home.stats2c Large.poor_home)
     = Float64.Value (Float64.Float (Float64.Fin 0))
  /\ Home64.difference Large.rich_home Large.poor_home
     = Float64.Value (Float64.Float (Float64.Fin 18014398509481984))
  /\ ~ (18014398509481984
        == 1 * 18014398509481984 + (1 # 8) * (21 # 4) + (1 # 4) * 0)%Q.
Proof.
  split_and!; by vm_compute.
Qed.

(** ** Combination of statistics *)

(** C9, as stated, fails: the skips of [a += b] are those of [a] followed by
    those of [b], so two rings with different skips combine to different
    states in the two orders. *)
Lemma iadd_not_commutative :
  HomeStats.iadd Examples.blue_ring Examples.red_ring
  <> HomeStats.iadd Examples.red_ring Examples.blue_ring.
Proof. intros H. discriminate (f_equal HomeStats.skips H). Qed.

(** C9, amended.  Combination is associative in every field, the skip
    sequence included; it is commutative in every counter, and the skip
    sequences of the two orders are permutations of one another. *)
Theorem iadd_assoc_comm_up_to_skip_order (a b c : HomeStats.t) :
  HomeStats.iadd (HomeStats.iadd a b) c = HomeStats.iadd a (HomeStats.iadd b c)
  /\ counters (HomeStats.iadd a b) = counters (HomeStats.iadd b a)
  /\ HomeStats.skips (HomeStats.iadd a b) ≡ₚ HomeStats.skips (HomeStats.iadd b a).
Proof.
  split; [|split].
  - unfold HomeStats.iadd; cbn. f_equal; try lia. by rewrite app_assoc.
  - unfold counters, HomeStats.iadd; cbn. repeat (f_equal; try lia).
  - cbn. apply Permutation_app_comm.
Qed.

(** ** Hex geometry *)

Section Rings.

(** What one side of the walk adds to the ring built so far. *)
Lemma ring_side_extends (n : nat) (side : Cube) (st : list Cube * Cube) :
  exists ext,
    (ring_side n st side).1 = st.1 ++ ext
    /\ length ext = n
    /\ ((0 < n)%nat -> head ext = Some st.2).
Proof.
  unfold ring_side. induction n as [|n IH].
  - exists []. cbn. rewrite app_nil_r. repeat split. lia.
  - destruct IH as (ext & E & L & Hd). rewrite Nat.iter_succ.
    exists (ext ++ [(Nat.iter n (ring_step side) st).2]).
    unfold ring_step at 1. cbn [fst snd]. rewrite E, app_assoc.
    split; [done|]. split.
    + rewrite length_app. cbn. lia.
    + intros _. destruct n as [|n].
      * destruct ext; [done | discriminate].
      * destruct ext as [|x ext]; [discriminate|]. apply Hd. lia.
Qed.

Lemma ring_sides_extend (n : nat) (sides : list Cube) (st : list Cube * Cube) :
  exists ext,
    (foldl (ring_side n) st sides).1 = st.1 ++ ext
    /\ length ext = (length sides * n)%nat
    /\ ((0 < n)%nat -> sides <> [] -> head ext = Some st.2).
Proof.
  revert st. induction sides as [|side sides IH]; intros st.
  - exists []. cbn. rewrite app_nil_r. repeat split. done.
  - cbn [foldl].
    destruct (ring_side_extends n side st) as (e1 & E1 & L1 & H1).
    destruct (IH (ring_side n st side)) as (e2 & E2 & L2 & H2).
    exists (e1 ++ e2). rewrite E2, E1, app_assoc. split; [done|]. split.
    + rewrite length_app. cbn. lia.
    + intros Hn _. destruct e1 as [|x e1]; [cbn in L1; lia|].
      cbn. by apply H1.
Qed.

Lemma cube_add_sum_zero (x y : Cube) :
  sum_zero x -> sum_zero y -> sum_zero (cube_add x y).
Proof.
  destruct x as [[x0 x1] x2], y as [[y0 y1] y2].
  unfold sum_zero, cube_add; cbn. lia.
Qed.

Lemma ring_side_sum_zero (n : nat) (side : Cube) (st : list Cube * Cube) :
  sum_zero side -> Forall sum_zero st.1 -> sum_zero st.2 ->
  Forall sum_zero (ring_side n st side).1 /\ sum_zero (ring_side n st side).2.
Proof.
  intros Hs H1 H2. unfold ring_side. induction n as [|n [IH1 IH2]].
  - done.
  - rewrite Nat.iter_succ. unfold ring_step at 1 3. cbn [fst snd]. split.
    + apply Forall_app. split; [done|]. by apply Forall_singleton.
    + by apply cube_add_sum_zero.
Qed.

Lemma ring_sides_sum_zero (n : nat) (sides : list Cube) (st : list Cube * Cube) :
  Forall sum_zero sides -> Forall sum_zero st.1 -> sum_zero st.2 ->
  Forall sum_zero (foldl (ring_side n) st sides).1.
Proof.
  revert st. induction sides as [|side sides IH]; intros st Hs H1 H2.
  - done.
  - cbn [foldl]. apply Forall_cons in Hs as [Hs Hss].
    destruct (ring_side_sum_zero n side st Hs H1 H2). by apply IH.
Qed.

Lemma NEIGHBORS_sum_zero : Forall sum_zero NEIGHBORS.
Proof. unfold NEIGHBORS, sum_zero. repeat constructor. Qed.

Lemma cube_ring_sum_zero (n : Z) : Forall sum_zero (cube_ring n).
Proof.
  unfold cube_ring. case_decide.
  - by apply Forall_singleton.
  - apply ring_sides_sum_zero; [apply NEIGHBORS_sum_zero | done |].
    unfold sum_zero; cbn. lia.
Qed.

Lemma cube_ring_shape (n : Z) :
  0 < n ->
  length (cube_ring n) = Z.to_nat (6 * n)
  /\ head (cube_ring n) = Some (0, - n, n).
Proof.
  intros Hn. unfold cube_ring. case_decide; [lia|].
  destruct (ring_sides_extend (Z.to_nat n) NEIGHBORS ([], (0, - n, n)))
    as (ext & E & L & Hd).
  rewrite E. cbn [fst app]. split.
  - rewrite L. cbn [length NEIGHBORS]. lia.
  - apply Hd; [lia | done].
Qed.

End Rings.

(** A dictionary built by successive assignments from a list without
    repeated keys maps exactly the listed keys to their values. *)
Lemma lookup_foldl_insert (l : list (nat * Cube)) (m : gmap Cube nat) c k :
  NoDup l.*2 ->
  (forall kc, kc ∈ l -> m !! kc.2 = None) ->
  foldl (fun m kc => <[kc.2 := kc.1]> m) m l !! c = Some k
  <-> (k, c) ∈ l \/ m !! c = Some k.
Proof.
  revert m. induction l as [|[k' c'] l IH]; intros m Hnd Hfresh.
  - cbn. split; [by right | intros [H|H]; [by apply elem_of_nil in H | done]].
  - cbn [foldl fst snd]. cbn in Hnd. apply NoDup_cons in Hnd as [Hc' Hnd].
    rewrite IH; [| done |].
    + rewrite elem_of_cons. destruct (decide (c = c')) as [->|Hne].
      * rewrite lookup_insert_eq.
        assert (m !! c' = None) as Hm by (apply (Hfresh (k', c')); left).
        rewrite Hm. split.
        -- intros [H|H]; [|left; left; congruence].
           exfalso. apply Hc'. apply list_elem_of_fmap. by exists (k, c').
        -- intros [[H|H]|H]; [right; congruence| |done].
           exfalso. apply Hc'. apply list_elem_of_fmap. by exists (k, c').
      * rewrite lookup_insert_ne by done. split.
        -- intros [H|H]; [left; by right | by right].
        -- intros [[H|H]|H]; [congruence | by left | by right].
    + intros [k2 c2] Hin. cbn. rewrite lookup_insert_ne.
      * apply (Hfresh (k2, c2)). by right.
      * intros ->. apply Hc'. apply list_elem_of_fmap. by exists (k2, c2).
Qed.

Lemma KEEGAN_TO_COORD_NoDup : NoDup KEEGAN_TO_COORD.
Proof. apply (bool_decide_eq_true_1 (NoDup KEEGAN_TO_COORD)). by vm_compute. Qed.

(** C8.  Every coordinate of the position table has components that sum to
    zero; the table has 61 entries and the dictionary from coordinates to
    positions is its inverse in both directions; the ring of radius [n > 0]
    has [6 n] coordinates and starts at [(0, -n, n)]. *)
Theorem hex_tables_consistent :
  Forall sum_zero KEEGAN_TO_COORD
  /\ length KEEGAN_TO_COORD = 61%nat
  /\ (forall (k : nat) (c : Cube),
        KEEGAN_TO_COORD !! k = Some c <-> COORD_TO_KEEGAN !! c = Some k)
  /\ (forall n : Z,
        0 < n ->
        length (cube_ring n) = Z.to_nat (6 * n)
        /\ head (cube_ring n) = Some (0, - n, n)).
Proof.
  split; [|split; [|split]].
  - unfold KEEGAN_TO_COORD. generalize (seq 0 (MAX_RINGS + 1)).
    intros l. induction l as [|r l IH]; [done|].
    cbn [flat_map]. apply Forall_app. split; [apply cube_ring_sum_zero | done].
  - by vm_compute.
  - intros k c. unfold COORD_TO_KEEGAN.
    rewrite lookup_foldl_insert.
    + rewrite lookup_empty. split.
      * intros H. left. apply list_elem_of_lookup. exists k.
        apply lookup_zip_with_Some. exists k, c. repeat split; [|done].
        apply lookup_seq. split; [done|]. by apply lookup_lt_Some in H.
      * intros [H|H]; [|done].
        apply list_elem_of_lookup in H as [i H].
        apply lookup_zip_with_Some in H as (k' & c' & E & Hk & Hc).
        apply lookup_seq in Hk as [-> _]. by inversion E; subst.
    + rewrite snd_zip; [apply KEEGAN_TO_COORD_NoDup|]. by rewrite length_seq.
    + intros; apply lookup_empty.
  - apply cube_ring_shape.
Qed.

Lemma hex_tables_consistent_witness :
  (KEEGAN_TO_COORD !! 7%nat = Some (0, -2, 2)
   <-> COORD_TO_KEEGAN !! ((0, -2, 2) : Cube) = Some 7%nat)
  /\ length (cube_ring 2) = 12%nat
  /\ head (cube_ring 2) = Some (0, -2, 2).
Proof.
  destruct hex_tables_consistent as (_ & _ & Hinv & Hring).
  split; [apply (Hinv 7%nat (0, -2, 2)) | apply (Hring 2); lia].
Defined.

(** ** Random board generation *)

Section PyLists.

Lemma index_elem_of (l : list Z) (x : Z) :
  x ∈ l -> exists i, index l x = Ret i /\ l !! i = Some x.
Proof.
  induction l as [|y l IH]; intros Hin.
  - by apply elem_of_nil in Hin.
  - cbn. case_decide as E.
    + exists 0%nat. by subst.
    + apply elem_of_cons in Hin as [->|Hin]; [done|].
      destruct (IH Hin) as (i & -> & Hi). by exists (S i).
Qed.

Lemma index_not_exception (l : list Z) (x : Z) msg :
  index l x <> Raise (Exception msg).
Proof.
  induction l as [|y l IH]; cbn; [done|].
  case_decide; [done|]. destruct (index l x); cbn; congruence.
Qed.

Lemma draw_distinct_returns {A} (k : nat) (pool : list A) (ds : list Z) :
  (k <= length pool)%nat -> (k <= length ds)%nat ->
  exists xs,
    draw_distinct k pool ds = (Ret xs, drop k ds)
    /\ length xs = k
    /\ (forall x, x ∈ xs -> x ∈ pool).
Proof.
  revert pool ds. induction k as [|k IH]; intros pool ds Hp Hd.
  - exists []. cbn. rewrite drop_0. split; [done|]. split; [done|].
    intros x Hx. by apply elem_of_nil in Hx.
  - destruct ds as [|d ds]; [cbn in Hd; lia|]. cbn [draw_distinct].
    set (j := Z.to_nat (d mod Z.of_nat (length pool))).
    assert (j < length pool)%nat as Hj.
    { unfold j. pose proof (Z.mod_pos_bound d (Z.of_nat (length pool))). lia. }
    destruct (lookup_lt_is_Some_2 pool j Hj) as [x Hx]. rewrite Hx.
    destruct (IH (delete j pool) ds) as (xs & E & L & Hsub).
    { rewrite length_delete by eauto. lia. }
    { cbn in Hd. lia. }
    exists (x :: xs). unfold rbind. rewrite E. cbn.
    split; [done|]. split; [by rewrite L|].
    intros y Hy. apply elem_of_cons in Hy as [->|Hy].
    + by eapply list_elem_of_lookup_2.
    + apply Hsub in Hy. by eapply list_elem_of_delete_inv.
Qed.
End PyLists.

Section InsertHomes.

Lemma lookup_py_insert {A} (k : nat) (x : A) (l : list A) (p : nat) :
  (k <= length l)%nat ->
  Py.insert k x l !! p =
    if decide (p < k)%nat then l !! p
    else if decide (p = k) then Some x else l !! (p - 1)%nat.
Proof.
  intros Hk. unfold Py.insert. case_decide as Hlt.
  - rewrite lookup_app_l by (rewrite length_take; lia).
    by rewrite lookup_take_lt.
  - rewrite lookup_app_r by (rewrite length_take; lia).
    rewrite length_take, Nat.min_l by lia. case_decide as Heq.
    + subst. by rewrite Nat.sub_diag.
    + rewrite lookup_cons. destruct (p - k)%nat as [|m] eqn:E; [lia|].
      rewrite lookup_drop. f_equal. lia.
Qed.

Lemma length_py_insert {A} (k : nat) (x : A) (l : list A) :
  length (Py.insert k x l) = S (length l).
Proof.
  unfold Py.insert. rewrite length_app. cbn.
  rewrite length_take, length_drop. lia.
Qed.

Lemma elem_of_py_insert {A} (k : nat) (x y : A) (l : list A) :
  y ∈ Py.insert k x l <-> y = x \/ y ∈ l.
Proof.
  unfold Py.insert. rewrite elem_of_app, elem_of_cons.
  assert (y ∈ l <-> y ∈ take k l \/ y ∈ drop k l) as ->; [|tauto].
  by rewrite <- elem_of_app, take_drop.
Qed.

(** Inserting zeros at the positions of a plan into a list whose zeros
    are at [zs], all before the plan. *)
Lemma insert_zeros (ks : list nat) (l : list Z) (zs : list nat) (lo : nat) :
  (forall p, l !! p = Some 0 <-> p ∈ zs) ->
  (forall z, z ∈ zs -> (z < lo)%nat) ->
  insertion_plan lo (length l) ks ->
  let r := foldl (fun tile_list k => Py.insert k 0 tile_list) l ks in
  (forall p, r !! p = Some 0 <-> p ∈ zs ++ ks)
  /\ length r = (length l + length ks)%nat
  /\ (forall x, x ∈ l -> x ∈ r).
Proof.
  revert l zs lo. induction ks as [|k ks IH]; intros l zs lo Hz Hlo Hplan; cbn.
  - rewrite app_nil_r. split; [done|]. split; [lia | done].
  - destruct Hplan as (Hk1 & Hk2 & Hplan).
    destruct (IH (Py.insert k 0 l) (zs ++ [k]) (S k)) as (R1 & R2 & R3).
    + intros p. rewrite lookup_py_insert by done.
      rewrite elem_of_app, list_elem_of_singleton.
      case_decide as H1; [|case_decide as H2].
      * rewrite Hz. split; [tauto|]. intros [H|H]; [done | lia].
      * split; [tauto | done].
      * split; [|intros [H|H]; [apply Hlo in H; lia | lia]].
        intros H. apply Hz, Hlo in H. lia.
    + intros z Hzin. apply elem_of_app in Hzin as [H|H].
      * apply Hlo in H. lia.
      * apply list_elem_of_singleton in H. lia.
    + by rewrite length_py_insert.
    + split; [|split].
      * intros p. rewrite R1, <- app_assoc. done.
      * rewrite R2, length_py_insert. lia.
      * intros x Hx. apply R3, elem_of_py_insert. by right.
Qed.

End InsertHomes.

Section Generate.

Lemma elem_of_delete_ne (l : list Z) (i : nat) (x y : Z) :
  l !! i = Some y -> x <> y -> x ∈ l -> x ∈ delete i l.
Proof.
  intros Hi Hne Hin. apply list_elem_of_lookup in Hin as [j Hj].
  apply list_elem_of_lookup. destruct (decide (j < i)%nat) as [Hlt|Hge].
  - exists j. by rewrite list_lookup_delete_lt.
  - assert (j <> i) by congruence. exists (j - 1)%nat.
    rewrite list_lookup_delete_ge by lia. rewrite <- Hj. f_equal. lia.
Qed.

Lemma remove_required_returns (required all_tiles : list Z) :
  NoDup required ->
  (forall r, r ∈ required -> r ∈ all_tiles) ->
  exists rest,
    Board.remove_required all_tiles required = Ret rest
    /\ (length rest + length required = length all_tiles)%nat
    /\ (forall x, x ∈ rest -> x ∈ all_tiles).
Proof.
  unfold Board.remove_required. revert all_tiles.
  induction required as [|r required IH]; intros all_tiles Hnd Hin.
  - exists all_tiles. cbn. split; [done|]. split; [lia | done].
  - apply NoDup_cons in Hnd as [Hr Hnd].
    destruct (index_elem_of all_tiles r) as (i & Ei & Hi); [apply Hin; left|].
    pose proof (lookup_lt_Some _ _ _ Hi) as Hlt.
    cbn [foldM]. rewrite Ei. cbn [bind]. unfold del at 1.
    rewrite decide_True by done. cbn [bind].
    destruct (IH (delete i all_tiles) Hnd) as (rest & E & L & Hsub).
    + intros r' Hr'. eapply elem_of_delete_ne; [done | | apply Hin; by right].
      intros ->. done.
    + exists rest. split; [done|]. split.
      * rewrite length_delete in L by eauto. cbn. lia.
      * intros x Hx. eapply list_elem_of_delete_inv. by apply Hsub.
Qed.

Lemma remove_required_not_exception (required all_tiles : list Z) msg :
  Board.remove_required all_tiles required <> Raise (Exception msg).
Proof.
  unfold Board.remove_required. revert all_tiles.
  induction required as [|r required IH]; intros all_tiles; cbn [foldM]; [done|].
  pose proof (index_not_exception all_tiles r msg) as Hi.
  destruct (index all_tiles r) as [i|e|]; cbn [bind]; [|congruence|done].
  unfold del at 1. case_decide; cbn [bind]; [apply IH | done].
Qed.

Lemma draw_distinct_not_exception {A} (k : nat) (pool : list A) ds msg :
  (draw_distinct k pool ds).1 <> Raise (Exception msg).
Proof.
  revert pool ds. induction k as [|k IH]; intros pool ds; cbn; [done|].
  destruct ds as [|d ds]; [done|].
  destruct (pool !! _) as [x|]; [|done].
  unfold rbind. specialize (IH (delete (Z.to_nat (d mod Z.of_nat (length pool))) pool) ds).
  destruct (draw_distinct k _ ds) as [[xs|e|] ds']; cbn in *; congruence.
Qed.

Lemma home_keegan_supported (n : Z) :
  n = 4 \/ n = 6 \/ n = 8 ->
  Board.home_keegan n = Ret (home_positions n)
  /\ length (home_positions n) = Z.to_nat n
  /\ NoDup (home_positions n)
  /\ insertion_plan 0 (board_size n - Z.to_nat n) (home_positions n).
Proof.
  intros [-> | [-> | ->]]; (split; [done|]); (split; [done|]);
    (split; [apply (bool_decide_eq_true_1 (NoDup _)); by vm_compute|]);
    vm_compute; repeat split; lia.
Qed.

End Generate.

(** C7.  For a player count other than 4, 6 and 8, generation raises the
    unsupported-player-count exception without consuming a draw, and so does
    the construction of a board that asks for it; for 4, 6 and 8 that
    exception is never raised. *)
Theorem unsupported_player_count (G : Globals) (n : Z) (ds : list Z) :
  (n <> 4 -> n <> 6 -> n <> 8 ->
   Board.generate_random_board G n ds = (Raise unsupported, ds)
   /\ Board.init G [] n ds = (Raise unsupported, ds))
  /\ (n = 4 \/ n = 6 \/ n = 8 ->
      (Board.generate_random_board G n ds).1 <> Raise unsupported).
Proof.
  split.
  - intros H4 H6 H8.
    assert (Board.generate_random_board G n ds = (Raise unsupported, ds)) as E.
    { unfold Board.generate_random_board, rbind, lift, Board.home_keegan.
      by rewrite !decide_False by done. }
    split; [done|]. unfold Board.init, rbind. by rewrite E.
  - intros Hn. destruct (home_keegan_supported n Hn) as (E & _).
    unfold Board.generate_random_board, rbind, lift. rewrite E.
    pose proof (remove_required_not_exception
                  (elements (require (FLAGS G)))
                  (filter (fun i => i <> MECATOL_INDEX) (NONHOME_TILES G))
                  "Unsupported player count") as Hr.
    unfold unsupported.
    destruct (Board.remove_required _ _) as [rest|e|]; cbn; [|congruence|done].
    unfold sample. case_decide; [done|].
    match goal with |- context [draw_distinct ?k ?p ?d] =>
      pose proof (draw_distinct_not_exception k p d "Unsupported player count") as Hd;
      destruct (draw_distinct k p d) as [[xs|e|] ds'] end; cbn in *;
      unfold unsupported; congruence.
Qed.

Lemma unsupported_player_count_witness :
  Board.generate_random_board (Examples.wide Examples.require_two) 5
                              Examples.forty_draws
  = (Raise unsupported, Examples.forty_draws)
  /\ (Board.generate_random_board (Examples.wide Examples.require_two) 6
                                  Examples.forty_draws).1
     <> Raise unsupported.
Proof.
  split.
  - apply (unsupported_player_count (Examples.wide Examples.require_two) 5
                                    Examples.forty_draws); lia.
  - apply (unsupported_player_count (Examples.wide Examples.require_two) 6
                                    Examples.forty_draws); lia.
Defined.

(** C1, as stated, fails.  A four-player board has 32 positions besides
    the centre and the homes: with 33 required non-home systems the sample
    size is negative and [random.sample] raises [ValueError]; no sequence of
    37 entries could hold them.  The centre belongs to the non-home
    catalogue too, and requiring it makes [all_tiles.index] raise
    [ValueError], since the centre has been filtered out of [all_tiles]. *)
Lemma generate_random_board_required_fails :
  (size (require (FLAGS (Examples.wide Examples.require_many))) = 33%nat
   /\ Forall (fun r => r ∈ NONHOME_TILES (Examples.wide Examples.require_many)
                        /\ r <> MECATOL_INDEX)
              (elements (require (FLAGS (Examples.wide Examples.require_many))))
   /\ Board.generate_random_board (Examples.wide Examples.require_many) 4
                                  Examples.forty_draws
      = (Raise ValueError, Examples.forty_draws))
  /\ (elements (require (FLAGS (Examples.wide Examples.require_center)))
      = [MECATOL_INDEX]
      /\ MECATOL_INDEX ∈ NONHOME_TILES (Examples.wide Examples.require_center)
      /\ Board.generate_random_board (Examples.wide Examples.require_center) 4
                                     Examples.forty_draws
         = (Raise ValueError, Examples.forty_draws)).
Proof.
  split.
  - split; [by vm_compute|]. split; [|by vm_compute].
    apply (bool_decide_eq_true_1 (Forall _ _)). by vm_compute.
  - split; [by vm_compute|]. split; [|by vm_compute].
    apply (bool_decide_eq_true_1 (_ ∈ _)). by vm_compute.
Qed.

(** C1, amended.  For a player count of 4, 6 or 8, a catalogue that does
    not list identity 0 and has at least as many non-centre identities as
    the board has positions besides the centre and the homes, a required set
    of non-home, non-centre identities that is no larger than that number,
    and enough draws, generation returns a sequence of length 37 (61 for 8
    players) whose zeros are exactly at the configured home positions, of
    which there are [n], and which contains the centre and every required
    identity. *)
Theorem generate_random_board_shape (G : Globals) (n : Z) (ds : list Z) :
  n = 4 \/ n = 6 \/ n = 8 ->
  0 ∉ NONHOME_TILES G ->
  (forall r, r ∈ require (FLAGS G) -> r ∈ NONHOME_TILES G /\ r <> MECATOL_INDEX) ->
  Z.of_nat (size (require (FLAGS G))) <= free_slots n ->
  free_slots n
  <= Z.of_nat (length (filter (fun i => i <> MECATOL_INDEX) (NONHOME_TILES G))) ->
  free_slots n - Z.of_nat (size (require (FLAGS G))) <= Z.of_nat (length ds) ->
  exists tile_list ds',
    Board.generate_random_board G n ds = (Ret tile_list, ds')
    /\ length tile_list = board_size n
    /\ length (home_positions n) = Z.to_nat n
    /\ NoDup (home_positions n)
    /\ (forall p, tile_list !! p = Some 0 <-> p ∈ home_positions n)
    /\ MECATOL_INDEX ∈ tile_list
    /\ (forall r, r ∈ require (FLAGS G) -> r ∈ tile_list).
Proof.
  intros Hn H0 Hreq Hsz Hcat Hds.
  destruct (home_keegan_supported n Hn) as (Ehk & Lhk & NDhk & Hplan).
  set (required := elements (require (FLAGS G))) in *.
  set (all_tiles := filter (fun i => i <> MECATOL_INDEX) (NONHOME_TILES G)) in *.
  assert (length required = size (require (FLAGS G))) as Lreq by done.
  assert (Z.of_nat (board_size n) = free_slots n + 1 + n) as Hbs
    by (unfold free_slots; lia).
  assert (0 < n) as Hnpos by lia.
  destruct (remove_required_returns required all_tiles) as (rest & Er & Lr & Hsub).
  { apply NoDup_elements. }
  { intros r Hr. apply elem_of_elements, Hreq in Hr as [Hr1 Hr2].
    apply list_elem_of_filter. done. }
  set (k := (if decide (n <= 6) then 37 else 61)
            - Z.of_nat (length (MECATOL_INDEX :: required)) - n).
  assert (k = free_slots n - Z.of_nat (length required)) as Ek.
  { unfold k, free_slots, board_size. cbn [length]. case_decide; lia. }
  assert (Board.generate_random_board G n ds
          = rbind (draw_distinct (Z.to_nat k) rest)
                  (fun picked =>
                     rret (foldl (fun tile_list k => Py.insert k 0 tile_list)
                                 ((MECATOL_INDEX :: required) ++ picked)
                                 (home_positions n))) ds) as Egen.
  { unfold Board.generate_random_board, rbind at 1 2, lift. rewrite Ehk.
    fold required all_tiles. rewrite Er. fold k. unfold sample, rbind.
    rewrite decide_False; [done|]. rewrite Ek. lia. }
  clearbody k.
  destruct (draw_distinct_returns (Z.to_nat k) rest ds) as (picked & Ed & Lp & Hp);
    [lia | lia |].
  set (fixed := (MECATOL_INDEX :: required) ++ picked).
  assert (forall x, x ∈ fixed -> x <> 0) as Hnz.
  { intros x Hx ->. unfold fixed in Hx.
    apply elem_of_app in Hx as [Hx|Hx].
    - apply elem_of_cons in Hx as [Hx|Hx]; [done|].
      apply elem_of_elements, Hreq in Hx as [Hx _]. done.
    - apply Hp, Hsub, list_elem_of_filter in Hx as [_ Hx]. done. }
  assert (length fixed = (board_size n - Z.to_nat n)%nat) as Lfixed.
  { unfold fixed. rewrite length_app, Lp. cbn [length]. lia. }
  destruct (insert_zeros (home_positions n) fixed [] 0) as (Z1 & Z2 & Z3).
  { intros p. split.
    - intros Hp0. exfalso. eapply Hnz; [|done]. by eapply list_elem_of_lookup_2.
    - intros Hp0. by apply elem_of_nil in Hp0. }
  { intros z Hz. by apply elem_of_nil in Hz. }
  { by rewrite Lfixed. }
  eexists _, _. split.
  - rewrite Egen. unfold rbind. rewrite Ed. unfold rret. reflexivity.
  - fold fixed. split; [rewrite Z2, Lfixed, Lhk; lia|].
    split; [done|]. split; [done|]. split; [done|]. split.
    + apply Z3. unfold fixed. cbn. left.
    + intros r Hr. apply Z3. unfold fixed. apply elem_of_app. left. right.
      by apply elem_of_elements.
Qed.

Lemma generate_random_board_shape_witness :
  exists tile_list ds',
    Board.generate_random_board (Examples.wide Examples.require_two) 4
                                Examples.forty_draws = (Ret tile_list, ds')
    /\ length tile_list = 37%nat
    /\ length (home_positions 4) = 4%nat
    /\ NoDup (home_positions 4)
    /\ (forall p, tile_list !! p = Some 0 <-> p ∈ home_positions 4)
    /\ MECATOL_INDEX ∈ tile_list
    /\ (forall r, r ∈ require (FLAGS (Examples.wide Examples.require_two)) ->
                  r ∈ tile_list).
Proof.
  apply (generate_random_board_shape (Examples.wide Examples.require_two) 4
                                     Examples.forty_draws).
  - by left.
  - apply (bool_decide_eq_false_1 (_ ∈ _)). by vm_compute.
  - intros r Hr.
    assert (r = 20 \/ r = 25) as [-> | ->] by (cbn in Hr; set_solver).
    + split; [apply (bool_decide_eq_true_1 (_ ∈ _)); by vm_compute | done].
    + split; [apply (bool_decide_eq_true_1 (_ ∈ _)); by vm_compute | done].
  - by vm_compute.
  - by vm_compute.
  - by vm_compute.
Defined.

(** ** Legality of a placement *)

Section Legality.

Lemma any_existsb {A} (f : A -> outcome bool) (g : A -> bool) (l : list A) :
  (forall x, x ∈ l -> f x = Ret (g x)) -> any f l = Ret (existsb g l).
Proof.
  induction l as [|x l IH]; intros Hf; cbn; [done|].
  rewrite (Hf x) by left. cbn. destruct (g x); [done|].
  apply IH. intros y Hy. apply Hf. by right.
Qed.

Lemma existsb_false {A} (g : A -> bool) (l : list A) :
  existsb g l = false <-> forall x, x ∈ l -> g x = false.
Proof.
  induction l as [|x l IH]; cbn.
  - split; [|done]. intros _ x Hx. by apply elem_of_nil in Hx.
  - rewrite orb_false_iff, IH. split.
    + intros [H1 H2] y Hy. apply elem_of_cons in Hy as [->|Hy]; auto.
    + intros H. split; [apply H; left | intros y Hy; apply H; by right].
Qed.

Lemma truthy_tag (o : option string) :
  o <> Some EmptyString -> (truthy o = true <-> o <> None).
Proof.
  destruct o as [s|]; cbn; [|done].
  intros Hs. split; [done|]. intros _. destruct s; [done | reflexivity].
Qed.

Variable G : Globals.
Variable b : Board.t.
Hypothesis Hcat : tags_ok G.
Hypothesis Hknown : tiles_known G (Board.tiles b).
Hypothesis Hlen : length (Board.tiles b) = Board.num_tiles b.
Hypothesis Hsize : (Board.num_tiles b <= 61)%nat.

Lemma neighbors_adjacent (p : nat) :
  (p < Board.num_tiles b)%nat -> Board.neighbors b p = Ret (adjacent b p).
Proof.
  intros Hp. unfold Board.neighbors, adjacent, get.
  destruct (lookup_lt_is_Some_2 KEEGAN_ADJACENT p) as [adj E].
  { change (length KEEGAN_ADJACENT) with 61%nat. lia. }
  by rewrite E.
Qed.

Lemma adjacent_on_board (p k : nat) :
  k ∈ adjacent b p ->
  exists t, Board.tiles b !! k = Some t /\ (t = 0 \/ is_Some (TILES G !! t)).
Proof.
  intros Hk. apply list_elem_of_filter in Hk as [Hk _].
  destruct (lookup_lt_is_Some_2 (Board.tiles b) k) as [t Ht]; [lia|].
  exists t. split; [done|].
  eapply Forall_forall in Hknown; [done|]. by eapply list_elem_of_lookup_2.
Qed.

Lemma any_anomalous (p : nat) :
  any (fun k => tk ← get (Board.tiles b) k;
                if decide (tk > 0) then
                  other ← item (TILES G) tk;
                  Ret (bool_decide (tile_anomaly other <> None))
                else Ret false) (adjacent b p)
  = Ret (existsb (anomalous G b) (adjacent b p)).
Proof.
  apply any_existsb. intros k Hk.
  destruct (adjacent_on_board p k Hk) as (t & Ht & Hin).
  unfold anomalous, get, item. rewrite Ht. cbn. case_decide; [|done].
  destruct Hin as [->|[other Ho]]; [lia|]. by rewrite Ho.
Qed.

Lemma any_same_worm (p : nat) (tile : Tile) :
  any (fun k => tk ← get (Board.tiles b) k;
                if decide (tk > 0) then
                  other ← item (TILES G) tk;
                  Ret (bool_decide (tile_worm tile = tile_worm other))
                else Ret false) (adjacent b p)
  = Ret (existsb (same_worm G b tile) (adjacent b p)).
Proof.
  apply any_existsb. intros k Hk.
  destruct (adjacent_on_board p k Hk) as (t & Ht & Hin).
  unfold same_worm, get, item. rewrite Ht. cbn. case_decide; [|done].
  destruct Hin as [->|[other Ho]]; [lia|]. by rewrite Ho.
Qed.

Lemma any_is_slot (p : nat) :
  any (fun k => tk ← get (Board.tiles b) k; Ret (bool_decide (tk = 0)))
      (adjacent b p)
  = Ret (existsb (is_slot b) (adjacent b p)).
Proof.
  apply any_existsb. intros k Hk.
  destruct (adjacent_on_board p k Hk) as (t & Ht & _).
  unfold is_slot, get. rewrite Ht. cbn. f_equal.
  apply bool_decide_ext. split; congruence.
Qed.

Lemma anomalous_rule (p : nat) (tile : Tile) :
  tile_anomaly tile <> Some EmptyString ->
  (truthy (tile_anomaly tile) && existsb (anomalous G b) (adjacent b p) = false
   <-> anomaly_rule G b p tile).
Proof.
  intros Hne. unfold anomaly_rule.
  rewrite andb_false_iff, existsb_false, <- not_true_iff_false, truthy_tag by done.
  split.
  - intros [H|H] Ha; [done|]. intros k t other Hk Ht Hpos Ho.
    specialize (H k Hk). unfold anomalous in H. rewrite Ht, Ho in H.
    rewrite decide_True in H by done.
    apply bool_decide_eq_false in H.
    destruct (tile_anomaly other); [by destruct H | done].
  - intros H. destruct (decide (tile_anomaly tile = None)) as [E|E]; [left; tauto|].
    right. intros k Hk. unfold anomalous.
    destruct (Board.tiles b !! k) as [t|] eqn:Ht; [|done].
    case_decide; [|done]. destruct (TILES G !! t) as [other|] eqn:Ho; [|done].
    apply bool_decide_eq_false. intros Hc. apply Hc.
    by apply (H E k t other).
Qed.

Lemma same_worm_rule (p : nat) (tile : Tile) :
  tile_worm tile <> Some EmptyString ->
  (truthy (tile_worm tile) && existsb (same_worm G b tile) (adjacent b p) = false
   <-> wormhole_rule G b p tile).
Proof.
  intros Hne. unfold wormhole_rule, tile_at.
  rewrite andb_false_iff, existsb_false, <- not_true_iff_false, truthy_tag by done.
  split.
  - intros [H|H] Ha; [done|]. intros k other Hk Ho.
    specialize (H k Hk). unfold same_worm in H.
    destruct (Board.tiles b !! k) as [t|] eqn:Ht; [|done].
    rewrite Ho in H. rewrite decide_True in H.
    + apply bool_decide_eq_false in H. congruence.
    + destruct (Hcat t other Ho) as [Hpos _]. lia.
  - intros H. destruct (decide (tile_worm tile = None)) as [E|E]; [left; tauto|].
    right. intros k Hk. unfold same_worm.
    destruct (Board.tiles b !! k) as [t|] eqn:Ht; [|done].
    case_decide; [|done]. destruct (TILES G !! t) as [other|] eqn:Ho; [|done].
    apply bool_decide_eq_false. specialize (H E k other Hk).
    rewrite Ht in H. specialize (H Ho). congruence.
Qed.

Lemma is_slot_rule (p : nat) :
  existsb (is_slot b) (adjacent b p) = false
  <-> forall k, k ∈ adjacent b p -> ~ home_slot b k.
Proof.
  rewrite existsb_false. unfold is_slot, home_slot.
  split; intros H k Hk; specialize (H k Hk).
  - by apply bool_decide_eq_false in H.
  - by apply bool_decide_eq_false.
Qed.

(** [is_valid] as a boolean expression over the neighbours. *)
Lemma is_valid_unfold (p : nat) (tile_index : Z) (tile : Tile) :
  Board.tiles b !! p = Some tile_index ->
  TILES G !! tile_index = Some tile ->
  Board.is_valid G b p =
  Ret (negb (truthy (tile_anomaly tile) && existsb (anomalous G b) (adjacent b p))
       && negb (truthy (tile_worm tile)
                && existsb (same_worm G b tile) (adjacent b p))
       && negb (bool_decide (tile_skip tile = Some "legend"%string)
                && existsb (is_slot b) (adjacent b p))
       && negb (truthy (tile_worm tile) && existsb (is_slot b) (adjacent b p))).
Proof.
  intros Hp Ht.
  assert (p < Board.num_tiles b)%nat as Hlt.
  { rewrite <- Hlen. by eapply lookup_lt_Some. }
  unfold Board.is_valid, get, item. rewrite Hp. cbn [bind]. rewrite Ht. cbn [bind].
  rewrite !(neighbors_adjacent p Hlt). cbn [bind].
  rewrite any_anomalous, any_same_worm, any_is_slot.
  generalize (existsb (anomalous G b) (adjacent b p))
             (existsb (same_worm G b tile) (adjacent b p))
             (existsb (is_slot b) (adjacent b p)).
  intros ea ew es.
  destruct (decide (tile_skip tile = Some "legend"%string)) as [Hl|Hl];
    [rewrite (bool_decide_eq_true_2 _ Hl) | rewrite (bool_decide_eq_false_2 _ Hl)];
    destruct (truthy (tile_anomaly tile)), ea, (truthy (tile_worm tile)), ew, es;
    reflexivity.
Qed.

End Legality.

(** C3.  At a position [p] that holds a catalogue tile, on a board whose
    positions all hold the home slot or a catalogue tile, the legality check
    returns a boolean, and it is true exactly when the four rules hold
    against the neighbours of [p] on the board: (a) an anomaly has no
    neighbour of identity above 0 with an anomaly, (b) a wormhole has no
    neighbour with the same wormhole, (c) a legendary planet has no home
    slot next to it, (d) a wormhole has no home slot next to it. *)
Theorem is_valid_iff_rules (G : Globals) (b : Board.t) (p : nat)
        (tile_index : Z) (tile : Tile) :
  tags_ok G ->
  tiles_known G (Board.tiles b) ->
  length (Board.tiles b) = Board.num_tiles b ->
  (Board.num_tiles b <= 61)%nat ->
  Board.tiles b !! p = Some tile_index ->
  TILES G !! tile_index = Some tile ->
  exists v : bool,
    Board.is_valid G b p = Ret v
    /\ (v = true <->
        anomaly_rule G b p tile /\ wormhole_rule G b p tile
        /\ legendary_rule b p tile /\ wormhole_home_rule b p tile).
Proof.
  intros Hcat Hknown Hlen Hsize Hp Ht.
  destruct (Hcat tile_index tile Ht) as (_ & Ha & Hw).
  eexists. split; [by eapply is_valid_unfold|].
  rewrite !andb_true_iff, !negb_true_iff.
  rewrite anomalous_rule, same_worm_rule by done.
  assert (bool_decide (tile_skip tile = Some "legend"%string)
          && existsb (is_slot b) (adjacent b p) = false
          <-> legendary_rule b p tile) as ->.
  { unfold legendary_rule. rewrite andb_false_iff, is_slot_rule, bool_decide_eq_false.
    split; [intros [H|H]; [done | auto] |].
    intros H. destruct (decide (tile_skip tile = Some "legend"%string)); auto. }
  assert (truthy (tile_worm tile) && existsb (is_slot b) (adjacent b p) = false
          <-> wormhole_home_rule b p tile) as ->.
  { unfold wormhole_home_rule.
    rewrite andb_false_iff, is_slot_rule, <- not_true_iff_false, truthy_tag by done.
    split; [intros [H|H]; [done | auto] |].
    intros H. destruct (decide (tile_worm tile = None)); [left; tauto | auto]. }
  tauto.
Qed.

Lemma tags_check_sound (G : Globals) : tags_check G = true -> tags_ok G.
Proof.
  unfold tags_check. rewrite bool_decide_eq_true. intros Hm t tile Ht.
  exact (Hm t tile Ht).
Qed.

Lemma tiles_known_check (G : Globals) (tiles : list Z) :
  forallb (fun t => bool_decide (t = 0) || bool_decide (is_Some (TILES G !! t))) tiles
  = true ->
  tiles_known G tiles.
Proof.
  rewrite forallb_forall. intros H. apply Forall_forall. intros t Ht.
  apply list_elem_of_In, H, orb_true_iff in Ht as [Ht|Ht];
    apply bool_decide_eq_true in Ht; auto.
Qed.

(** On the board 18,0,24,20,0,21,22 the wormhole 24 at position 2 lies next
    to the home slot at position 1: the check returns false, and rule (d)
    fails. *)
Lemma is_valid_iff_rules_witness :
  exists v : bool,
    Board.is_valid (Examples.small (Examples.no_flags 2))
                   (Examples.bare [18; 0; 24; 20; 0; 21; 22]) 2 = Ret v
    /\ (v = true <->
        anomaly_rule (Examples.small (Examples.no_flags 2))
                     (Examples.bare [18; 0; 24; 20; 0; 21; 22]) 2
                     (Examples.wormhole "alpha")
        /\ wormhole_rule (Examples.small (Examples.no_flags 2))
                         (Examples.bare [18; 0; 24; 20; 0; 21; 22]) 2
                         (Examples.wormhole "alpha")
        /\ legendary_rule (Examples.bare [18; 0; 24; 20; 0; 21; 22]) 2
                          (Examples.wormhole "alpha")
        /\ wormhole_home_rule (Examples.bare [18; 0; 24; 20; 0; 21; 22]) 2
                              (Examples.wormhole "alpha")).
Proof.
  apply (is_valid_iff_rules (Examples.small (Examples.no_flags 2))
                            (Examples.bare [18; 0; 24; 20; 0; 21; 22]) 2 24
                            (Examples.wormhole "alpha")).
  - apply tags_check_sound. by vm_compute.
  - apply tiles_known_check. by vm_compute.
  - reflexivity.
  - vm_compute. lia.
  - reflexivity.
  - by vm_compute.
Defined.

(** The same wormhole is legal at position 2 once the home slot next to it
    is replaced by system 19. *)
Lemma is_valid_wormhole_next_to_home :
  Board.is_valid (Examples.small (Examples.no_flags 2))
                 (Examples.bare [18; 0; 24; 20; 0; 21; 22]) 2 = Ret false
  /\ Board.is_valid (Examples.small (Examples.no_flags 2))
                    (Examples.bare [18; 19; 24; 20; 0; 21; 22]) 2 = Ret true.
Proof. split; by vm_compute. Qed.

(** At a home slot the check raises [KeyError]: the catalogue of
    [load_tiles] has no tile 0. *)
Lemma is_valid_at_home_slot (G : Globals) (b : Board.t) (p : nat) :
  tags_ok G ->
  Board.tiles b !! p = Some 0 ->
  Board.is_valid G b p = Raise KeyError.
Proof.
  intros Hcat Hp. unfold Board.is_valid, get, item. rewrite Hp. cbn [bind].
  destruct (TILES G !! 0) as [tile|] eqn:E; [|done].
  destruct (Hcat 0 tile E) as [? _]. lia.
Qed.

(** C3, as stated for every position, fails at a home slot.  Position 1 of
    this board holds the home slot, tile 0, which the catalogue does not
    list: it has no anomaly, wormhole or skip tag, so none of the four
    rules asks anything of its neighbours; yet the check does not return
    true, [TILES[tile_index]] raises [KeyError]. *)
Lemma is_valid_home_slot_raises :
  Board.tiles (Examples.bare [18; 0; 24; 20; 0; 21; 22]) !! 1%nat = Some 0
  /\ TILES (Examples.small (Examples.no_flags 2)) !! 0 = None
  /\ Board.is_valid (Examples.small (Examples.no_flags 2))
                    (Examples.bare [18; 0; 24; 20; 0; 21; 22]) 1
     = Raise KeyError.
Proof. split_and!; by vm_compute. Qed.

(** ** Imbalance *)

Section Imbalance.

Lemma homestats_difference_nonneg (s s' : HomeStats.t) :
  (0 <= HomeStats.difference s s')%Q.
Proof.
  unfold HomeStats.difference, WEIGHTS.DIFF_SCORE, WEIGHTS.DIFF_RES,
    WEIGHTS.DIFF_INF, WEIGHTS.DIFF_WORM, WEIGHTS.DIFF_ANOM, WEIGHTS.DIFF_SKIP.
  pose proof (Qabs_nonneg (HomeStats.score s - HomeStats.score s')).
  assert (forall z : Z, (0 <= inject_Z (Z.abs z))%Q) as Hz.
  { intros z. change 0%Q with (inject_Z 0). rewrite <- Zle_Qle. lia. }
  pose proof (Hz (HomeStats.resource s - HomeStats.resource s')).
  pose proof (Hz (HomeStats.influence s - HomeStats.influence s')).
  pose proof (Hz (HomeStats.worms s - HomeStats.worms s')).
  pose proof (Hz (HomeStats.anomalies s - HomeStats.anomalies s')).
  pose proof (Hz (Z.of_nat (length (HomeStats.skips s))
                  - Z.of_nat (length (HomeStats.skips s')))).
  lra.
Qed.

Lemma home_difference_nonneg (a c : Home.t) : (0 <= Home.difference a c)%Q.
Proof.
  unfold Home.difference, WEIGHTS.DIFF_HOP1, WEIGHTS.DIFF_HOP2C, WEIGHTS.DIFF_HOP2U.
  pose proof (homestats_difference_nonneg (Home.stats1 a) (Home.stats1 c)).
  pose proof (homestats_difference_nonneg (Home.stats2c a) (Home.stats2c c)).
  pose proof (homestats_difference_nonneg (Home.stats2u a) (Home.stats2c c)).
  lra.
Qed.

Lemma elem_of_combinations2 (n i j : nat) :
  (i, j) ∈ combinations2 n <-> (i < j < n)%nat.
Proof.
  unfold combinations2. rewrite list_elem_of_In, in_flat_map. split.
  - intros (x & Hx & Hin). apply in_seq in Hx.
    apply in_map_iff in Hin as (y & E & Hy). apply in_seq in Hy.
    inversion E; subst. lia.
  - intros H. exists i. split; [apply in_seq; lia|].
    apply in_map_iff. exists j. split; [done|]. apply in_seq. lia.
Qed.

(** The running maximum of the loop of [get_imbalance] dominates its
    start value and every difference it has met. *)
Lemma max_diff_dominates (homes : list Home.t) (pairs : list (nat * nat))
      (m v : Q) :
  foldM (fun max_diff pair =>
           a ← get homes pair.1;
           b ← get homes pair.2;
           let diff := Home.difference a b in
           Ret (if Qlt_le_dec max_diff diff then diff else max_diff))
        m pairs = Ret v ->
  (m <= v)%Q
  /\ forall i j a c, (i, j) ∈ pairs -> homes !! i = Some a -> homes !! j = Some c ->
                     (Home.difference a c <= v)%Q.
Proof.
  revert m. induction pairs as [|[i j] pairs IH]; intros m; cbn [foldM].
  - intros [= ->]. split; [lra|]. intros i j a c Hin. by apply elem_of_nil in Hin.
  - unfold get at 1 2. cbn [fst snd].
    destruct (homes !! i) as [a|] eqn:Ha; [|done].
    destruct (homes !! j) as [c|] eqn:Hc; [|done]. cbn [bind].
    intros Hf. apply IH in Hf as [Hm Hall]. split.
    + destruct (Qlt_le_dec m (Home.difference a c)); lra.
    + intros i' j' a' c' Hin Ha' Hc'. apply elem_of_cons in Hin as [E|Hin].
      * inversion E; subst. rewrite Ha in Ha'. rewrite Hc in Hc'.
        inversion Ha'; inversion Hc'; subst.
        destruct (Qlt_le_dec m (Home.difference a' c')); lra.
      * by eapply Hall.
Qed.

(** When the imbalance is zero, the difference of every home to every
    later home is zero. *)
Lemma imbalance_zero_forward_pairs (b : Board.t) (v : Q) (i j : nat)
      (a c : Home.t) :
  Board.get_imbalance b = Ret v -> (v == 0)%Q ->
  (i < j < Board.num_homes b)%nat ->
  Board.homes b !! i = Some a -> Board.homes b !! j = Some c ->
  (Home.difference a c == 0)%Q.
Proof.
  intros Hv Hz Hij Ha Hc. apply max_diff_dominates in Hv as [_ Hall].
  pose proof (Hall i j a c (proj2 (elem_of_combinations2 _ i j) Hij) Ha Hc).
  pose proof (home_difference_nonneg a c). lra.
Qed.

End Imbalance.

(** C6.  On the lopsided two-player board the imbalance is 0 and the
    difference of the first home to the second is 0, yet the difference of
    the second home to the first is 23/16: the uncontested ring of the last
    home is compared by no term of any difference that [get_imbalance]
    evaluates. *)
Theorem imbalance_zero_reverse_difference_positive :
  exists (b : Board.t) (a c : Home.t),
    Board.init (Examples.sparse (Examples.no_flags 2)) Examples.lopsided_tiles 6 []
    = (Ret b, [])
    /\ Board.get_imbalance b = Ret 0%Q
    /\ Board.homes b = [a; c]
    /\ (Home.difference a c == 0)%Q
    /\ (Home.difference c a == 23 # 16)%Q.
Proof.
  eexists _, _, _. split; [by vm_compute|].
  split; [by vm_compute|]. split; [reflexivity|]. split; by vm_compute.
Qed.

(** ** Loops over index ranges *)

Lemma get_app_length {A} (pre l : list A) (x : A) :
  get (pre ++ x :: l) (length pre) = Ret x.
Proof. unfold get. by rewrite list_lookup_middle. Qed.

Section Loops.

Context {A B S : Type}.

(** [for i in range(len(la)): ... la[i] ... lb[i] ...] runs over the
    pairs of elements. *)
Lemma foldM_range_zip (f : S -> A -> B -> outcome S)
      (la pa : list A) (lb pb : list B) (s : S) :
  length pa = length pb -> length la = length lb ->
  foldM (fun s i => a ← get (pa ++ la) i; b ← get (pb ++ lb) i; f s a b)
        s (seq (length pa) (length la))
  = foldM (fun s ab => f s ab.1 ab.2) s (zip la lb).
Proof.
  revert lb pa pb s. induction la as [|a la IH]; intros lb pa pb s Hp Hl.
  - by destruct lb.
  - destruct lb as [|b lb]; [done|]. cbn [length seq foldM zip zip_with fst snd].
    rewrite get_app_length, Hp, get_app_length. cbn [bind].
    destruct (f s a b) as [s'| |]; cbn [bind]; [|done|done].
    assert (length (pa ++ [a]) = length (pb ++ [b])) as Hp'
      by (rewrite !length_app; cbn; lia).
    assert (length la = length lb) as Hl' by (by injection Hl).
    specialize (IH lb (pa ++ [a]) (pb ++ [b]) s' Hp' Hl').
    rewrite length_app, <- !app_assoc in IH. cbn in IH.
    rewrite Nat.add_1_r in IH. by rewrite <- Hp.
Qed.

Lemma mapM_range (f : A -> outcome B) (la pa : list A) :
  mapM (fun i => a ← get (pa ++ la) i; f a) (seq (length pa) (length la))
  = mapM f la.
Proof.
  revert pa. induction la as [|a la IH]; intros pa; [done|].
  cbn [length seq mapM]. rewrite get_app_length. cbn [bind].
  destruct (f a) as [y| |]; cbn [bind]; [|done|done].
  specialize (IH (pa ++ [a])). rewrite length_app, <- app_assoc in IH. cbn in IH.
  rewrite Nat.add_1_r in IH. by rewrite IH.
Qed.

Lemma all_range (f : A -> outcome bool) (la pa : list A) :
  all (fun i => a ← get (pa ++ la) i; f a) (seq (length pa) (length la))
  = all f la.
Proof.
  revert pa. induction la as [|a la IH]; intros pa; [done|].
  cbn [length seq all]. rewrite get_app_length. cbn [bind].
  destruct (f a) as [[|]| |]; cbn [bind]; [|done|done|done].
  specialize (IH (pa ++ [a])). rewrite length_app, <- app_assoc in IH. cbn in IH.
  rewrite Nat.add_1_r in IH. by rewrite IH.
Qed.

Lemma mapM_returns (f : A -> outcome B) (l : list A) :
  (forall x, x ∈ l -> exists y, f x = Ret y) -> exists ys, mapM f l = Ret ys.
Proof.
  induction l as [|x l IH]; intros Hf; [by exists []|].
  destruct (Hf x) as [y Hy]; [left|]. destruct IH as [ys Hys].
  { intros z Hz. apply Hf. by right. }
  exists (y :: ys). cbn. by rewrite Hy, Hys.
Qed.

Lemma mapM_pure (f : A -> outcome B) (g : A -> B) (l : list A) :
  (forall x, x ∈ l -> f x = Ret (g x)) -> mapM f l = Ret (map g l).
Proof.
  induction l as [|x l IH]; intros Hf; [done|].
  cbn. rewrite Hf by left. cbn. rewrite IH; [done|].
  intros z Hz. apply Hf. by right.
Qed.

Lemma mapM_Ret_Forall2 (f : A -> outcome B) (l : list A) (ys : list B) :
  mapM f l = Ret ys -> Forall2 (fun x y => f x = Ret y) l ys.
Proof.
  revert ys. induction l as [|x l IH]; intros ys; cbn.
  - intros [= <-]. constructor.
  - destruct (f x) as [y| |] eqn:E; [|done|done]. cbn.
    destruct (mapM f l) as [ys'| |]; [|done|done]. cbn.
    intros [= <-]. constructor; [done | by apply IH].
Qed.

Lemma all_returns (f : A -> outcome bool) (l : list A) :
  (forall x, x ∈ l -> exists v, f x = Ret v) -> exists v, all f l = Ret v.
Proof.
  induction l as [|x l IH]; intros Hf; [by exists true|].
  destruct (Hf x) as [v Hv]; [left|]. cbn. rewrite Hv. cbn.
  destruct v; [|by exists false]. apply IH. intros z Hz. apply Hf. by right.
Qed.

Lemma foldM_invariant (P : S -> Prop) (f : S -> A -> outcome S)
      (l : list A) (s : S) :
  P s ->
  (forall s x, P s -> x ∈ l -> exists s', f s x = Ret s' /\ P s') ->
  exists r, foldM f s l = Ret r /\ P r.
Proof.
  revert s. induction l as [|x l IH]; intros s Hs Hf; [by exists s|].
  destruct (Hf s x Hs) as (s' & E & Hs'); [left|].
  cbn. rewrite E. cbn. apply IH; [done|].
  intros s1 y Hs1 Hy. apply Hf; [done | by right].
Qed.

End Loops.

(** ** Writing tiles at the shuffled positions *)

(** The tile list after [for i in range(n): tiles[positions[i]] = new[i]],
    and the list [[tiles[k] for k in positions]]. *)
Section Writes.

Lemma write_length (ps : list nat) (new tiles : list Z) :
  length (write ps new tiles) = length tiles.
Proof.
  unfold write. revert new tiles. induction ps as [|p ps IH]; intros new tiles.
  - done.
  - destruct new as [|x new]; [done|]. cbn. by rewrite IH, length_insert.
Qed.

Lemma write_outside (ps : list nat) (new tiles : list Z) (q : nat) :
  q ∉ ps -> write ps new tiles !! q = tiles !! q.
Proof.
  unfold write. revert new tiles. induction ps as [|p ps IH]; intros new tiles Hq.
  - done.
  - destruct new as [|x new]; [done|]. cbn.
    apply not_elem_of_cons in Hq as [Hne Hq].
    rewrite IH by done. by apply list_lookup_insert_ne.
Qed.

Lemma write_at (ps : list nat) (new tiles : list Z) (i p : nat) (x : Z) :
  NoDup ps -> ps !! i = Some p -> new !! i = Some x -> (p < length tiles)%nat ->
  write ps new tiles !! p = Some x.
Proof.
  unfold write. revert new tiles i.
  induction ps as [|p0 ps IH]; intros new tiles i Hnd Hp Hx Hlt; [done|].
  destruct new as [|x0 new]; [done|].
  apply NoDup_cons in Hnd as [Hp0 Hnd]. cbn [zip zip_with foldl fst snd].
  destruct i as [|i]; cbn in Hp, Hx.
  - injection Hp as ->. injection Hx as ->.
    change (write ps new (<[p:=x]> tiles) !! p = Some x).
    rewrite write_outside by done. by apply list_lookup_insert_eq.
  - eapply IH; [done | done | done |]. by rewrite length_insert.
Qed.

Lemma place_write (b : Board.t) (ps : list nat) (new : list Z) :
  length new = length ps ->
  Forall (fun p => (p < length (Board.tiles b))%nat) ps ->
  Board.place b (length ps) ps new
  = Ret (Board.with_tiles b (write ps new (Board.tiles b))).
Proof.
  intros Hl Hps. unfold Board.place.
  pose proof (foldM_range_zip (fun ts k x => set ts k x) ps [] new []
                              (Board.tiles b) eq_refl (eq_sym Hl)) as E.
  cbn [app length] in E. rewrite E. clear E.
  assert (foldM (fun ts kx => set ts kx.1 kx.2) (Board.tiles b) (zip ps new)
          = Ret (write ps new (Board.tiles b))) as ->; [|done].
  unfold write. generalize (Board.tiles b) as tiles, Hps. clear Hps. revert new Hl.
  induction ps as [|p ps IH]; intros new Hl tiles Hps; [done|].
  destruct new as [|x new]; [done|].
  apply Forall_cons in Hps as [Hp Hps]. cbn [zip zip_with foldM foldl fst snd].
  unfold set at 1. rewrite decide_True by done. cbn [bind].
  apply IH; [by injection Hl|].
  eapply Forall_impl; [done|]. cbn. intros q Hq. by rewrite length_insert.
Qed.

Lemma read_length (ps : list nat) (tiles : list Z) :
  Forall (fun p => (p < length tiles)%nat) ps ->
  length (read ps tiles) = length ps.
Proof.
  unfold read. induction 1 as [|p ps Hp Hps IH]; [done|]. cbn.
  destruct (lookup_lt_is_Some_2 tiles p Hp) as [x ->]. cbn. by rewrite IH.
Qed.

Lemma read_lookup (ps : list nat) (tiles : list Z) (i p : nat) :
  Forall (fun p => (p < length tiles)%nat) ps ->
  ps !! i = Some p -> read ps tiles !! i = tiles !! p.
Proof.
  unfold read. intros Hps. revert i. induction Hps as [|p0 ps Hp Hps IH]; intros i; [done|].
  cbn. destruct (lookup_lt_is_Some_2 tiles p0 Hp) as [x Hx]. rewrite Hx. cbn.
  destruct i as [|i]; cbn; [by intros [= ->] | apply IH].
Qed.

Lemma mapM_get_read (ps : list nat) (tiles : list Z) :
  Forall (fun p => (p < length tiles)%nat) ps ->
  mapM (get tiles) ps = Ret (read ps tiles).
Proof.
  unfold read. induction 1 as [|p ps Hp Hps IH]; [done|]. cbn. unfold get at 1.
  destruct (lookup_lt_is_Some_2 tiles p Hp) as [x ->]. cbn. by rewrite IH.
Qed.

Lemma lifted_read (b : Board.t) (ps : list nat) :
  Forall (fun p => (p < length (Board.tiles b))%nat) ps ->
  Board.lifted b (length ps) ps = Ret (read ps (Board.tiles b)).
Proof.
  intros Hps. unfold Board.lifted.
  pose proof (mapM_range (get (Board.tiles b)) ps []) as E.
  cbn [app length] in E. rewrite E. by apply mapM_get_read.
Qed.

(** Writing back what was read from a list that differs at [ps] only
    restores that list. *)
Lemma write_read (ps : list nat) (tiles target : list Z) :
  NoDup ps ->
  length tiles = length target ->
  Forall (fun p => (p < length target)%nat) ps ->
  (forall q, q ∉ ps -> tiles !! q = target !! q) ->
  write ps (read ps target) tiles = target.
Proof.
  intros Hnd Hlen Hps Hout. apply list_eq. intros q.
  destruct (decide (q ∈ ps)) as [Hq|Hq].
  - apply list_elem_of_lookup in Hq as [i Hi].
    pose proof (proj1 (Forall_forall _ _) Hps q (list_elem_of_lookup_2 _ _ _ Hi)) as Hlt.
    cbn beta in Hlt.
    destruct (lookup_lt_is_Some_2 target q Hlt) as [x Hx]. rewrite Hx.
    eapply write_at; [done | done | | lia].
    by rewrite (read_lookup ps target i q).
  - rewrite write_outside by done. by apply Hout.
Qed.

End Writes.

(** ** Statistics are a function of the tiles *)

Section Stats.

Variable G : Globals.

Lemma foldM_preserves {A S} (P : S -> Prop) (f : S -> A -> outcome S)
      (l : list A) (s r : S) :
  (forall s x s', P s -> f s x = Ret s' -> P s') ->
  P s -> foldM f s l = Ret r -> P r.
Proof.
  intros Hf. revert s. induction l as [|x l IH]; intros s Hs; cbn.
  - by intros [= <-].
  - destruct (f s x) as [s'| |] eqn:E; [|done|done]. cbn.
    apply IH. by eapply Hf.
Qed.

Lemma add_tile_kind (s : HomeStats.t) (tile : Tile) :
  ring_kind (HomeStats.add_tile s tile) = ring_kind s.
Proof.
  unfold ring_kind, HomeStats.add_tile. cbn.
  generalize (tile_planets tile) as ps. intros ps. revert s.
  induction ps as [|p ps IH]; intros s; [done|]. cbn. by rewrite IH.
Qed.

Lemma update_kind (s r : HomeStats.t) (idx : list nat) (tiles : list Z) :
  HomeStats.update G s idx tiles = Ret r -> ring_kind r = ring_kind s.
Proof.
  unfold HomeStats.update. intros H.
  change (ring_kind s) with (ring_kind (HomeStats.reset s)).
  revert H. apply (foldM_preserves (fun r => ring_kind r = ring_kind (HomeStats.reset s)));
    [|done].
  intros s0 k s' Hs0.
  destruct (get tiles k) as [t| |]; [|done|done]. cbn.
  destruct (is_home G t) as [[|]| |]; cbn; [| |done|done].
  - by intros [= <-].
  - destruct (item (TILES G) t) as [tile| |]; [|done|done]. cbn.
    intros [= <-]. by rewrite add_tile_kind.
Qed.

Lemma update_ext (s s' : HomeStats.t) (idx : list nat) (tiles : list Z) :
  ring_kind s = ring_kind s' ->
  HomeStats.update G s idx tiles = HomeStats.update G s' idx tiles.
Proof.
  unfold ring_kind, HomeStats.update, HomeStats.reset. by intros [= -> ->].
Qed.

Lemma update_returns (s : HomeStats.t) (idx : list nat) (tiles : list Z) :
  tiles_known G tiles ->
  Forall (fun k => (k < length tiles)%nat) idx ->
  exists r, HomeStats.update G s idx tiles = Ret r.
Proof.
  intros Hk Hidx. unfold HomeStats.update.
  destruct (foldM_invariant (fun _ => True)
              (fun self k =>
                 tile_index ← get tiles k;
                 h ← is_home G tile_index;
                 if h then Ret self
                 else tile ← item (TILES G) tile_index;
                      Ret (HomeStats.add_tile self tile))
              idx (HomeStats.reset s) I) as (r & E & _); [|by exists r].
  intros s0 k _ Hin.
  pose proof (proj1 (Forall_forall _ _) Hidx k Hin) as Hlt. cbn beta in Hlt.
  destruct (lookup_lt_is_Some_2 tiles k Hlt) as [t Ht].
  unfold get. rewrite Ht. cbn [bind].
  pose proof (proj1 (Forall_forall _ _) Hk t (list_elem_of_lookup_2 _ _ _ Ht)) as Hkn.
  unfold is_home, item. case_decide; [by eexists|].
  destruct Hkn as [?|[tile Htile]]; [done|]. rewrite Htile. cbn [bind].
  case_bool_decide; cbn [bind]; [by eexists|]. by eexists.
Qed.

Lemma home_update_static (h h1 : Home.t) (tiles : list Z) :
  Home.update_stats G h tiles = Ret h1 -> same_static h h1.
Proof.
  unfold Home.update_stats.
  destruct (get (Home.hop h) 1) as [hop1| |]; [|done|done]. cbn.
  destruct (HomeStats.update G (Home.stats1 h) hop1 tiles) as [s1| |] eqn:E1;
    [|done|done]. cbn.
  destruct (HomeStats.update G (Home.stats2u h) _ tiles) as [s2u| |] eqn:E2;
    [|done|done]. cbn.
  destruct (HomeStats.update G (Home.stats2c h) _ tiles) as [s2c| |] eqn:E3;
    [|done|done]. cbn.
  intros [= <-]. unfold same_static. cbn.
  apply update_kind in E1, E2, E3. rewrite E1, E2, E3. by repeat split.
Qed.

Lemma home_update_ext (h h' : Home.t) (tiles : list Z) :
  same_static h h' ->
  Home.update_stats G h tiles = Home.update_stats G h' tiles.
Proof.
  intros (E1 & E2 & E3 & E4 & E5 & E6 & E7 & K1 & K2 & K3 & K4).
  unfold Home.update_stats. rewrite E1, E2, E3, E4, E5, E6, E7.
  destruct (get (Home.hop h') 1) as [hop1| |]; [|done|done]. cbn [bind].
  rewrite (update_ext _ _ hop1 tiles K1).
  destruct (HomeStats.update G (Home.stats1 h') hop1 tiles) as [s1| |];
    [|done|done]. cbn [bind].
  rewrite (update_ext _ _ (Home.hop2u h') tiles K2).
  destruct (HomeStats.update G (Home.stats2u h') _ tiles) as [s2u| |];
    [|done|done]. cbn [bind].
  rewrite (update_ext _ _ (Home.hop2c h') tiles K3).
  destruct (HomeStats.update G (Home.stats2c h') _ tiles) as [s2c| |];
    [|done|done]. cbn [bind].
  unfold ring_kind in K4. injection K4 as K4 K4'.
  unfold HomeStats.reset. by rewrite K4, K4'.
Qed.

Lemma home_update_returns (h : Home.t) (tiles : list Z) :
  tiles_known G tiles -> home_ok (length tiles) h ->
  exists h1, Home.update_stats G h tiles = Ret h1.
Proof.
  intros Hk ((hop1 & E & H1) & H2 & H3). unfold Home.update_stats, get.
  rewrite E. cbn.
  destruct (update_returns (Home.stats1 h) hop1 tiles Hk H1) as [s1 ->].
  destruct (update_returns (Home.stats2u h) _ tiles Hk H2) as [s2u ->].
  destruct (update_returns (Home.stats2c h) _ tiles Hk H3) as [s2c ->].
  cbn. by eexists.
Qed.

Lemma same_static_refl (h : Home.t) : same_static h h.
Proof. by repeat split. Qed.

Lemma same_static_trans (h1 h2 h3 : Home.t) :
  same_static h1 h2 -> same_static h2 h3 -> same_static h1 h3.
Proof.
  unfold same_static. intros H1 H2.
  repeat match goal with H : _ /\ _ |- _ => destruct H as [? H] end.
  repeat split; congruence.
Qed.

Lemma home_ok_static (n : nat) (h h' : Home.t) :
  same_static h h' -> home_ok n h -> home_ok n h'.
Proof.
  intros (_ & _ & _ & _ & E5 & E6 & E7 & _). unfold home_ok.
  by rewrite E5, E6, E7.
Qed.

Lemma same_frame_refl (b : Board.t) : same_frame b b.
Proof.
  repeat split. apply Forall2_same_length_lookup. split; [done|].
  intros i h h' H1 H2. rewrite H1 in H2. injection H2 as <-. apply same_static_refl.
Qed.

Lemma same_frame_trans (b1 b2 b3 : Board.t) :
  same_frame b1 b2 -> same_frame b2 b3 -> same_frame b1 b3.
Proof.
  intros (U1 & N1 & T1 & H1) (U2 & N2 & T2 & H2).
  repeat split; [congruence..|].
  eapply Forall2_trans; [|done|done]. apply same_static_trans.
Qed.

Lemma same_frame_with_tiles (b b' : Board.t) (tiles : list Z) :
  same_frame b b' -> same_frame b (Board.with_tiles b' tiles).
Proof. by intros (? & ? & ? & ?). Qed.

Lemma mapM_ext_Forall2 {A B} (f : A -> outcome B) (l l' : list A) :
  Forall2 (fun x x' => f x = f x') l l' -> mapM f l = mapM f l'.
Proof. induction 1 as [|x x' l l' E _ IH]; [done|]. cbn. by rewrite E, IH. Qed.

Lemma board_update_ext (b b' : Board.t) :
  same_frame b b' -> Board.tiles b = Board.tiles b' ->
  Board.update_stats G b = Board.update_stats G b'.
Proof.
  intros (U & N & T & H) E. unfold Board.update_stats, Board.with_homes.
  rewrite <- E, <- U, <- N, <- T.
  rewrite (mapM_ext_Forall2 (fun h => Home.update_stats G h (Board.tiles b))
                            (Board.homes b) (Board.homes b')); [done|].
  eapply Forall2_impl; [done|]. intros h h' Hs. by apply home_update_ext.
Qed.

Lemma board_update_frame (b b' : Board.t) :
  Board.update_stats G b = Ret b' ->
  same_frame b b' /\ Board.tiles b' = Board.tiles b.
Proof.
  unfold Board.update_stats.
  destruct (mapM _ (Board.homes b)) as [homes'| |] eqn:E; [|done|done]. cbn.
  intros [= <-]. split; [|done]. repeat split. cbn.
  apply mapM_Ret_Forall2 in E. eapply Forall2_impl; [done|].
  intros h h'. apply home_update_static.
Qed.

Lemma board_update_fresh (b b' : Board.t) :
  Board.update_stats G b = Ret b' -> Board.update_stats G b' = Ret b'.
Proof.
  intros E. destruct (board_update_frame b b' E) as [Hf Ht].
  by rewrite <- (board_update_ext b b' Hf (eq_sym Ht)).
Qed.

Lemma board_update_returns (b : Board.t) :
  tiles_known G (Board.tiles b) ->
  Forall (home_ok (length (Board.tiles b))) (Board.homes b) ->
  exists b', Board.update_stats G b = Ret b'.
Proof.
  intros Hk Hh. unfold Board.update_stats.
  destruct (mapM_returns (fun h => Home.update_stats G h (Board.tiles b))
                         (Board.homes b)) as [homes' ->]; [|by eexists].
  intros h Hin. apply home_update_returns; [done|].
  by apply (proj1 (Forall_forall _ _) Hh).
Qed.

Lemma get_imbalance_returns (b : Board.t) :
  length (Board.homes b) = Board.num_homes b ->
  exists v, Board.get_imbalance b = Ret v.
Proof.
  intros Hl. unfold Board.get_imbalance.
  destruct (foldM_invariant (fun _ => True)
    (fun max_diff pair =>
       a ← get (Board.homes b) pair.1;
       c ← get (Board.homes b) pair.2;
       let diff := Home.difference a c in
       Ret (if Qlt_le_dec max_diff diff then diff else max_diff))
    (combinations2 (Board.num_homes b)) 0%Q I) as (v & E & _); [|by exists v].
  intros m [i j] _ Hin. apply elem_of_combinations2 in Hin.
  destruct (lookup_lt_is_Some_2 (Board.homes b) i) as [a Ha]; [lia|].
  destruct (lookup_lt_is_Some_2 (Board.homes b) j) as [c Hc]; [lia|].
  unfold get. cbn. rewrite Ha, Hc. cbn. by eexists.
Qed.

Lemma get_imbalance_ext (b b' : Board.t) :
  Board.homes b = Board.homes b' -> Board.num_homes b = Board.num_homes b' ->
  Board.get_imbalance b = Board.get_imbalance b'.
Proof. unfold Board.get_imbalance. by intros -> ->. Qed.

End Stats.

(** ** The selection of the positions to shuffle *)

Section Selection.

Variable G : Globals.
Variable b : Board.t.
Hypothesis Hcat : nonhome_ok G.
Hypothesis Hok : board_ok G b.

Lemma placeable_known (t : Z) :
  placeable G t -> t <> 0 /\ exists tile, TILES G !! t = Some tile.
Proof.
  unfold placeable, is_home, item. case_decide; [done|].
  destruct (TILES G !! t) as [tile|]; [|done]. intros _. split; [done | by exists tile].
Qed.

Lemma is_home_returns (t : Z) :
  t = 0 \/ is_Some (TILES G !! t) -> exists h, is_home G t = Ret h.
Proof.
  intros Hk. unfold is_home, item. case_decide; [by eexists|].
  destruct Hk as [?|[tile ->]]; [done|]. by eexists.
Qed.

Lemma rejected_spec (shuffle_keegan : list nat) (k : nat) :
  (k < Board.num_tiles b)%nat ->
  exists r, Board.rejected G b shuffle_keegan k = Ret r
            /\ (r = false <->
                (k ∉ shuffle_keegan)
                /\ exists t, Board.tiles b !! k = Some t
                             /\ placeable G t /\ ~ locked G t).
Proof.
  intros Hk. unfold Board.rejected.
  destruct (lookup_lt_is_Some_2 (Board.tiles b) k) as [t Ht].
  { by rewrite (ok_length G b Hok). }
  pose proof (proj1 (Forall_forall _ _) (ok_known G b Hok) t
                    (list_elem_of_lookup_2 _ _ _ Ht)) as Hkn.
  case_decide as Hin.
  { exists true. split; [done|]. split; [done|]. by intros [? _]. }
  unfold get. rewrite Ht. cbn [bind].
  destruct (is_home_returns t Hkn) as [h Eh]. rewrite Eh. cbn [bind].
  destruct h.
  { exists true. split; [done|]. split; [done|].
    intros (_ & t' & Ht' & Hp & _). injection Ht' as <-.
    unfold placeable in Hp. congruence. }
  eexists. split; [done|]. unfold locked.
  rewrite andb_false_iff, !bool_decide_eq_false. split.
  - intros Hl. split; [done|]. exists t. split; [done|]. split; [done|]. tauto.
  - intros (_ & t' & Ht' & _ & Hl). injection Ht' as <-.
    destruct (decide (lock (FLAGS G) = ∅)); [left; tauto | right; tauto].
Qed.

(** One pass of the [while True] loop, in terms of [randint]. *)
Lemma pick_keegan_unfold (shuffle_keegan : list nat) (ds : list Z) :
  Board.pick_keegan G b shuffle_keegan ds
  = (keegan ←$ randint 1 (Z.of_nat (Board.num_tiles b) - 1);
     r ←$ lift (Board.rejected G b shuffle_keegan (Z.to_nat keegan));
     if r then Board.pick_keegan G b shuffle_keegan
     else rret (Z.to_nat keegan)) ds.
Proof.
  unfold rbind, randint, lift, rret.
  destruct ds as [|d ds]; cbn [Board.pick_keegan];
    case_decide; [done | done | done |].
  by destruct (Board.rejected G b shuffle_keegan _) as [[|]| |].
Qed.

Lemma position_of_range (d : Z) : (1 <= position_of b d < Board.num_tiles b)%nat.
Proof.
  pose proof (ok_size G b Hok). unfold position_of.
  pose proof (Z.mod_pos_bound d (Z.of_nat (Board.num_tiles b) - 1 - 1 + 1)). lia.
Qed.

Lemma position_of_draw (k : nat) :
  (1 <= k < Board.num_tiles b)%nat -> position_of b (draw_of k) = k.
Proof.
  intros Hk. unfold position_of, draw_of. rewrite Z.mod_small by lia. lia.
Qed.

Lemma pick_keegan_spec (shuffle_keegan : list nat) (ds : list Z) :
  match Board.pick_keegan G b shuffle_keegan ds with
  | (Ret k, _) => (k ∉ shuffle_keegan) /\ selectable G b k
  | (Raise _, _) => False
  | (Starved, ds') => ds' = []
  end.
Proof.
  pose proof (ok_size G b Hok) as Hsz.
  induction ds as [|d ds IH]; cbn [Board.pick_keegan];
    rewrite decide_False by lia; [done|].
  fold (position_of b d). pose proof (position_of_range d) as Hr.
  destruct (rejected_spec shuffle_keegan (position_of b d)) as (r & -> & Hrej); [lia|].
  destruct r; [done|]. destruct Hrej as [Hrej _].
  destruct (Hrej eq_refl) as (Hnin & t & Ht). split; [done|]. split; [done|].
  by exists t.
Qed.

(** The loop stops at a draw of a selectable position not chosen yet. *)
Lemma pick_keegan_accepts (shuffle_keegan : list nat) (k : nat) (ds : list Z) :
  selectable G b k -> k ∉ shuffle_keegan ->
  Board.pick_keegan G b shuffle_keegan (draw_of k :: ds) = (Ret k, ds).
Proof.
  intros [Hk Ht] Hnin. pose proof (ok_size G b Hok) as Hsz.
  cbn [Board.pick_keegan]. rewrite decide_False by lia.
  fold (position_of b (draw_of k)). rewrite position_of_draw by done.
  destruct (rejected_spec shuffle_keegan k) as (r & -> & Hrej); [lia|].
  destruct r; [|done]. destruct Hrej as [_ Hrej]. by discriminate Hrej.
Qed.

Lemma pick_all_spec (n : nat) (shuffle_keegan : list nat) (ds : list Z) :
  NoDup shuffle_keegan -> Forall (selectable G b) shuffle_keegan ->
  match Board.pick_all G b n shuffle_keegan ds with
  | (Ret ks, _) => NoDup ks /\ Forall (selectable G b) ks
                   /\ length ks = (length shuffle_keegan + n)%nat
  | (Raise _, _) => False
  | (Starved, ds') => ds' = []
  end.
Proof.
  revert shuffle_keegan ds. induction n as [|n IH]; intros sk ds Hnd Hsel; cbn.
  - split; [done|]. split; [done | lia].
  - unfold rbind. pose proof (pick_keegan_spec sk ds) as Hp.
    destruct (Board.pick_keegan G b sk ds) as [[k| |] ds']; [|done|done].
    destruct Hp as [Hnin Hk].
    assert (NoDup (sk ++ [k])) as Hnd'.
    { apply NoDup_app. split; [done|]. split; [|apply NoDup_singleton].
      intros x Hx Hx'. apply list_elem_of_singleton in Hx'. by subst. }
    assert (Forall (selectable G b) (sk ++ [k])) as Hsel'.
    { apply Forall_app. split; [done|]. by apply Forall_singleton. }
    specialize (IH (sk ++ [k]) ds' Hnd' Hsel').
    destruct (Board.pick_all G b n (sk ++ [k]) ds') as [[ks| |] ds'']; [|done|done].
    rewrite length_app in IH. cbn in IH.
    destruct IH as (? & ? & ?). split; [done|]. split; [done | lia].
Qed.

(** The selection returns when the draws list distinct selectable
    positions. *)
Lemma pick_all_returns (ks shuffle_keegan : list nat) (ds : list Z) :
  NoDup (shuffle_keegan ++ ks) -> Forall (selectable G b) ks ->
  Board.pick_all G b (length ks) shuffle_keegan (map draw_of ks ++ ds)
  = (Ret (shuffle_keegan ++ ks), ds).
Proof.
  revert shuffle_keegan. induction ks as [|k ks IH]; intros sk Hnd Hsel; cbn.
  - by rewrite app_nil_r.
  - apply Forall_cons in Hsel as [Hk Hsel]. unfold rbind.
    rewrite pick_keegan_accepts; [|done|].
    + rewrite IH; [by rewrite <- app_assoc | by rewrite <- app_assoc | done].
    + apply NoDup_app in Hnd as (_ & Hd & _). intros Hin. apply (Hd k Hin). left.
Qed.

End Selection.

(** ** One step of improvement *)

Lemma elem_of_picks {A} (l : list A) (x : A) (rest : list A) :
  (x, rest) ∈ picks l -> x ∈ l /\ (forall y, y ∈ rest -> y ∈ l)
                         /\ S (length rest) = length l.
Proof.
  revert x rest. induction l as [|a l IH]; intros x rest; cbn.
  - intros H. by apply elem_of_nil in H.
  - rewrite elem_of_cons. intros [[= -> ->]|H].
    + split; [left|]. split; [|done]. intros y Hy. by right.
    + apply list_elem_of_fmap in H as ([x' rest'] & [= -> ->] & Hin).
      destruct (IH _ _ Hin) as (H1 & H2 & H3). cbn. split; [by right|]. split.
      * intros y Hy. apply elem_of_cons in Hy as [->|Hy]; [left | right; by apply H2].
      * by rewrite H3.
Qed.

Lemma elem_of_permutations {A} (r : nat) (l perm : list A) :
  perm ∈ permutations r l -> length perm = r /\ forall x, x ∈ perm -> x ∈ l.
Proof.
  revert l perm. induction r as [|r IH]; intros l perm; cbn.
  - intros H. apply list_elem_of_singleton in H as ->. split; [done|].
    intros x Hx. by apply elem_of_nil in Hx.
  - rewrite list_elem_of_In, in_flat_map. intros ([x rest] & Hp & Hin).
    apply list_elem_of_In, elem_of_picks in Hp as (Hx & Hrest & _).
    apply list_elem_of_In, list_elem_of_fmap in Hin as (perm' & -> & Hin'). cbn in *.
    destruct (IH _ _ Hin') as [Hl Hsub]. split; [by rewrite <- Hl|].
    intros y Hy. apply elem_of_cons in Hy as [->|Hy]; [done|]. by apply Hrest, Hsub.
Qed.

Lemma elem_of_read (ps : list nat) (T : list Z) (x : Z) :
  x ∈ read ps T -> exists p, p ∈ ps /\ T !! p = Some x.
Proof. unfold read. by rewrite list_elem_of_omap. Qed.

Lemma update_unused_idem (G : Globals) (b : Board.t) :
  Board.update_unused G (Board.update_unused G b) = Board.update_unused G b.
Proof. done. Qed.

Lemma update_stats_with_unused (G : Globals) (b : Board.t) (u : list Z) :
  Board.update_stats G b = Ret b ->
  Board.update_stats G (Board.with_unused b u) = Ret (Board.with_unused b u).
Proof.
  unfold Board.update_stats. cbn.
  destruct (mapM _ (Board.homes b)) as [homes'| |]; [|done|done]. cbn.
  intros [= E]. apply (f_equal Board.homes) in E. cbn in E. by rewrite E.
Qed.

Section Improve.

Variable G : Globals.
Variable b : Board.t.
Variable v0 : Q.
Variable ps : list nat.
Hypothesis Hcat : nonhome_ok G.
Hypothesis Hok : board_ok G b.
Hypothesis Hv0 : Board.get_imbalance b = Ret v0.
Hypothesis Hnd : NoDup ps.
Hypothesis Hsel : Forall (selectable G b) ps.

Let free : list Z := read ps (Board.tiles b) ++ Board.unused b.

Lemma ps_in_range (T : list Z) :
  length T = length (Board.tiles b) ->
  Forall (fun p => (p < length T)%nat) ps.
Proof.
  intros ->. rewrite (ok_length G b Hok).
  eapply Forall_impl; [exact Hsel|]. by intros p [[_ ?] _].
Qed.

Lemma free_placeable (t : Z) : t ∈ free -> placeable G t.
Proof.
  unfold free. rewrite elem_of_app. intros [Ht|Ht].
  - apply elem_of_read in Ht as (p & Hp & Ht).
    destruct (proj1 (Forall_forall _ _) Hsel p Hp) as (_ & t' & Ht' & Hpl & _).
    congruence.
  - rewrite <- (ok_unused G b Hok) in Ht. cbn in Ht.
    apply list_elem_of_filter in Ht as [_ Ht]. by apply Hcat.
Qed.

Lemma candidate_original : candidate G b ps (Board.tiles b).
Proof.
  split; [done|]. split; [done|]. intros q t Hq Ht.
  destruct (proj1 (Forall_forall _ _) Hsel q Hq) as (_ & t' & Ht' & Hpl & _).
  congruence.
Qed.

Lemma candidate_known (T : list Z) : candidate G b ps T -> tiles_known G T.
Proof.
  intros (Hl & Hout & Hin). apply Forall_lookup. intros q t Ht.
  destruct (decide (q ∈ ps)) as [Hq|Hq].
  - destruct (placeable_known G t (Hin q t Hq Ht)) as [_ [tile E]].
    right. by exists tile.
  - rewrite Hout in Ht by done.
    exact (proj1 (Forall_forall _ _) (ok_known G b Hok) t
                 (list_elem_of_lookup_2 _ _ _ Ht)).
Qed.

Lemma candidate_write (T perm : list Z) :
  candidate G b ps T -> perm ∈ permutations (length ps) free ->
  candidate G b ps (write ps perm T).
Proof.
  intros (Hl & Hout & Hin) Hperm.
  apply elem_of_permutations in Hperm as [Hlen Hsub].
  split; [by rewrite write_length|]. split.
  - intros q Hq. rewrite write_outside by done. by apply Hout.
  - intros q t Hq Ht. apply list_elem_of_lookup in Hq as [i Hi].
    destruct (lookup_lt_is_Some_2 perm i) as [x Hx].
    { rewrite Hlen. by eapply lookup_lt_Some. }
    rewrite (write_at ps perm T i q x) in Ht; [| done | done | done |].
    + injection Ht as <-. apply free_placeable, Hsub.
      by eapply list_elem_of_lookup_2.
    + pose proof (proj1 (Forall_forall _ _) (ps_in_range T Hl) q
                        (list_elem_of_lookup_2 _ _ _ Hi)). done.
Qed.

(** What a board in the frame of [b] with candidate tiles satisfies. *)
Lemma framed_board (cur : Board.t) :
  same_frame b cur -> candidate G b ps (Board.tiles cur) ->
  length (Board.tiles cur) = Board.num_tiles cur
  /\ (Board.num_tiles cur <= 61)%nat
  /\ tiles_known G (Board.tiles cur)
  /\ length (Board.homes cur) = Board.num_homes cur
  /\ Forall (home_ok (length (Board.tiles cur))) (Board.homes cur).
Proof.
  intros (_ & Hn & Ht & Hh) Hc. pose proof Hc as (Hl & _).
  pose proof (ok_size G b Hok). pose proof (ok_length G b Hok).
  split; [lia|]. split; [lia|]. split; [by eapply candidate_known|]. split.
  - rewrite <- Hn, <- (ok_homes_length G b Hok). symmetry.
    by eapply Forall2_length.
  - rewrite Hl, (ok_length G b Hok).
    pose proof (ok_homes G b Hok) as Hhomes.
    clear -Hh Hhomes. induction Hh as [|h h' l l' Hs _ IH]; [done|].
    apply Forall_cons in Hhomes as [H1 H2].
    constructor; [by eapply home_ok_static | by apply IH].
Qed.

Lemma is_valid_returns (cur : Board.t) (p : nat) :
  same_frame b cur -> candidate G b ps (Board.tiles cur) -> p ∈ ps ->
  exists v, Board.is_valid G cur p = Ret v.
Proof.
  intros Hf Hc Hp. destruct (framed_board cur Hf Hc) as (H1 & H2 & H3 & _).
  pose proof Hc as (Hl & _ & Hin).
  destruct (lookup_lt_is_Some_2 (Board.tiles cur) p) as [t Ht].
  { exact (proj1 (Forall_forall _ _) (ps_in_range _ Hl) p Hp). }
  destruct (placeable_known G t (Hin p t Hp Ht)) as [_ [tile E]].
  eexists. by eapply is_valid_unfold.
Qed.

Lemma imbalance_of_framed (cur cur2 : Board.t) (v : Q) :
  same_frame b cur ->
  Board.update_stats G cur = Ret cur2 -> Board.get_imbalance cur2 = Ret v ->
  imbalance_of G b (Board.tiles cur) v.
Proof.
  intros Hf Hu Hv. exists cur2. split; [|done]. rewrite <- Hu.
  apply board_update_ext; [|done].
  destruct Hf as (? & ? & ? & ?). by repeat split.
Qed.

Lemma try_permutation_inv (st : Board.t * Q * list Z) (perm : list Z) :
  length ps = shuffle (FLAGS G) ->
  loop_inv G b v0 ps st -> perm ∈ permutations (length ps) free ->
  exists st', Board.try_permutation G ps st perm = Ret st'
              /\ loop_inv G b v0 ps st'.
Proof.
  intros Hn Hinv Hperm. destruct st as [[cur best_imbalance] best_tiles].
  destruct Hinv as (Hf & Hc & Hbest). cbn [fst snd] in *.
  pose proof Hc as (Hl & _).
  pose proof (elem_of_permutations _ _ _ Hperm) as [Hlen _].
  unfold Board.try_permutation. rewrite <- Hn.
  rewrite (place_write cur ps perm Hlen (ps_in_range _ Hl)). cbn [bind].
  set (cur1 := Board.with_tiles cur (write ps perm (Board.tiles cur))).
  assert (same_frame b cur1) as Hf1 by (by apply same_frame_with_tiles).
  assert (candidate G b ps (Board.tiles cur1)) as Hc1 by (by apply candidate_write).
  pose proof (all_range (Board.is_valid G cur1) ps []) as Eall.
  cbn [app length] in Eall. rewrite Eall. clear Eall.
  destruct (all_returns (Board.is_valid G cur1) ps) as [ok Eok].
  { intros p Hp. by apply is_valid_returns. }
  rewrite Eok. cbn [bind]. destruct ok; cbn [negb].
  2:{ eexists. split; [done|]. by split. }
  destruct (framed_board cur1 Hf1 Hc1) as (_ & _ & Hk1 & _ & Hh1).
  destruct (board_update_returns G cur1 Hk1 Hh1) as [cur2 E2]. rewrite E2. cbn [bind].
  destruct (board_update_frame G cur1 cur2 E2) as [Hf12 Ht12].
  assert (same_frame b cur2) as Hf2 by (by eapply same_frame_trans).
  assert (candidate G b ps (Board.tiles cur2)) as Hc2 by (by rewrite Ht12).
  destruct (framed_board cur2 Hf2 Hc2) as (_ & _ & _ & Hhl2 & _).
  destruct (get_imbalance_returns cur2 Hhl2) as [imbalance Ei]. rewrite Ei. cbn [bind].
  destruct (Qlt_le_dec imbalance best_imbalance) as [Hlt|Hge].
  2:{ eexists. split; [done|]. by split. }
  pose proof Hc2 as (Hl2 & _).
  rewrite (lifted_read cur2 ps (ps_in_range _ Hl2)). cbn [bind].
  eexists. split; [done|]. split; [done|]. split; [done|]. cbn [fst snd].
  exists (Board.tiles cur2). split; [done|]. split; [done|]. split.
  - rewrite Ht12. by eapply imbalance_of_framed.
  - right. destruct Hbest as (T & _ & _ & _ & [[_ ->]|Hb]); lra.
Qed.

End Improve.

Lemma with_tiles_same (b : Board.t) : Board.with_tiles b (Board.tiles b) = b.
Proof. by destruct b. Qed.

(** [improve] on a well-formed board: it never raises; unless the
    selection runs out of draws it returns a well-formed board that differs from the original
    at the selected positions only, and whose imbalance is that of the
    original if the tiles are the original ones, and strictly lower
    otherwise. *)
Lemma improve_spec (G : Globals) (b : Board.t) (ds : list Z) :
  nonhome_ok G -> board_ok G b ->
  match Board.improve G b ds with
  | (Ret b', ds') =>
      exists ks v v',
        Board.pick_all G b (shuffle (FLAGS G)) [] ds = (Ret ks, ds')
        /\ NoDup ks /\ length ks = shuffle (FLAGS G)
        /\ Forall (selectable G b) ks
        /\ candidate G b ks (Board.tiles b')
        /\ board_ok G b'
        /\ Forall2 same_static (Board.homes b) (Board.homes b')
        /\ Board.get_imbalance b = Ret v
        /\ Board.get_imbalance b' = Ret v'
        /\ ((Board.tiles b' = Board.tiles b /\ v' = v) \/ (v' < v)%Q)
  | (Raise _, _) => False
  | (Starved, ds') =>
      Board.pick_all G b (shuffle (FLAGS G)) [] ds = (Starved, []) /\ ds' = []
  end.
Proof.
  intros Hcat Hok. unfold Board.improve, rbind.
  pose proof (pick_all_spec G b Hok (shuffle (FLAGS G)) [] ds
                            (NoDup_nil_2) (Forall_nil_2 _)) as Hpick.
  destruct (Board.pick_all G b (shuffle (FLAGS G)) [] ds) as [[ks| |] ds'];
    [|done|by subst].
  destruct Hpick as (Hnd & Hsel & Hlen). cbn in Hlen.
  pose proof (ps_in_range G b ks Hok Hsel (Board.tiles b) eq_refl) as Hrange.
  unfold lift. rewrite (mapM_get_read ks (Board.tiles b) Hrange). cbn [bind].
  destruct (get_imbalance_returns b (ok_homes_length G b Hok)) as [v0 Hv0].
  rewrite Hv0. rewrite <- Hlen. rewrite (lifted_read b ks Hrange).
  destruct (foldM_invariant (loop_inv G b v0 ks) (Board.try_permutation G ks)
              (permutations (length ks) (read ks (Board.tiles b) ++ Board.unused b))
              (b, v0, read ks (Board.tiles b))) as ([[cur best] best_tiles] & -> & Hinv).
  { split; [apply same_frame_refl|]. split; [by apply candidate_original|].
    exists (Board.tiles b). split; [by apply candidate_original|]. split; [done|].
    split; [|by left]. exists b. by rewrite with_tiles_same, (ok_stats G b Hok). }
  { intros st perm Hst Hperm. by eapply try_permutation_inv. }
  unfold loop_inv in Hinv. cbn [fst snd] in Hinv.
  destruct Hinv as (Hf & Hc & T & HcT & -> & (b2 & Eb2 & Ev) & Hbest).
  pose proof Hc as (Hl & Hout & _). pose proof HcT as (HlT & HoutT & _).
  rewrite place_write;
    [| by rewrite read_length by (by eapply ps_in_range) | by eapply ps_in_range].
  rewrite write_read; [| done | congruence | by eapply ps_in_range |].
  2:{ intros q Hq. by rewrite Hout, HoutT. }
  assert (Board.update_stats G (Board.with_tiles cur T) = Ret b2) as ->.
  { rewrite <- Eb2. symmetry. apply board_update_ext; [|done].
    destruct Hf as (? & ? & ? & ?). by repeat split. }
  unfold rret.
  destruct (board_update_frame G _ _ Eb2) as [(Hu2 & Hn2 & Ht2 & Hh2) Htiles2].
  cbn in Hu2, Hn2, Ht2, Hh2, Htiles2.
  exists ks, v0, best. split; [done|]. split; [done|]. split; [done|]. split; [done|].
  split; [by cbn; rewrite Htiles2|].
  assert (same_frame b b2) as Hfb2 by (by repeat split).
  assert (candidate G b ks (Board.tiles b2)) as Hcb2 by (by rewrite Htiles2).
  destruct (framed_board G b ks Hok b2 Hfb2 Hcb2) as (F1 & F2 & F3 & F4 & F5).
  split.
  { split; cbn.
    - done.
    - rewrite <- Ht2. apply (ok_size G b Hok).
    - done.
    - done.
    - by rewrite <- F1.
    - done.
    - apply update_stats_with_unused. by eapply board_update_fresh. }
  split; [done|]. split; [done|]. split; [done|].
  cbn. rewrite Htiles2. destruct Hbest as [[-> ->]|Hlt]; [by left | by right].
Qed.

(** [improve] returns when the draws list as many distinct selectable
    positions as are to be shuffled. *)
Lemma improve_returns (G : Globals) (b : Board.t) (ks : list nat) (ds : list Z) :
  nonhome_ok G -> board_ok G b ->
  NoDup ks -> Forall (selectable G b) ks -> length ks = shuffle (FLAGS G) ->
  exists b', Board.improve G b (map draw_of ks ++ ds) = (Ret b', ds).
Proof.
  intros Hcat Hok Hnd Hsel Hlen.
  pose proof (improve_spec G b (map draw_of ks ++ ds) Hcat Hok) as H.
  rewrite <- Hlen in H. rewrite (pick_all_returns G b Hok ks [] ds Hnd Hsel) in H.
  destruct (Board.improve G b (map draw_of ks ++ ds)) as [[b'| |] ds'];
    [|done|by destruct H].
  destruct H as (ks' & _ & _ & [= _ ->] & _). by exists b'.
Qed.


(** ** Construction establishes the invariant *)

Section Construction.

Variable G : Globals.

Lemma filterM_Ret_inv {A} (f : A -> outcome bool) (l ys : list A) :
  filterM f l = Ret ys -> forall x, x ∈ l -> exists v, f x = Ret v.
Proof.
  revert ys. induction l as [|a l IH]; intros ys; cbn.
  - intros _ x Hx. by apply elem_of_nil in Hx.
  - destruct (f a) as [v| |] eqn:E; [|done|done]. cbn.
    destruct (filterM f l) as [ys'| |]; [|done|done]. cbn. intros _ x Hx.
    apply elem_of_cons in Hx as [->|Hx]; [by exists v | by eapply IH].
Qed.

Lemma is_home_Ret_known (t : Z) (v : bool) :
  is_home G t = Ret v -> t = 0 \/ is_Some (TILES G !! t).
Proof.
  unfold is_home, item. case_decide; [by left|].
  destruct (TILES G !! t) as [tile|]; [|done]. intros _. right. by exists tile.
Qed.

Lemma home_init_rings (i k n : nat) (h : Home.t) :
  Home.init i k n = Ret h -> rings_ok n h.
Proof.
  unfold Home.init.
  destruct (get KEEGAN_TO_COORD k) as [c| |]; [|done|done]. cbn [bind].
  destruct (mapM _ (seq 0 n)) as [dist_to| |] eqn:E; [|done|done]. cbn [bind].
  intros [= <-]. apply mapM_Ret_Forall2, Forall2_length in E.
  rewrite length_seq in E. rewrite <- E.
  assert (forall z : Z, Forall (fun k => (k < n)%nat)
            (filter (fun i => dist_to !! i = Some z) (seq 0 n))) as Hf.
  { intros z. apply Forall_forall. intros j Hj.
    apply list_elem_of_filter in Hj as [_ Hj]. apply elem_of_seq in Hj. lia. }
  split; [|by split]. eexists _, _. cbn. repeat split; apply Hf.
Qed.

Lemma initialize_rings (n : nat) (h h' : Home.t) (all_homes : list Home.t) :
  rings_ok n h -> Home.initialize_hop2_tile_lists h all_homes = Ret h' ->
  rings_ok n h'.
Proof.
  intros ((hop1 & hop2 & E1 & E2 & H1 & H2) & _ & _).
  unfold Home.initialize_hop2_tile_lists.
  destruct (Home.others h all_homes) as [oth| |]; [|done|done]. cbn [bind].
  unfold get. rewrite E2. cbn [bind]. intros [= <-]. cbn.
  split; [by exists hop1, hop2|]. split.
  - apply Forall_forall. intros k Hk. apply list_elem_of_filter in Hk as [_ Hk].
    by apply (proj1 (Forall_forall _ _) H2).
  - apply Forall_forall. intros k Hk. apply list_elem_of_filter in Hk as [_ Hk].
    by apply (proj1 (Forall_forall _ _) H2).
Qed.

Lemma rings_home_ok (n : nat) (h : Home.t) : rings_ok n h -> home_ok n h.
Proof. intros ((hop1 & hop2 & E1 & _ & H1 & _) & ? & ?). split; [by exists hop1 | done]. Qed.

(** A board that [Board.init] returns with 2 to 61 tiles satisfies the
    invariant. *)
Lemma init_board_ok (board : list Z) (num_homes : Z) (ds ds' : list Z)
      (b : Board.t) :
  Board.init G board num_homes ds = (Ret b, ds') ->
  (2 <= Board.num_tiles b <= 61)%nat ->
  board_ok G b.
Proof.
  unfold Board.init, rbind at 1.
  destruct (match board with
            | [] => Board.generate_random_board G num_homes
            | _ :: _ => rret board
            end ds) as [[tiles| |] ds1]; [|done|done].
  unfold rbind, lift.
  destruct (filterM _ (seq 0 (length tiles))) as [home_keegan| |] eqn:Ef;
    [|done|done].
  destruct (mapM _ (seq 0 (length home_keegan))) as [homes0| |] eqn:Em;
    [|done|done].
  destruct (foldM _ homes0 (seq 0 (length home_keegan))) as [homes1| |] eqn:Ei;
    [|done|done].
  set (self := Board.update_unused G _).
  destruct (Board.update_stats G self) as [b'| |] eqn:Eu; [|done|done].
  intros [= -> ->] Hsize.
  destruct (board_update_frame G self b Eu) as [(Hu & Hn & Ht & Hh) Htiles].
  cbn in Hu, Hn, Ht, Hh, Htiles.
  assert (tiles_known G tiles) as Hknown.
  { apply Forall_lookup. intros i t Hi.
    destruct (filterM_Ret_inv _ _ _ Ef i) as [v Hv].
    { apply elem_of_seq. apply lookup_lt_Some in Hi. lia. }
    unfold get in Hv. rewrite Hi in Hv. cbn in Hv. by eapply is_home_Ret_known. }
  assert (Forall (rings_ok (length tiles)) homes0) as Hr0.
  { apply mapM_Ret_Forall2 in Em. clear -Em.
    induction Em as [|i h l l' E _ IH]; [done|]. constructor; [|done].
    destruct (get home_keegan i) as [k| |]; [|done|done]. cbn in E.
    by eapply home_init_rings. }
  assert (length homes0 = length home_keegan) as Hl0.
  { apply mapM_Ret_Forall2, Forall2_length in Em. by rewrite length_seq in Em. }
  assert (Forall (rings_ok (length tiles)) homes1 /\ length homes1 = length homes0)
    as [Hr1 Hl1].
  { revert Ei. apply (foldM_preserves
      (fun hs => Forall (rings_ok (length tiles)) hs /\ length hs = length homes0));
      [|done].
    intros hs i hs' [Hhs Hlen].
    destruct (get hs i) as [h| |] eqn:Eg; [|done|done]. cbn [bind].
    destruct (Home.initialize_hop2_tile_lists h hs) as [h'| |] eqn:Eh;
      [|done|done]. cbn [bind].
    unfold set. case_decide; [|done]. intros [= <-]. split.
    - apply Forall_insert; [done|]. eapply initialize_rings; [|done].
      unfold get in Eg. destruct (hs !! i) as [h0|] eqn:E0; [|done].
      injection Eg as ->.
      by apply (proj1 (Forall_forall _ _) Hhs h), (list_elem_of_lookup_2 _ i).
    - by rewrite length_insert. }
  split.
  - by rewrite Htiles, <- Ht.
  - done.
  - by rewrite Htiles.
  - rewrite <- Hn. cbn. rewrite <- (Forall2_length _ _ _ Hh). cbn. lia.
  - rewrite <- Ht. cbn. clear -Hh Hr1.
    induction Hh as [|h h' l l' Hs _ IH]; [done|].
    apply Forall_cons in Hr1 as [H1 H2].
    constructor; [|by apply IH].
    eapply home_ok_static; [done|]. by apply rings_home_ok.
  - unfold Board.update_unused, Board.with_unused. clear Eu self.
    destruct b as [bt bu bh bnh bnt]. cbn in *. by subst.
  - by eapply board_update_fresh.
Qed.

End Construction.

Lemma forallb_Forall_lt (n : nat) (l : list nat) :
  forallb (fun k => bool_decide (k < n)%nat) l = true ->
  Forall (fun k => (k < n)%nat) l.
Proof.
  rewrite forallb_forall. intros H. apply Forall_forall. intros k Hk.
  apply list_elem_of_In, H in Hk. by apply bool_decide_eq_true in Hk.
Qed.

Lemma board_check_sound (G : Globals) (b : Board.t) :
  board_check G b = true ->
  Board.update_unused G b = b ->
  Board.update_stats G b = Ret b ->
  board_ok G b.
Proof.
  unfold board_check. rewrite !andb_true_iff, !bool_decide_eq_true.
  intros ((((H1 & H2) & H3) & H4) & H5) Hu Hs. split; try done.
  - by apply tiles_known_check.
  - rewrite forallb_forall in H5. apply Forall_forall. intros h Hh.
    apply list_elem_of_In, H5 in Hh. unfold home_check in Hh.
    rewrite !andb_true_iff in Hh. destruct Hh as ((Ha & Hb) & Hc).
    split; [|split; by apply forallb_Forall_lt].
    destruct (Home.hop h !! 1%nat) as [hop1|]; [|done].
    exists hop1. split; [done|]. by apply forallb_Forall_lt.
Qed.

(** ** Optimisation *)


Lemma nonhome_check_sound (G : Globals) : nonhome_check G = true -> nonhome_ok G.
Proof.
  unfold nonhome_check. rewrite forallb_forall. intros H t Ht.
  apply list_elem_of_In, H, andb_true_iff in Ht as [Hz Ht].
  apply bool_decide_eq_true in Hz. unfold is_home, item.
  rewrite decide_False by done.
  destruct (TILES G !! t) as [tile|]; [|done]. cbn.
  apply bool_decide_eq_true in Ht. rewrite Ht.
  by rewrite bool_decide_eq_false_2 by (intros H'; by apply H').
Qed.


(** That run returns: three rounds on the duel board bring
    the imbalance from 443/4 down to 27/4 and use all but one of the draws. *)
Lemma optimize_duel_run :
  exists r b',
    Board.optimize (Examples.small (Examples.no_flags 2)) Examples.duel 3
                   Examples.duel_draws
    = (Ret (r, b'), [9])
    /\ (r == 27 # 4)%Q
    /\ Board.tiles b' = [18; 0; 19; 25; 0; 21; 22]
    /\ (exists v, Board.get_imbalance Examples.duel = Ret v /\ (v == 443 # 4)%Q).
Proof.
  eexists _, _. split; [by vm_compute|]. split; [by vm_compute|].
  split; [by vm_compute|]. eexists. split; by vm_compute.
Qed.

(** C10.  On a well-formed board, [improve] never raises, and unless its
    selection loop uses up the draws it returns a board whose tile list has the
    length of the original and agrees with it outside the selected
    positions, of which there are [FLAGS.shuffle], all distinct, none of
    them position 0, each holding at selection time a tile that is neither
    a home nor locked; a home tile is at a position after the call exactly
    when it was there before, and the homes keep their index and position. *)
Theorem improve_frame (G : Globals) (b : Board.t) (ds : list Z) :
  nonhome_ok G -> board_ok G b ->
  match Board.improve G b ds with
  | (Ret b', ds') =>
      exists shuffle_keegan,
        Board.pick_all G b (shuffle (FLAGS G)) [] ds = (Ret shuffle_keegan, ds')
        /\ length shuffle_keegan = shuffle (FLAGS G)
        /\ NoDup shuffle_keegan
        /\ (forall k, k ∈ shuffle_keegan ->
                      k <> 0%nat
                      /\ exists t, Board.tiles b !! k = Some t
                                   /\ is_home G t = Ret false
                                   /\ ~ locked G t)
        /\ length (Board.tiles b') = length (Board.tiles b)
        /\ (forall p, p ∉ shuffle_keegan ->
                      Board.tiles b' !! p = Board.tiles b !! p)
        /\ (forall p t, is_home G t = Ret true ->
                        Board.tiles b' !! p = Some t <-> Board.tiles b !! p = Some t)
        /\ Forall2 (fun h h' => Home.index h = Home.index h'
                                 /\ Home.keegan h = Home.keegan h')
                    (Board.homes b) (Board.homes b')
  | (Raise _, _) => False
  | (Starved, ds') => ds' = []
  end.
Proof.
  intros Hcat Hok. pose proof (improve_spec G b ds Hcat Hok) as H.
  destruct (Board.improve G b ds) as [[b'| |] ds']; [|done|by destruct H].
  destruct H as (ks & v & v' & Hpick & Hnd & Hlen & Hsel & (Hl & Hout & Hin)
                 & _ & Hhomes & _).
  exists ks. split; [done|]. split; [done|]. split; [done|]. split.
  { intros k Hk.
    destruct (proj1 (Forall_forall _ _) Hsel k Hk) as ([Hk1 _] & t & Ht & Hp & Hnl).
    split; [lia|]. by exists t. }
  split; [done|]. split; [done|]. split.
  - intros p t Hhome. destruct (decide (p ∈ ks)) as [Hp|Hp].
    + split; intros Ht; exfalso.
      * pose proof (Hin p t Hp Ht) as Hpl. unfold placeable in Hpl. congruence.
      * destruct (proj1 (Forall_forall _ _) Hsel p Hp) as (_ & t' & Ht' & Hpl & _).
        unfold placeable in Hpl. congruence.
    + by rewrite Hout.
  - eapply Forall2_impl; [done|]. by intros h h' (? & ? & _).
Qed.

Lemma improve_frame_witness :
  match Board.improve (Examples.small (Examples.no_flags 2)) Examples.duel
                      Examples.duel_draws with
  | (Ret b', ds') =>
      exists shuffle_keegan,
        Board.pick_all (Examples.small (Examples.no_flags 2)) Examples.duel
                       (shuffle (FLAGS (Examples.small (Examples.no_flags 2))))
                       [] Examples.duel_draws = (Ret shuffle_keegan, ds')
        /\ length shuffle_keegan
           = shuffle (FLAGS (Examples.small (Examples.no_flags 2)))
        /\ NoDup shuffle_keegan
        /\ (forall k, k ∈ shuffle_keegan ->
                      k <> 0%nat
                      /\ exists t, Board.tiles Examples.duel !! k = Some t
                                   /\ is_home (Examples.small (Examples.no_flags 2)) t
                                      = Ret false
                                   /\ ~ locked (Examples.small (Examples.no_flags 2)) t)
        /\ length (Board.tiles b') = length (Board.tiles Examples.duel)
        /\ (forall p, p ∉ shuffle_keegan ->
                      Board.tiles b' !! p = Board.tiles Examples.duel !! p)
        /\ (forall p t, is_home (Examples.small (Examples.no_flags 2)) t = Ret true ->
                        Board.tiles b' !! p = Some t
                        <-> Board.tiles Examples.duel !! p = Some t)
        /\ Forall2 (fun h h' => Home.index h = Home.index h'
                                 /\ Home.keegan h = Home.keegan h')
                    (Board.homes Examples.duel) (Board.homes b')
  | (Raise _, _) => False
  | (Starved, ds') => ds' = []
  end.
Proof.
  apply (improve_frame (Examples.small (Examples.no_flags 2)) Examples.duel
                       Examples.duel_draws).
  - apply nonhome_check_sound. by vm_compute.
  - apply board_check_sound; by vm_compute.
Defined.

(** That step returns: the positions selected are 2 and 3, and
    the step replaces system 20 at position 3 by the anomaly 25. *)
Lemma improve_duel_run :
  exists b',
    Board.improve (Examples.small (Examples.no_flags 2)) Examples.duel
                  Examples.duel_draws
    = (Ret b', [2; 4; 5; 1; 9])
    /\ Board.pick_all (Examples.small (Examples.no_flags 2)) Examples.duel 2 []
                      Examples.duel_draws
       = (Ret [2; 3]%nat, [2; 4; 5; 1; 9])
    /\ Board.tiles Examples.duel = [18; 0; 19; 20; 0; 21; 22]
    /\ Board.tiles b' = [18; 0; 19; 25; 0; 21; 22].
Proof.
  eexists. split; [by vm_compute|]. split; [by vm_compute|].
  split; by vm_compute.
Qed.

(** * Further properties *)

(** ** Distances *)

Lemma cube_distance_sym (x y : Cube) : cube_distance x y = cube_distance y x.
Proof.
  destruct x as [[x0 x1] x2], y as [[y0 y1] y2]. unfold cube_distance.
  assert (forall a b, Z.abs (a - b) = Z.abs (b - a)) as E by lia.
  by rewrite (E x0 y0), (E x1 y1), (E x2 y2).
Qed.

Lemma cube_distance_zero (x y : Cube) : cube_distance x y = 0 <-> x = y.
Proof.
  destruct x as [[x0 x1] x2], y as [[y0 y1] y2]. unfold cube_distance. split.
  - intros H. f_equal; [f_equal|]; lia.
  - intros ?; simplify_eq; lia.
Qed.

(** X1.  [cube_distance] is a metric on coordinates: it is zero exactly
    between equal coordinates, symmetric, and satisfies the triangle
    inequality; the ring number of a coordinate is its distance to the
    centre; adding a coordinate to both arguments does not change the
    distance. *)
Theorem cube_distance_metric (x y z : Cube) :
  (cube_distance x y = 0 <-> x = y)
  /\ cube_distance x y = cube_distance y x
  /\ cube_distance x z <= cube_distance x y + cube_distance y z
  /\ cube_ring_number x = cube_distance x (0, 0, 0)
  /\ cube_distance (cube_add x z) (cube_add y z) = cube_distance x y.
Proof.
  split; [apply cube_distance_zero|]. split; [apply cube_distance_sym|].
  destruct x as [[x0 x1] x2], y as [[y0 y1] y2], z as [[z0 z1] z2].
  unfold cube_distance, cube_ring_number, cube_add.
  split; [|split].
  - pose proof (Z.abs_triangle (x0 - y0) (y0 - z0)) as H0.
    pose proof (Z.abs_triangle (x1 - y1) (y1 - z1)) as H1.
    pose proof (Z.abs_triangle (x2 - y2) (y2 - z2)) as H2.
    replace (x0 - y0 + (y0 - z0)) with (x0 - z0) in H0 by ring.
    replace (x1 - y1 + (y1 - z1)) with (x1 - z1) in H1 by ring.
    replace (x2 - y2 + (y2 - z2)) with (x2 - z2) in H2 by ring.
    revert H0 H1 H2.
    generalize (Z.abs (x0 - z0)) (Z.abs (x1 - z1)) (Z.abs (x2 - z2))
               (Z.abs (x0 - y0)) (Z.abs (x1 - y1)) (Z.abs (x2 - y2))
               (Z.abs (y0 - z0)) (Z.abs (y1 - z1)) (Z.abs (y2 - z2)).
    intros. lia.
  - by rewrite !Z.sub_0_r.
  - by replace (x0 + z0 - (y0 + z0)) with (x0 - y0) by ring;
      replace (x1 + z1 - (y1 + z1)) with (x1 - y1) by ring;
      replace (x2 + z2 - (y2 + z2)) with (x2 - y2) by ring.
Qed.

(** Among the coordinates whose components sum to zero, those at distance
    1 of a coordinate are its six neighbours. *)
Lemma distance_one_neighbor (x y : Cube) :
  sum_zero x -> sum_zero y ->
  (cube_distance x y = 1 <-> exists offset, offset ∈ NEIGHBORS /\ y = cube_add x offset).
Proof.
  destruct x as [[x0 x1] x2], y as [[y0 y1] y2].
  unfold sum_zero, cube_distance, cube_add, NEIGHBORS. cbn. intros Hx Hy. split.
  - intros H.
    assert ((y0 - x0, y1 - x1, y2 - x2) ∈ NEIGHBORS) as Hin.
    { unfold NEIGHBORS.
      assert (y0 - x0 = 1 \/ y0 - x0 = 0 \/ y0 - x0 = -1) as H0 by lia.
      assert (y1 - x1 = 1 \/ y1 - x1 = 0 \/ y1 - x1 = -1) as H1 by lia.
      rewrite !elem_of_cons.
      destruct H0 as [E0|[E0|E0]], H1 as [E1|[E1|E1]];
        try lia; rewrite E0, E1;
        replace (y2 - x2) with (- (y0 - x0) - (y1 - x1)) by lia;
        rewrite E0, E1; cbn; tauto. }
    eexists. split; [exact Hin|]. cbn. f_equal; [f_equal|]; lia.
  - intros ([[o0 o1] o2] & Hin & [= -> -> ->]).
    rewrite !elem_of_cons in Hin.
    destruct Hin as [E|[E|[E|[E|[E|[E|E]]]]]];
      [injection E as -> -> -> ..|by apply elem_of_nil in E]; lia.
Qed.

(** ** Rings of any radius *)

Section RingWalk.

Lemma cube_add_scale_succ (c side : Cube) (k : nat) :
  cube_add (cube_add c (cube_scale (Z.of_nat k) side)) side
  = cube_add c (cube_scale (Z.of_nat (S k)) side).
Proof.
  destruct c as [[c0 c1] c2], side as [[s0 s1] s2].
  unfold cube_add, cube_scale. cbn [fst snd]. f_equal; [f_equal|]; lia.
Qed.

Lemma cube_add_scale_0 (c side : Cube) : cube_add c (cube_scale 0 side) = c.
Proof.
  destruct c as [[c0 c1] c2], side as [[s0 s1] s2].
  unfold cube_add, cube_scale. cbn [fst snd]. f_equal; [f_equal|]; lia.
Qed.

(** One side of the walk lists the coordinates reached after
    [0 .. n-1] steps and leaves the walker [n] steps further. *)
Lemma ring_side_explicit (n : nat) (side : Cube) (st : list Cube * Cube) :
  ring_side n st side
  = (st.1 ++ map (fun k => cube_add st.2 (cube_scale (Z.of_nat k) side)) (seq 0 n),
     cube_add st.2 (cube_scale (Z.of_nat n) side)).
Proof.
  unfold ring_side. induction n as [|n IH].
  - cbn. by rewrite app_nil_r, cube_add_scale_0, <- surjective_pairing.
  - rewrite Nat.iter_succ, IH. unfold ring_step. cbn [fst snd].
    rewrite seq_S, map_app, app_assoc, cube_add_scale_succ. done.
Qed.

(** The six sides of the ring of radius [n], with their start corners. *)
Lemma cube_ring_explicit (n : Z) :
  0 < n ->
  cube_ring n
  = map (fun k : nat => (Z.of_nat k, - n, n - Z.of_nat k)) (seq 0 (Z.to_nat n))
    ++ map (fun k : nat => (n, Z.of_nat k - n, - Z.of_nat k)) (seq 0 (Z.to_nat n))
    ++ map (fun k : nat => (n - Z.of_nat k, Z.of_nat k, - n)) (seq 0 (Z.to_nat n))
    ++ map (fun k : nat => (- Z.of_nat k, n, Z.of_nat k - n)) (seq 0 (Z.to_nat n))
    ++ map (fun k : nat => (- n, n - Z.of_nat k, Z.of_nat k)) (seq 0 (Z.to_nat n))
    ++ map (fun k : nat => (Z.of_nat k - n, - Z.of_nat k, n)) (seq 0 (Z.to_nat n)).
Proof.
  intros Hn. unfold cube_ring. rewrite decide_False by lia.
  unfold NEIGHBORS. cbn [foldl]. rewrite !ring_side_explicit. cbn [fst snd].
  rewrite Z2Nat.id by lia. rewrite app_nil_l, <- !app_assoc.
  repeat (f_equal; [apply map_ext; intros k; unfold cube_add, cube_scale;
                    cbn [fst snd]; f_equal; [f_equal|]; lia |]).
  apply map_ext; intros k; unfold cube_add, cube_scale;
    cbn [fst snd]; f_equal; [f_equal|]; lia.
Qed.

End RingWalk.

Section RingFacts.

Lemma elem_of_map_seq {A} (f : nat -> A) (n : nat) (x : A) :
  x ∈ map f (seq 0 n) <-> exists k, (k < n)%nat /\ x = f k.
Proof.
  rewrite list_elem_of_In, in_map_iff. split.
  - intros (k & <- & Hk). apply in_seq in Hk. exists k. split; [lia | done].
  - intros (k & Hk & ->). exists k. split; [done|]. apply in_seq. lia.
Qed.

Lemma NoDup_map_seq {A} (f : nat -> A) (n : nat) :
  (forall i j, (i < n)%nat -> (j < n)%nat -> f i = f j -> i = j) ->
  NoDup (map f (seq 0 n)).
Proof.
  intros Hinj. apply (NoDup_fmap_2_strong f); [|apply NoDup_seq].
  intros i j Hi Hj. apply elem_of_seq in Hi, Hj. apply Hinj; lia.
Qed.

(** Every coordinate of a ring lies at the ring's distance of the
    centre. *)
Lemma cube_ring_number_ring (n : Z) (c : Cube) :
  c ∈ cube_ring n -> cube_ring_number c = Z.max n 0.
Proof.
  destruct (decide (n <= 0)) as [Hn|Hn].
  - unfold cube_ring. rewrite decide_True by done.
    intros ->%list_elem_of_singleton. cbn. lia.
  - rewrite cube_ring_explicit by lia. rewrite !elem_of_app, !elem_of_map_seq.
    intros [H|[H|[H|[H|[H|H]]]]]; destruct H as (k & Hk & ->);
      unfold cube_ring_number; lia.
Qed.

Lemma cube_ring_NoDup (n : Z) : NoDup (cube_ring n).
Proof.
  destruct (decide (n <= 0)) as [Hn|Hn].
  - unfold cube_ring. rewrite decide_True by done. apply NoDup_singleton.
  - rewrite cube_ring_explicit by lia.
    repeat (apply NoDup_app; split;
            [apply NoDup_map_seq; intros i j Hi Hj ?; simplify_eq; lia
            |split;
             [intros c Hc;
              rewrite ?elem_of_app, !elem_of_map_seq;
              apply elem_of_map_seq in Hc as (k & Hk & ->);
              intros H;
              repeat (destruct H as [H|H]);
              destruct H as (k' & Hk' & ?); simplify_eq; lia
             |]]).
    apply NoDup_map_seq; intros i j Hi Hj ?; simplify_eq; lia.
Qed.

Lemma rings_NoDup (rings : nat) :
  NoDup (flat_map (fun ring => cube_ring (Z.of_nat ring)) (seq 0 rings)).
Proof.
  induction rings as [|m IH]; [constructor|].
  rewrite seq_S, flat_map_app. cbn [flat_map]. rewrite app_nil_r.
  apply NoDup_app. split; [done|]. split; [|apply cube_ring_NoDup].
  intros c Hc Hc'. apply cube_ring_number_ring in Hc'.
  apply list_elem_of_In, in_flat_map in Hc as (r & Hr & Hc).
  apply in_seq in Hr. apply list_elem_of_In, cube_ring_number_ring in Hc. lia.
Qed.

Lemma rings_length (m : nat) :
  length (flat_map (fun ring => cube_ring (Z.of_nat ring)) (seq 0 (S m)))
  = hex_count m.
Proof.
  unfold hex_count. induction m as [|m IH]; [done|].
  rewrite seq_S, flat_map_app, length_app, IH. cbn [flat_map Nat.add].
  rewrite app_nil_r. destruct (cube_ring_shape (Z.of_nat (S m))) as [-> _]; lia.
Qed.

End RingFacts.

(** X2.  For every radius [n], the coordinates of [cube_ring(n)] are
    pairwise distinct and lie at ring number [n] (0 for a radius that is
    not positive); hence for any number of rings the concatenation of the
    rings [0 .. m], of which [KEEGAN_TO_COORD] is the case [m = MAX_RINGS],
    lists [1 + 3 m (m + 1)] pairwise distinct coordinates. *)
Theorem rings_partition_the_grid :
  (forall (n : Z) (c : Cube), c ∈ cube_ring n -> cube_ring_number c = Z.max n 0)
  /\ (forall n : Z, NoDup (cube_ring n))
  /\ (forall m : nat,
        NoDup (flat_map (fun ring => cube_ring (Z.of_nat ring)) (seq 0 (S m)))
        /\ length (flat_map (fun ring => cube_ring (Z.of_nat ring)) (seq 0 (S m)))
           = hex_count m)
  /\ KEEGAN_TO_COORD
     = flat_map (fun ring => cube_ring (Z.of_nat ring)) (seq 0 (S MAX_RINGS)).
Proof.
  split; [apply cube_ring_number_ring|]. split; [apply cube_ring_NoDup|].
  split; [|by rewrite <- Nat.add_1_r].
  intros m. split; [apply rings_NoDup | apply rings_length].
Qed.

Lemma rings_partition_the_grid_witness :
  cube_ring_number (2, -1, -1) = Z.max 2 0.
Proof.
  apply (proj1 rings_partition_the_grid 2 (2, -1, -1)).
  apply (bool_decide_eq_true_1 (_ ∈ _)). by vm_compute.
Defined.

(** ** Adjacency *)

Lemma coord_to_keegan_inverse (k : nat) (c : Cube) :
  KEEGAN_TO_COORD !! k = Some c <-> COORD_TO_KEEGAN !! c = Some k.
Proof.
  unfold COORD_TO_KEEGAN. rewrite lookup_foldl_insert.
  - rewrite lookup_empty. split.
    + intros H. left. apply list_elem_of_lookup. exists k.
      apply lookup_zip_with_Some. exists k, c. repeat split; [|done].
      apply lookup_seq. split; [done|]. by apply lookup_lt_Some in H.
    + intros [H|H]; [|done].
      apply list_elem_of_lookup in H as [i H].
      apply lookup_zip_with_Some in H as (k' & c' & E & Hk & Hc).
      apply lookup_seq in Hk as [-> _]. by inversion E; subst.
  - rewrite snd_zip; [apply KEEGAN_TO_COORD_NoDup|]. by rewrite length_seq.
  - intros; apply lookup_empty.
Qed.

Lemma KEEGAN_TO_COORD_sum_zero (k : nat) (c : Cube) :
  KEEGAN_TO_COORD !! k = Some c -> sum_zero c.
Proof.
  intros H. apply list_elem_of_lookup_2, list_elem_of_In in H.
  unfold KEEGAN_TO_COORD in H. apply in_flat_map in H as (r & _ & H).
  apply list_elem_of_In in H.
  exact (proj1 (Forall_forall _ _) (cube_ring_sum_zero _) c H).
Qed.

Lemma KEEGAN_ADJACENT_lookup (k : nat) (adj : list nat) :
  KEEGAN_ADJACENT !! k = Some adj <->
  exists c, KEEGAN_TO_COORD !! k = Some c /\ adj = adjacent_of c.
Proof.
  unfold KEEGAN_ADJACENT.
  change (map adjacent_of KEEGAN_TO_COORD) with (adjacent_of <$> KEEGAN_TO_COORD).
  rewrite list_lookup_fmap_Some. split; intros (c & ? & ?); by exists c.
Qed.

Lemma elem_of_adjacent_of (k j : nat) (c : Cube) :
  KEEGAN_TO_COORD !! k = Some c ->
  (j ∈ adjacent_of c <->
   exists c', KEEGAN_TO_COORD !! j = Some c' /\ cube_distance c c' = 1).
Proof.
  intros Hk. pose proof (KEEGAN_TO_COORD_sum_zero k c Hk) as Hc.
  unfold adjacent_of. rewrite list_elem_of_omap. split.
  - intros (offset & Hin & Hj). apply coord_to_keegan_inverse in Hj.
    exists (cube_add c offset). split; [done|].
    apply distance_one_neighbor; [done | by eapply KEEGAN_TO_COORD_sum_zero |].
    by exists offset.
  - intros (c' & Hj & Hd).
    apply distance_one_neighbor in Hd as (offset & Hin & ->);
      [| done | by eapply KEEGAN_TO_COORD_sum_zero].
    exists offset. split; [done|]. by apply coord_to_keegan_inverse.
Qed.

(** X3.  The neighbours listed for a position are exactly the positions
    of the table at distance 1 of it; so adjacency is symmetric and no
    position is its own neighbour; a position has at most six neighbours,
    listed once each. *)
Theorem adjacency_is_distance_one (k j : nat) (adj : list nat) :
  KEEGAN_ADJACENT !! k = Some adj ->
  (j ∈ adj <->
   exists c c', KEEGAN_TO_COORD !! k = Some c /\ KEEGAN_TO_COORD !! j = Some c'
                /\ cube_distance c c' = 1)
  /\ (j ∈ adj -> exists adj', KEEGAN_ADJACENT !! j = Some adj' /\ k ∈ adj')
  /\ (k ∉ adj)
  /\ NoDup adj
  /\ (length adj <= 6)%nat.
Proof.
  intros Hadj. pose proof Hadj as (c & Hk & ->)%KEEGAN_ADJACENT_lookup.
  assert (j ∈ adjacent_of c <->
          exists c c', KEEGAN_TO_COORD !! k = Some c /\ KEEGAN_TO_COORD !! j = Some c'
                       /\ cube_distance c c' = 1) as Hiff.
  { rewrite (elem_of_adjacent_of k j c Hk). split.
    - intros (c' & ? & ?). by exists c, c'.
    - intros (c0 & c' & E & ? & ?). rewrite Hk in E. injection E as <-. by exists c'. }
  split; [done|]. split; [|split; [|split]].
  - intros (c' & Hj & Hd)%(elem_of_adjacent_of k j c Hk).
    exists (adjacent_of c'). split; [apply KEEGAN_ADJACENT_lookup; by exists c'|].
    apply (elem_of_adjacent_of j k c' Hj). exists c. split; [done|].
    by rewrite cube_distance_sym.
  - intros (c' & Hk' & Hd)%(elem_of_adjacent_of k k c Hk).
    rewrite Hk in Hk'. injection Hk' as <-.
    pose proof (proj2 (cube_distance_zero c c) eq_refl). lia.
  - assert (Forall (fun adj => NoDup adj) KEEGAN_ADJACENT) as H.
    { apply (bool_decide_eq_true_1 (Forall _ _)). by vm_compute. }
    exact (proj1 (Forall_forall _ _) H _ (list_elem_of_lookup_2 _ _ _ Hadj)).
  - assert (Forall (fun adj => (length adj <= 6)%nat) KEEGAN_ADJACENT) as H.
    { apply (bool_decide_eq_true_1 (Forall _ _)). by vm_compute. }
    exact (proj1 (Forall_forall _ _) H _ (list_elem_of_lookup_2 _ _ _ Hadj)).
Qed.

Lemma adjacency_is_distance_one_witness :
  (7%nat ∈ [2; 0; 6; 18; 7; 8]%nat <->
   exists c c', KEEGAN_TO_COORD !! 1%nat = Some c /\ KEEGAN_TO_COORD !! 7%nat = Some c'
                /\ cube_distance c c' = 1)
  /\ (7%nat ∈ [2; 0; 6; 18; 7; 8]%nat ->
      exists adj', KEEGAN_ADJACENT !! 7%nat = Some adj' /\ 1%nat ∈ adj')
  /\ (1%nat ∉ [2; 0; 6; 18; 7; 8]%nat)
  /\ NoDup [2; 0; 6; 18; 7; 8]%nat
  /\ (length [2; 0; 6; 18; 7; 8]%nat <= 6)%nat.
Proof.
  apply (adjacency_is_distance_one 1 7 [2; 0; 6; 18; 7; 8]%nat). by vm_compute.
Defined.

(** ** Accumulation of statistics *)

Section Accumulate.

Variable G : Globals.

Lemma update_unfold (s : HomeStats.t) (idx : list nat) (T : list Z) :
  HomeStats.update G s idx T = foldM (update_step G T) (HomeStats.reset s) idx.
Proof. reflexivity. Qed.

Lemma foldM_app {A S} (f : S -> A -> outcome S) (s : S) (l1 l2 : list A) :
  foldM f s (l1 ++ l2) = bind (foldM f s l1) (fun s1 => foldM f s1 l2).
Proof.
  revert s. induction l1 as [|x l1 IH]; intros s; cbn; [done|].
  destruct (f s x); cbn; [apply IH | done | done].
Qed.

Lemma iadd_add_planet (a x : HomeStats.t) (p : Planet) :
  HomeStats.add_planet (HomeStats.iadd a x) p
  = HomeStats.iadd a (HomeStats.add_planet x p).
Proof.
  unfold HomeStats.add_planet, HomeStats.iadd. cbn.
  f_equal; repeat case_decide; lia.
Qed.

Lemma iadd_add_tile (a x : HomeStats.t) (tile : Tile) :
  HomeStats.add_tile (HomeStats.iadd a x) tile
  = HomeStats.iadd a (HomeStats.add_tile x tile).
Proof.
  unfold HomeStats.add_tile.
  assert (foldl HomeStats.add_planet (HomeStats.iadd a x) (tile_planets tile)
          = HomeStats.iadd a (foldl HomeStats.add_planet x (tile_planets tile)))
    as ->.
  { generalize (tile_planets tile) as ps. intros ps. revert x.
    induction ps as [|p ps IH]; intros x; [done|].
    cbn. by rewrite iadd_add_planet, IH. }
  unfold HomeStats.iadd. cbn. f_equal; try lia.
  destruct (truthy (tile_skip tile)); [by rewrite app_assoc | done].
Qed.

Lemma update_step_iadd (T : list Z) (a x r : HomeStats.t) (k : nat) :
  update_step G T x k = Ret r ->
  update_step G T (HomeStats.iadd a x) k = Ret (HomeStats.iadd a r).
Proof.
  unfold update_step. destruct (get T k) as [t| |]; [|done|done]. cbn.
  destruct (is_home G t) as [[|]| |]; cbn; [| |done|done].
  - by intros [= <-].
  - destruct (item (TILES G) t) as [tile| |]; [|done|done]. cbn.
    intros [= <-]. by rewrite iadd_add_tile.
Qed.

Lemma foldM_update_iadd (T : list Z) (idx : list nat) (a x r : HomeStats.t) :
  foldM (update_step G T) x idx = Ret r ->
  foldM (update_step G T) (HomeStats.iadd a x) idx = Ret (HomeStats.iadd a r).
Proof.
  revert x. induction idx as [|k idx IH]; intros x; cbn.
  - by intros [= <-].
  - destruct (update_step G T x k) as [x'| |] eqn:E; [|done|done]. cbn.
    rewrite (update_step_iadd T a x x' k E). cbn. apply IH.
Qed.

Lemma iadd_reset (r s : HomeStats.t) :
  ring_kind r = ring_kind s -> HomeStats.iadd r (HomeStats.reset s) = r.
Proof.
  destruct r. unfold HomeStats.iadd, HomeStats.reset. cbn.
  rewrite !Z.add_0_r, app_nil_r. done.
Qed.

Lemma update_step_local (T T' : list Z) (x : HomeStats.t) (k : nat) :
  T !! k = T' !! k -> update_step G T x k = update_step G T' x k.
Proof. unfold update_step, get. by intros ->. Qed.

End Accumulate.

(** X4.  The statistics of a list of positions are the combination
    ([+=]) of the statistics of any two lists it splits into, and they
    depend on the tiles at the listed positions only. *)
Theorem update_splits (G : Globals) (s r1 r2 : HomeStats.t)
        (idx1 idx2 : list nat) (T T' : list Z) :
  HomeStats.update G s idx1 T = Ret r1 ->
  HomeStats.update G s idx2 T = Ret r2 ->
  (forall k, k ∈ idx1 ++ idx2 -> T !! k = T' !! k) ->
  HomeStats.update G s (idx1 ++ idx2) T = Ret (HomeStats.iadd r1 r2)
  /\ HomeStats.update G s (idx1 ++ idx2) T' = Ret (HomeStats.iadd r1 r2).
Proof.
  intros E1 E2 Hloc.
  assert (HomeStats.update G s (idx1 ++ idx2) T = Ret (HomeStats.iadd r1 r2)) as E.
  { rewrite update_unfold in *. rewrite foldM_app, E1. cbn.
    rewrite <- (iadd_reset r1 s) at 1.
    - by apply foldM_update_iadd.
    - rewrite <- update_unfold in E1. by eapply update_kind. }
  split; [done|]. rewrite <- E. rewrite !update_unfold.
  generalize (HomeStats.reset s) as x. revert Hloc.
  generalize (idx1 ++ idx2) as idx. intros idx.
  induction idx as [|k idx IH]; intros Hloc x; [done|]. cbn.
  rewrite (update_step_local G T T' x k) by (apply Hloc; left).
  destruct (update_step G T' x k); cbn; [|done|done].
  apply IH. intros j Hj. apply Hloc. by right.
Qed.

Lemma update_splits_witness :
  exists r1 r2,
    HomeStats.update (Examples.small (Examples.no_flags 2))
                     (Examples.empty_ring 1) [0; 2]%nat [18; 0; 19; 20; 0; 21; 22]
    = Ret r1
    /\ HomeStats.update (Examples.small (Examples.no_flags 2))
                        (Examples.empty_ring 1) [3]%nat [18; 0; 19; 20; 0; 21; 22]
       = Ret r2
    /\ HomeStats.update (Examples.small (Examples.no_flags 2))
                        (Examples.empty_ring 1) ([0; 2] ++ [3])%nat
                        [18; 0; 19; 20; 0; 26; 25]
       = Ret (HomeStats.iadd r1 r2).
Proof.
  eexists _, _. split; [by vm_compute|]. split; [by vm_compute|].
  apply (update_splits (Examples.small (Examples.no_flags 2))
                       (Examples.empty_ring 1) _ _ [0; 2]%nat [3]%nat
                       [18; 0; 19; 20; 0; 21; 22] [18; 0; 19; 20; 0; 26; 25]).
  - by vm_compute.
  - by vm_compute.
  - intros k Hk.
    repeat (apply elem_of_cons in Hk as [->|Hk]; [reflexivity|]).
    by apply elem_of_nil in Hk.
Defined.

Section Bounds.

Variable G : Globals.

Lemma add_planets_counts (x : HomeStats.t) (ps : list Planet) :
  let r := foldl HomeStats.add_planet x ps in
  HomeStats.worms r = HomeStats.worms x
  /\ HomeStats.anomalies r = HomeStats.anomalies x
  /\ HomeStats.planet_systems r = HomeStats.planet_systems x
  /\ HomeStats.skips r = HomeStats.skips x.
Proof.
  revert x. induction ps as [|p ps IH]; intros x; [done|].
  cbn. destruct (IH (HomeStats.add_planet x p)) as (-> & -> & -> & ->). done.
Qed.

Lemma add_tile_grows (x : HomeStats.t) (tile : Tile) :
  grows_by_one x (HomeStats.add_tile x tile).
Proof.
  unfold grows_by_one, HomeStats.add_tile. cbn.
  destruct (add_planets_counts x (tile_planets tile)) as (-> & -> & -> & ->).
  repeat split; repeat case_decide; try lia;
    destruct (truthy (tile_skip tile)); rewrite ?length_app; cbn; lia.
Qed.

Lemma add_planets_effective (x : HomeStats.t) (ps : list Planet) :
  Forall (fun p => 0 <= planet_resource p /\ 0 <= planet_influence p) ps ->
  effective_within x -> effective_within (foldl HomeStats.add_planet x ps).
Proof.
  intros Hps. revert x. induction Hps as [|p ps [Hr Hi] _ IH]; intros x Hx; [done|].
  cbn. apply IH. unfold effective_within, HomeStats.add_planet in *. cbn.
  repeat case_decide; lia.
Qed.

Lemma add_tile_effective (x : HomeStats.t) (tile : Tile) :
  Forall (fun p => 0 <= planet_resource p /\ 0 <= planet_influence p)
         (tile_planets tile) ->
  effective_within x -> effective_within (HomeStats.add_tile x tile).
Proof.
  intros Hps Hx. pose proof (add_planets_effective x _ Hps Hx) as H.
  unfold effective_within, HomeStats.add_tile in *. by cbn.
Qed.

Lemma update_step_Ret (T : list Z) (x r : HomeStats.t) (k : nat) :
  update_step G T x k = Ret r ->
  exists t, T !! k = Some t
            /\ ((is_home G t = Ret true /\ r = x)
                \/ (is_home G t = Ret false
                    /\ exists tile, TILES G !! t = Some tile
                                    /\ r = HomeStats.add_tile x tile)).
Proof.
  unfold update_step, get, item. destruct (T !! k) as [t|]; [|done]. cbn.
  intros H. exists t. split; [done|].
  destruct (is_home G t) as [[|]| |]; cbn in H; [| |done|done].
  - left. split; [done|]. by injection H.
  - right. split; [done|]. destruct (TILES G !! t) as [tile|]; [|done].
    exists tile. split; [done|]. by injection H.
Qed.

Lemma foldM_update_bounded (T : list Z) (idx : list nat) (x r : HomeStats.t) :
  foldM (update_step G T) x idx = Ret r ->
  (HomeStats.worms x <= HomeStats.worms r
   <= HomeStats.worms x + Z.of_nat (length idx))
  /\ (HomeStats.anomalies x <= HomeStats.anomalies r
      <= HomeStats.anomalies x + Z.of_nat (length idx))
  /\ (HomeStats.planet_systems x <= HomeStats.planet_systems r
      <= HomeStats.planet_systems x + Z.of_nat (length idx))
  /\ (length (HomeStats.skips x) <= length (HomeStats.skips r)
      <= length (HomeStats.skips x) + length idx)%nat
  /\ (planets_nonneg G -> effective_within x -> effective_within r)
  /\ ((forall k, k ∈ idx ->
                 exists t, T !! k = Some t /\ is_home G t = Ret true) ->
      r = x).
Proof.
  revert x. induction idx as [|k idx IH]; intros x; cbn [foldM].
  - intros [= <-]. cbn [length]. split_and!; try lia; auto.
  - destruct (update_step G T x k) as [x'| |] eqn:E; [|done|done]. cbn [bind].
    intros Hr. destruct (IH x' Hr) as (H1 & H2 & H3 & H4 & H5 & H6).
    apply update_step_Ret in E as (t & Ht & [[Hh ->]|(Hh & tile & Htile & ->)]).
    + cbn [length]. split_and!; try lia; [done|].
      intros Hall. apply H6. intros j Hj. apply Hall. by right.
    + destruct (add_tile_grows x tile) as (G1 & G2 & G3 & G4).
      cbn [length]. split_and!; try lia.
      * intros Hnn Hx. apply H5; [done|]. apply add_tile_effective; [|done].
        apply Forall_forall. intros p Hp. by eapply Hnn.
      * intros Hall. destruct (Hall k) as (t' & Ht' & Hh'); [left|].
        congruence.
Qed.

End Bounds.

(** X5.  The statistics that [update] computes over a list of positions
    keep the hop and sub-category of the object; the numbers of wormholes,
    anomalies, planet systems and skips lie between 0 and the number of
    positions; when no planet of the catalogue has a negative value, the
    effective resource (with the ties) is at most the resource and the
    effective influence at most the influence; and positions that hold home
    tiles contribute nothing. *)
Theorem update_bounds (G : Globals) (s r : HomeStats.t) (idx : list nat)
        (T : list Z) :
  HomeStats.update G s idx T = Ret r ->
  ring_kind r = ring_kind s
  /\ 0 <= HomeStats.worms r <= Z.of_nat (length idx)
  /\ 0 <= HomeStats.anomalies r <= Z.of_nat (length idx)
  /\ 0 <= HomeStats.planet_systems r <= Z.of_nat (length idx)
  /\ (length (HomeStats.skips r) <= length idx)%nat
  /\ (planets_nonneg G -> effective_within r)
  /\ ((forall k, k ∈ idx -> exists t, T !! k = Some t /\ is_home G t = Ret true) ->
      r = HomeStats.reset s).
Proof.
  intros E. split; [by eapply update_kind|].
  rewrite update_unfold in E.
  destruct (foldM_update_bounded G T idx _ r E) as (H1 & H2 & H3 & H4 & H5 & H6).
  cbn in H1, H2, H3, H4. split_and!; try lia; [|done].
  intros Hnn. apply H5; [done|]. unfold effective_within. cbn. lia.
Qed.

Lemma update_bounds_witness :
  exists r,
    HomeStats.update (Examples.small (Examples.no_flags 2))
                     (Examples.empty_ring 1) [0; 1; 2; 3]%nat
                     [18; 0; 19; 20; 0; 21; 22] = Ret r
    /\ 0 <= HomeStats.worms r <= 4
    /\ (length (HomeStats.skips r) <= 4)%nat.
Proof.
  eexists. split; [by vm_compute|].
  destruct (update_bounds (Examples.small (Examples.no_flags 2))
              (Examples.empty_ring 1) _ [0; 1; 2; 3]%nat
              [18; 0; 19; 20; 0; 21; 22] eq_refl) as (_ & H1 & _ & _ & H2 & _).
  split; [exact H1 | exact H2].
Defined.


(** ** Differences of statistics *)

Section Difference.

Lemma inject_abs_zero (z : Z) : (inject_Z (Z.abs z) == 0)%Q -> z = 0.
Proof.
  change 0%Q with (inject_Z 0). rewrite inject_Z_injective. lia.
Qed.

Lemma inject_abs_sym (a b : Z) :
  inject_Z (Z.abs (a - b)) = inject_Z (Z.abs (b - a)).
Proof. f_equal. lia. Qed.

Lemma inject_abs_triangle (a b c : Z) :
  (inject_Z (Z.abs (a - c))
   <= inject_Z (Z.abs (a - b)) + inject_Z (Z.abs (b - c)))%Q.
Proof. rewrite <- inject_Z_plus, <- Zle_Qle. lia. Qed.

Lemma Qabs_sub_triangle (a b c : Q) :
  (Qabs (a - c) <= Qabs (a - b) + Qabs (b - c))%Q.
Proof.
  rewrite (Qabs_wd (a - c) ((a - b) + (b - c))) by lra.
  apply Qabs_triangle.
Qed.

Lemma Qabs_sub_diag (a : Q) : (Qabs (a - a) == 0)%Q.
Proof. apply Qabs_case; intros; lra. Qed.

Lemma Qabs_zero_eq (a b : Q) : (Qabs (a - b) == 0)%Q -> (a == b)%Q.
Proof. apply Qabs_case; intros; lra. Qed.

End Difference.

(** The numbers that [difference] denotes form a pseudo-metric. *)
Lemma difference_pseudometric_exact (x y z : HomeStats.t) :
  (0 <= HomeStats.difference x y)%Q
  /\ (HomeStats.difference x x == 0)%Q
  /\ (HomeStats.difference x y == HomeStats.difference y x)%Q
  /\ (HomeStats.difference x z
      <= HomeStats.difference x y + HomeStats.difference y z)%Q
  /\ ((HomeStats.difference x y == 0)%Q ->
      (HomeStats.score x == HomeStats.score y)%Q
      /\ HomeStats.resource x = HomeStats.resource y
      /\ HomeStats.influence x = HomeStats.influence y
      /\ HomeStats.worms x = HomeStats.worms y
      /\ HomeStats.anomalies x = HomeStats.anomalies y
      /\ length (HomeStats.skips x) = length (HomeStats.skips y)).
Proof.
  split; [apply homestats_difference_nonneg|].
  unfold HomeStats.difference, WEIGHTS.DIFF_SCORE, WEIGHTS.DIFF_RES,
    WEIGHTS.DIFF_INF, WEIGHTS.DIFF_WORM, WEIGHTS.DIFF_ANOM, WEIGHTS.DIFF_SKIP.
  split; [|split; [|split]].
  - rewrite !Z.sub_diag.
    assert (Qabs (HomeStats.score x - HomeStats.score x) == 0)%Q as E.
    { apply Qabs_sub_diag. }
    change (inject_Z (Z.abs 0)) with 0%Q. lra.
  - rewrite (Qabs_Qminus (HomeStats.score x) (HomeStats.score y)).
    rewrite (inject_abs_sym (HomeStats.resource x)),
      (inject_abs_sym (HomeStats.influence x)),
      (inject_abs_sym (HomeStats.worms x)),
      (inject_abs_sym (HomeStats.anomalies x)),
      (inject_abs_sym (Z.of_nat (length (HomeStats.skips x)))).
    reflexivity.
  - pose proof (Qabs_sub_triangle (HomeStats.score x) (HomeStats.score y)
                                  (HomeStats.score z)).
    pose proof (inject_abs_triangle (HomeStats.resource x) (HomeStats.resource y)
                                    (HomeStats.resource z)).
    pose proof (inject_abs_triangle (HomeStats.influence x) (HomeStats.influence y)
                                    (HomeStats.influence z)).
    pose proof (inject_abs_triangle (HomeStats.worms x) (HomeStats.worms y)
                                    (HomeStats.worms z)).
    pose proof (inject_abs_triangle (HomeStats.anomalies x) (HomeStats.anomalies y)
                                    (HomeStats.anomalies z)).
    pose proof (inject_abs_triangle (Z.of_nat (length (HomeStats.skips x)))
                                    (Z.of_nat (length (HomeStats.skips y)))
                                    (Z.of_nat (length (HomeStats.skips z)))).
    lra.
  - intros H0.
    pose proof (Qabs_nonneg (HomeStats.score x - HomeStats.score y)) as Hs.
    assert (forall z : Z, (0 <= inject_Z (Z.abs z))%Q) as Hz.
    { intros w. change 0%Q with (inject_Z 0). rewrite <- Zle_Qle. lia. }
    pose proof (Hz (HomeStats.resource x - HomeStats.resource y)) as H1.
    pose proof (Hz (HomeStats.influence x - HomeStats.influence y)) as H2.
    pose proof (Hz (HomeStats.worms x - HomeStats.worms y)) as H3.
    pose proof (Hz (HomeStats.anomalies x - HomeStats.anomalies y)) as H4.
    pose proof (Hz (Z.of_nat (length (HomeStats.skips x))
                    - Z.of_nat (length (HomeStats.skips y)))) as H5.
    split_and!.
    + assert (Qabs (HomeStats.score x - HomeStats.score y) == 0)%Q as E by lra.
      by apply Qabs_zero_eq.
    + assert (inject_Z (Z.abs (HomeStats.resource x - HomeStats.resource y)) == 0)%Q
        as E%inject_abs_zero by lra. lia.
    + assert (inject_Z (Z.abs (HomeStats.influence x - HomeStats.influence y)) == 0)%Q
        as E%inject_abs_zero by lra. lia.
    + assert (inject_Z (Z.abs (HomeStats.worms x - HomeStats.worms y)) == 0)%Q
        as E%inject_abs_zero by lra. lia.
    + assert (inject_Z (Z.abs (HomeStats.anomalies x - HomeStats.anomalies y)) == 0)%Q
        as E%inject_abs_zero by lra. lia.
    + assert (inject_Z (Z.abs (Z.of_nat (length (HomeStats.skips x))
                               - Z.of_nat (length (HomeStats.skips y)))) == 0)%Q
        as E%inject_abs_zero by lra. lia.
Qed.

(** X6.  On ring statistics whose counters are within [Exact.small], the
    difference is a pseudo-metric: [difference] returns a float that is
    never negative, it returns 0 between a statistics object and itself,
    the same float in both directions, and the difference of [x] and [z]
    is at most the sum of those of [x] and [y] and of [y] and [z]; when
    it is zero the two objects have the same score, resource, influence,
    numbers of wormholes and anomalies, and number of skips. *)
Theorem homestats_difference_pseudometric (x y z : HomeStats.t) :
  Exact.small x -> Exact.small y -> Exact.small z ->
  exists dxy dyz dxz : Q,
    HomeStats64.difference x y = Float64.Value (Float64.Float (Float64.Fin dxy))
    /\ HomeStats64.difference y z
       = Float64.Value (Float64.Float (Float64.Fin dyz))
    /\ HomeStats64.difference x z
       = Float64.Value (Float64.Float (Float64.Fin dxz))
    /\ (0 <= dxy)%Q
    /\ HomeStats64.difference x x
       = Float64.Value (Float64.Float (Float64.Fin 0))
    /\ HomeStats64.difference y x = HomeStats64.difference x y
    /\ (dxz <= dxy + dyz)%Q
    /\ ((dxy == 0)%Q ->
        HomeStats64.score x = HomeStats64.score y
        /\ HomeStats.resource x = HomeStats.resource y
        /\ HomeStats.influence x = HomeStats.influence y
        /\ HomeStats.worms x = HomeStats.worms y
        /\ HomeStats.anomalies x = HomeStats.anomalies y
        /\ length (HomeStats.skips x) = length (HomeStats.skips y)).
Proof.
  intros Hx Hy Hz.
  destruct (difference_pseudometric_exact x y z) as (N & Z0 & S & T & E).
  eexists _, _, _. split_and!.
  - by apply difference64_exact.
  - by apply difference64_exact.
  - by apply difference64_exact.
  - by rewrite Qred_correct.
  - rewrite (difference64_exact x x Hx Hx). do 3 f_equal.
    by rewrite (Qred_complete _ _ Z0).
  - rewrite (difference64_exact y x Hy Hx), (difference64_exact x y Hx Hy).
    do 3 f_equal. apply Qred_complete. by symmetry.
  - by rewrite !Qred_correct.
  - rewrite Qred_correct. intros H0.
    destruct (E H0) as (Es & ?). split; [|done].
    rewrite (score64_exact x Hx), (score64_exact y Hy).
    do 3 f_equal. by apply Qred_complete.
Qed.

Lemma homestats_difference_pseudometric_witness :
  exists dxy dyz dxz : Q,
    HomeStats64.difference Examples.blue_ring Examples.red_ring
    = Float64.Value (Float64.Float (Float64.Fin dxy))
    /\ HomeStats64.difference Examples.red_ring (Examples.empty_ring 2)
       = Float64.Value (Float64.Float (Float64.Fin dyz))
    /\ HomeStats64.difference Examples.blue_ring (Examples.empty_ring 2)
       = Float64.Value (Float64.Float (Float64.Fin dxz))
    /\ (0 <= dxy)%Q
    /\ HomeStats64.difference Examples.blue_ring Examples.blue_ring
       = Float64.Value (Float64.Float (Float64.Fin 0))
    /\ HomeStats64.difference Examples.red_ring Examples.blue_ring
       = HomeStats64.difference Examples.blue_ring Examples.red_ring
    /\ (dxz <= dxy + dyz)%Q
    /\ ((dxy == 0)%Q ->
        HomeStats64.score Examples.blue_ring
        = HomeStats64.score Examples.red_ring
        /\ HomeStats.resource Examples.blue_ring
           = HomeStats.resource Examples.red_ring
        /\ HomeStats.influence Examples.blue_ring
           = HomeStats.influence Examples.red_ring
        /\ HomeStats.worms Examples.blue_ring
           = HomeStats.worms Examples.red_ring
        /\ HomeStats.anomalies Examples.blue_ring
           = HomeStats.anomalies Examples.red_ring
        /\ length (HomeStats.skips Examples.blue_ring)
           = length (HomeStats.skips Examples.red_ring)).
Proof.
  apply (homestats_difference_pseudometric
           Examples.blue_ring Examples.red_ring (Examples.empty_ring 2));
    apply small_check; by vm_compute.
Defined.

(** Beyond the precision of a float the triangle inequality fails: with
    resources 0, [2^53 + 1] and [2^54 + 6] the difference of the first and
    the third ring is 2 above the sum of the other two differences. *)
Lemma difference64_triangle_fails_when_rounded :
  HomeStats64.difference (Large.ring 2 0 0) (Large.ring 2 (2 ^ 53 + 1) 0)
  = Float64.Value (Float64.Float (Float64.Fin 9007199254740992))
  /\ HomeStats64.difference (Large.ring 2 (2 ^ 53 + 1) 0)
                            (Large.ring 2 (2 ^ 54 + 6) 0)
     = Float64.Value (Float64.Float (Float64.Fin 9007199254740998))
  /\ HomeStats64.difference (Large.ring 2 0 0) (Large.ring 2 (2 ^ 54 + 6) 0)
     = Float64.Value (Float64.Float (Float64.Fin 18014398509481992))
  /\ (9007199254740992 + 9007199254740998 < 18014398509481992)%Q.
Proof. split_and!; by vm_compute. Qed.

(** ** The imbalance as a maximum *)

Section Maximum.


End Maximum.



(** ** The rings of a home *)

Section HomeRings.

Lemma KEEGAN_TO_COORD_length : length KEEGAN_TO_COORD = 61%nat.
Proof. reflexivity. Qed.

(** The distances that [Home.init] tabulates. *)
Lemma dist_to_lookup (c : Cube) (n : nat) (dist_to : list Z) :
  mapM (fun k => x ← get KEEGAN_TO_COORD k; Ret (cube_distance c x)) (seq 0 n)
  = Ret dist_to ->
  length dist_to = n
  /\ forall k d, dist_to !! k = Some d <->
                 (k < n)%nat
                 /\ exists c', KEEGAN_TO_COORD !! k = Some c' /\ cube_distance c c' = d.
Proof.
  intros E%mapM_Ret_Forall2.
  pose proof (Forall2_length _ _ _ E) as Hl. rewrite length_seq in Hl.
  split; [done|]. intros k d. split.
  - intros Hk. pose proof (lookup_lt_Some _ _ _ Hk) as Hlt.
    split; [lia|].
    destruct (Forall2_lookup_r _ _ _ _ _ E Hk) as (i & Hi & Hf).
    apply lookup_seq in Hi as [-> _]. cbn [Nat.add] in Hf. unfold get in Hf.
    destruct (KEEGAN_TO_COORD !! k) as [c'|]; cbn [bind] in Hf; [|done].
    exists c'. split; [done|]. by injection Hf.
  - intros (Hlt & c' & Hc' & <-).
    destruct (Forall2_lookup_l _ _ _ k k E) as (d & Hd & Hf).
    { apply lookup_seq. split; [done | lia]. }
    unfold get in Hf. rewrite Hc' in Hf. cbn [bind] in Hf. by injection Hf as <-.
Qed.

End HomeRings.

(** X8.  [Home(index, keegan, num_tiles)] raises IndexError unless
    [keegan] is one of the 61 positions of the table and [num_tiles] is at
    most 61.  Otherwise the home keeps its index and position and the
    coordinate of the position, has three rings, and ring [d] lists in
    ascending order, once each, exactly the positions below [num_tiles]
    at distance [d] of the home: ring 0 holds the home's own position alone, ring 1
    the neighbours of the position that are on the board. *)
Theorem home_init_rings_by_distance (index keegan n : nat) :
  if decide (keegan < 61 /\ n <= 61)%nat then
    exists h c adj,
      Home.init index keegan n = Ret h
      /\ KEEGAN_TO_COORD !! keegan = Some c
      /\ KEEGAN_ADJACENT !! keegan = Some adj
      /\ Home.index h = index /\ Home.keegan h = keegan /\ Home.coord h = c
      /\ length (Home.hop h) = 3%nat
      /\ (forall d ring,
             Home.hop h !! d = Some ring ->
             ring `sublist_of` seq 0 n
             /\ forall k, k ∈ ring <->
                          (k < n)%nat
                          /\ exists c', KEEGAN_TO_COORD !! k = Some c'
                                        /\ cube_distance c c' = Z.of_nat d)
      /\ (forall ring k, Home.hop h !! 0%nat = Some ring ->
                         k ∈ ring <-> k = keegan /\ (k < n)%nat)
      /\ (forall ring k, Home.hop h !! 1%nat = Some ring ->
                         k ∈ ring <-> k ∈ adj /\ (k < n)%nat)
  else Home.init index keegan n = Raise IndexError.
Proof.
  case_decide as Hd.
  - destruct Hd as [Hk Hn].
    destruct (lookup_lt_is_Some_2 KEEGAN_TO_COORD keegan) as [c Hc];
      [by rewrite KEEGAN_TO_COORD_length|].
    destruct (mapM_returns
                (fun k => x ← get KEEGAN_TO_COORD k; Ret (cube_distance c x))
                (seq 0 n)) as [dist_to Hm].
    { intros k Hin. apply elem_of_seq in Hin.
      destruct (lookup_lt_is_Some_2 KEEGAN_TO_COORD k) as [c' Hc'];
        [rewrite KEEGAN_TO_COORD_length; lia|].
      unfold get. rewrite Hc'. by eexists. }
    pose proof (dist_to_lookup c n dist_to Hm) as [Hl Hdist].
    assert (forall d ring,
               map (fun h : Z => filter (fun i => dist_to !! i = Some h)
                                        (seq 0 (length dist_to))) [0; 1; 2]
               !! d = Some ring ->
               ring `sublist_of` seq 0 n
               /\ forall k, k ∈ ring <->
                            (k < n)%nat
                            /\ exists c', KEEGAN_TO_COORD !! k = Some c'
                                          /\ cube_distance c c' = Z.of_nat d) as Hrings.
    { intros d ring Hr.
      assert (ring = filter (fun i => dist_to !! i = Some (Z.of_nat d))
                            (seq 0 (length dist_to))) as ->.
      { destruct d as [|[|[|d]]]; cbn in Hr; by simplify_eq. }
      split; [rewrite Hl; apply sublist_filter|]. intros k.
      rewrite list_elem_of_filter, Hdist, elem_of_seq. split; [tauto|].
      intros [? ?]. split; [done|lia]. }
    exists {| Home.index := index; Home.keegan := keegan; Home.coord := c;
              Home.dist_to := dist_to;
              Home.hop := map (fun h : Z => filter (fun i => dist_to !! i = Some h)
                                                   (seq 0 (length dist_to)))
                              [0; 1; 2];
              Home.hop2u := []; Home.hop2c := [];
              Home.stats1 := HomeStats.init 1 None;
              Home.stats2u := HomeStats.init 2 (Some "U"%string);
              Home.stats2c := HomeStats.init 2 (Some "C"%string);
              Home.stats2t := HomeStats.init 2 (Some "T"%string) |}, c,
      (adjacent_of c).
    split_and!; try done.
    + unfold Home.init, get. rewrite Hc. cbn [bind]. unfold get in Hm.
      by rewrite Hm.
    + apply KEEGAN_ADJACENT_lookup. by exists c.
    + cbn [Home.hop]. intros ring k Hr. apply Hrings in Hr as [_ Hr].
      rewrite Hr. split.
      * intros (Hlt & c' & Hc' & Hz). split; [|done].
        apply cube_distance_zero in Hz as <-.
        eapply NoDup_lookup; [apply KEEGAN_TO_COORD_NoDup|done..].
      * intros [-> Hlt]. split; [done|]. exists c. split; [done|].
        by apply cube_distance_zero.
    + cbn [Home.hop]. intros ring k Hr. apply Hrings in Hr as [_ Hr].
      rewrite Hr, (elem_of_adjacent_of keegan k c Hc). tauto.
  - unfold Home.init, get.
    destruct (KEEGAN_TO_COORD !! keegan) as [c|] eqn:Hc; [|done]. cbn [bind].
    apply lookup_lt_Some in Hc. rewrite KEEGAN_TO_COORD_length in Hc.
    assert (61 < n)%nat as Hn by lia. clear Hd.
    assert (exists m, n = (61 + S m)%nat) as [m ->] by (exists (n - 62)%nat; lia).
    rewrite (seq_app 61 (S m) 0).
    set (f := fun k => x ← match KEEGAN_TO_COORD !! k with
                           | Some x => Ret x | None => Raise IndexError end;
                       Ret (cube_distance c x)).
    assert (forall l1 l2 k, (exists ys, mapM f l1 = Ret ys) ->
                            f k = Raise IndexError ->
                            mapM f (l1 ++ k :: l2) = Raise IndexError) as Happ.
    { clear. intros l1 l2 k [ys Hys] Hk. revert ys Hys.
      induction l1 as [|a l1 IH]; intros ys Hys; cbn.
      - by rewrite Hk.
      - cbn in Hys. destruct (f a) as [y| |]; [|done|done]. cbn in *.
        destruct (mapM f l1) as [ys'| |]; [|done|done].
        by rewrite (IH ys' eq_refl). }
    rewrite <- (cons_seq m (0 + 61)), Happ; [done| |done].
    apply mapM_returns. intros k Hin. apply elem_of_seq in Hin.
    destruct (lookup_lt_is_Some_2 KEEGAN_TO_COORD k) as [c' Hc'];
      [rewrite KEEGAN_TO_COORD_length; lia|].
    subst f. cbv beta. rewrite Hc'. by eexists.
Qed.

Lemma home_init_rings_by_distance_witness :
  exists h c adj,
    Home.init 0 1 7 = Ret h
    /\ KEEGAN_TO_COORD !! 1%nat = Some c
    /\ KEEGAN_ADJACENT !! 1%nat = Some adj
    /\ Home.index h = 0%nat /\ Home.keegan h = 1%nat /\ Home.coord h = c
    /\ length (Home.hop h) = 3%nat
    /\ (forall d ring,
           Home.hop h !! d = Some ring ->
           ring `sublist_of` seq 0 7
           /\ forall k, k ∈ ring <->
                        (k < 7)%nat
                        /\ exists c', KEEGAN_TO_COORD !! k = Some c'
                                      /\ cube_distance c c' = Z.of_nat d)
    /\ (forall ring k, Home.hop h !! 0%nat = Some ring ->
                       k ∈ ring <-> k = 1%nat /\ (k < 7)%nat)
    /\ (forall ring k, Home.hop h !! 1%nat = Some ring ->
                       k ∈ ring <-> k ∈ adj /\ (k < 7)%nat).
Proof. exact (home_init_rings_by_distance 0 1 7). Defined.

(** ** Contested and uncontested positions *)

Section Contest.

Lemma foldM_range {A S} (f : S -> A -> outcome S) (la pa : list A) (s : S) :
  foldM (fun s i => a ← get (pa ++ la) i; f s a) s (seq (length pa) (length la))
  = foldM f s la.
Proof.
  revert pa s. induction la as [|a la IH]; intros pa s; [done|].
  cbn [length seq foldM]. rewrite get_app_length. cbn [bind].
  destruct (f s a) as [s'| |]; cbn [bind]; [|done|done].
  specialize (IH (pa ++ [a]) s'). rewrite length_app, <- app_assoc in IH.
  cbn in IH. by rewrite Nat.add_1_r in IH.
Qed.

Variable self : Home.t.

Lemma others_unfold (all_homes : list Home.t) :
  Home.others self all_homes = foldM (others_step self) (∅, ∅) all_homes.
Proof. unfold Home.others. apply (foldM_range (others_step self) all_homes []). Qed.

Lemma ring_of_get (h : Home.t) (d : nat) :
  (d < length (Home.hop h))%nat -> get (Home.hop h) d = Ret (ring_of h d).
Proof.
  intros Hd. unfold get, ring_of.
  by destruct (lookup_lt_is_Some_2 _ _ Hd) as [r ->].
Qed.

Lemma others_collects (all_homes : list Home.t) (acc : gset nat * gset nat) :
  Forall (fun h => length (Home.hop h) = 3%nat) all_homes ->
  exists o, foldM (others_step self) acc all_homes = Ret o
            /\ (forall k, k ∈ o.1 <->
                          k ∈ acc.1
                          \/ exists h, h ∈ all_homes /\ rival self h
                                       /\ k ∈ ring_of h 1)
            /\ (forall k, k ∈ o.2 <->
                          k ∈ acc.2
                          \/ exists h, h ∈ all_homes /\ rival self h
                                       /\ k ∈ ring_of h 2).
Proof.
  intros Hall. revert acc.
  induction Hall as [|h l Hh _ IH]; intros acc; cbn [foldM].
  - exists acc. split; [done|].
    split; intros k; (split; [by left|]);
      intros [?|(h & Hin & _)]; [done| |done|]; by apply elem_of_nil in Hin.
  - unfold others_step at 1. case_decide as Hr.
    + rewrite !ring_of_get by lia. cbn [bind fst snd].
      destruct (IH (acc.1 ∪ list_to_set (ring_of h 1),
                    acc.2 ∪ list_to_set (ring_of h 2)))
        as (o & Ho & H1 & H2).
      exists o. split; [done|]. cbn [fst snd] in H1, H2.
      split; intros k; [rewrite H1 | rewrite H2];
        rewrite elem_of_union, elem_of_list_to_set; split.
      * intros [[?|?]|(h' & ? & ? & ?)]; [by left| |].
        -- right. exists h. split; [by left|done].
        -- right. exists h'. split; [by right|done].
      * intros [?|(h' & [->|?]%elem_of_cons & ? & ?)].
        -- by left; left.
        -- by left; right.
        -- right. by exists h'.
      * intros [[?|?]|(h' & ? & ? & ?)]; [by left| |].
        -- right. exists h. split; [by left|done].
        -- right. exists h'. split; [by right|done].
      * intros [?|(h' & [->|?]%elem_of_cons & ? & ?)].
        -- by left; left.
        -- by left; right.
        -- right. by exists h'.
    + cbn [bind]. destruct (IH acc) as (o & Ho & H1 & H2).
      exists o. split; [done|].
      split; intros k; [rewrite H1 | rewrite H2]; split.
      * intros [?|(h' & ? & ? & ?)]; [by left|].
        right. exists h'. split; [by right|done].
      * intros [?|(h' & [->|?]%elem_of_cons & Hv & ?)]; [by left|done|].
        right. by exists h'.
      * intros [?|(h' & ? & ? & ?)]; [by left|].
        right. exists h'. split; [by right|done].
      * intros [?|(h' & [->|?]%elem_of_cons & Hv & ?)]; [by left|done|].
        right. by exists h'.
Qed.

End Contest.

(** X9.  When every home has its three rings,
    [initialize_hop2_tile_lists] returns; it keeps the home's index,
    position, coordinate, distances and rings and gives it four fresh
    statistics objects.  Its uncontested list holds, in the order of ring
    2, the positions of ring 2 that lie in ring 1 or ring 2 of no home with
    another index; its contested list those that lie in ring 2 of some
    home with another index and in ring 1 of none.  No position is in both
    lists, and a position of ring 2 is in neither exactly when it lies in
    ring 1 of a home with another index. *)
Theorem hop2_lists_split (self : Home.t) (all_homes : list Home.t) :
  length (Home.hop self) = 3%nat ->
  Forall (fun h => length (Home.hop h) = 3%nat) all_homes ->
  exists h',
    Home.initialize_hop2_tile_lists self all_homes = Ret h'
    /\ Home.index h' = Home.index self /\ Home.keegan h' = Home.keegan self
    /\ Home.coord h' = Home.coord self /\ Home.dist_to h' = Home.dist_to self
    /\ Home.hop h' = Home.hop self
    /\ fresh_stats h'
    /\ Home.hop2u h' `sublist_of` ring_of self 2
    /\ Home.hop2c h' `sublist_of` ring_of self 2
    /\ (forall k, k ∈ Home.hop2u h' <->
                  k ∈ ring_of self 2
                  /\ forall h, h ∈ all_homes -> rival self h ->
                               (k ∉ ring_of h 1) /\ (k ∉ ring_of h 2))
    /\ (forall k, k ∈ Home.hop2c h' <->
                  k ∈ ring_of self 2
                  /\ (exists h, h ∈ all_homes /\ rival self h /\ k ∈ ring_of h 2)
                  /\ forall h, h ∈ all_homes -> rival self h -> k ∉ ring_of h 1)
    /\ (forall k, ~ (k ∈ Home.hop2u h' /\ k ∈ Home.hop2c h'))
    /\ (forall k, k ∈ ring_of self 2 ->
                  ((k ∉ Home.hop2u h') /\ (k ∉ Home.hop2c h')) <->
                  exists h, h ∈ all_homes /\ rival self h /\ k ∈ ring_of h 1).
Proof.
  intros Hself Hall.
  destruct (others_collects self all_homes (∅, ∅) Hall) as (o & Ho & H1 & H2).
  cbn [fst snd] in H1, H2.
  assert (forall k, k ∈ o.1 <->
                    exists h, h ∈ all_homes /\ rival self h /\ k ∈ ring_of h 1) as H1'.
  { intros k. rewrite H1. split; [intros [?|?]; [set_solver|done] | by right]. }
  assert (forall k, k ∈ o.2 <->
                    exists h, h ∈ all_homes /\ rival self h /\ k ∈ ring_of h 2) as H2'.
  { intros k. rewrite H2. split; [intros [?|?]; [set_solver|done] | by right]. }
  clear H1 H2.
  assert (forall k, k ∈ filter (fun k => (k ∉ o.2) /\ (k ∉ o.1)) (ring_of self 2) <->
                    k ∈ ring_of self 2
                    /\ forall h, h ∈ all_homes -> rival self h ->
                                 (k ∉ ring_of h 1) /\ (k ∉ ring_of h 2)) as Hu.
  { intros k. rewrite list_elem_of_filter, H1', H2'. split.
    - intros [[N2 N1] Hin]. split; [done|]. intros h Hh Hr. split.
      + intros ?. apply N1. by exists h.
      + intros ?. apply N2. by exists h.
    - intros [Hin Hn]. split; [|done].
      split; intros (h & Hh & Hr & Hk); by destruct (Hn h Hh Hr). }
  assert (forall k, k ∈ filter (fun k => (k ∈ o.2) /\ (k ∉ o.1)) (ring_of self 2) <->
                    k ∈ ring_of self 2
                    /\ (exists h, h ∈ all_homes /\ rival self h /\ k ∈ ring_of h 2)
                    /\ forall h, h ∈ all_homes -> rival self h -> k ∉ ring_of h 1)
    as Hc.
  { intros k. rewrite list_elem_of_filter, H1', H2'. split.
    - intros [[Y2 N1] Hin]. split; [done|]. split; [done|].
      intros h Hh Hr ?. apply N1. by exists h.
    - intros (Hin & Y2 & Hn). split; [|done]. split; [done|].
      intros (h & Hh & Hr & Hk). by apply (Hn h Hh Hr). }
  eexists. split.
  { unfold Home.initialize_hop2_tile_lists.
    rewrite others_unfold, Ho. cbn [bind].
    rewrite (ring_of_get self 2) by lia. cbn [bind]. reflexivity. }
  cbn [Home.index Home.keegan Home.coord Home.dist_to Home.hop Home.hop2u
       Home.hop2c].
  split_and!; try done; try apply sublist_filter.
  - intros k [Hku Hkc]. apply list_elem_of_filter in Hku as [[N2 _] _].
    apply list_elem_of_filter in Hkc as [[Y2 _] _]. done.
  - intros k Hin. rewrite <- H1'. rewrite !list_elem_of_filter. split.
    + intros [Nu Nc]. destruct (decide (k ∈ o.1)) as [|N1]; [done|].
      destruct (decide (k ∈ o.2)) as [Y2|N2]; [by destruct Nc | by destruct Nu].
    + intros Y1. split; intros [[_ N1] _]; done.
Qed.

Lemma hop2_lists_split_witness :
  exists self h',
    Board.homes Examples.duel !! 0%nat = Some self
    /\ Home.initialize_hop2_tile_lists self (Board.homes Examples.duel) = Ret h'
    /\ Home.hop2u h' `sublist_of` ring_of self 2
    /\ Home.hop2c h' `sublist_of` ring_of self 2.
Proof.
  eexists. 
  match goal with
  | |- exists h', ?l !! 0%nat = Some ?s /\ _ =>
      let l' := eval vm_compute in l in
      match l' with
      | ?a :: _ =>
          unify s a;
          destruct (hop2_lists_split a l') as (h' & E & _ & _ & _ & _ & _ & _ & Su & Sc & _);
          [reflexivity
          |apply (bool_decide_eq_true_1 (Forall _ _)); by vm_compute
          |exists h'; split_and!; [by vm_compute|exact E|exact Su|exact Sc]]
      end
  end.
Defined.

(** ** The statistics of a home *)

Section HomeStatistics.

Variable G : Globals.

Lemma iadd_reset_r (r s : HomeStats.t) : HomeStats.iadd r (HomeStats.reset s) = r.
Proof.
  destruct r. unfold HomeStats.iadd, HomeStats.reset. cbn.
  by rewrite !Z.add_0_r, app_nil_r.
Qed.

Lemma update_local (s : HomeStats.t) (idx : list nat) (T T' : list Z) :
  (forall k, k ∈ idx -> T !! k = T' !! k) ->
  HomeStats.update G s idx T = HomeStats.update G s idx T'.
Proof.
  rewrite !update_unfold. generalize (HomeStats.reset s) as x.
  induction idx as [|k idx IH]; intros x Hloc; [done|]. cbn.
  rewrite (update_step_local G T T' x k) by (apply Hloc; left).
  destruct (update_step G T' x k); cbn; [|done|done].
  apply IH. intros j Hj. apply Hloc. by right.
Qed.

(** Accumulating onto an empty total of another kind. *)
Lemma update_onto (s r : HomeStats.t) (idx : list nat) (T : list Z)
      (a : HomeStats.t) :
  HomeStats.update G s idx T = Ret r ->
  foldM (update_step G T) a idx = Ret (HomeStats.iadd a r).
Proof.
  rewrite update_unfold. intros E.
  rewrite <- (iadd_reset_r a s) at 1. by apply foldM_update_iadd.
Qed.

End HomeStatistics.

(** X10.  When [Home.update_stats] returns, the home differs from the
    one before in its four statistics only; its total statistics of ring 2
    are the statistics of the uncontested positions followed by the
    contested ones; updating once more with the same tiles changes
    nothing; and the result depends only on the tiles at the positions of
    ring 1 and of the two lists of ring 2. *)
Theorem home_update_stats_total (G : Globals) (h h1 : Home.t)
        (tiles tiles' : list Z) :
  Home.update_stats G h tiles = Ret h1 ->
  same_static h h1
  /\ HomeStats.update G (Home.stats2t h) (Home.hop2u h ++ Home.hop2c h) tiles
     = Ret (Home.stats2t h1)
  /\ Home.update_stats G h1 tiles = Ret h1
  /\ ((forall k, k ∈ ring_of h 1 ++ Home.hop2u h ++ Home.hop2c h ->
                 tiles !! k = tiles' !! k) ->
      Home.update_stats G h tiles' = Ret h1).
Proof.
  intros E. pose proof (home_update_static G h h1 tiles E) as Hs.
  split; [done|]. split; [|split].
  - revert E. unfold Home.update_stats.
    destruct (get (Home.hop h) 1) as [hop1| |]; [|done|done]. cbn [bind].
    destruct (HomeStats.update G (Home.stats1 h) hop1 tiles) as [s1| |];
      [|done|done]. cbn [bind].
    destruct (HomeStats.update G (Home.stats2u h) _ tiles) as [s2u| |] eqn:E2;
      [|done|done]. cbn [bind].
    destruct (HomeStats.update G (Home.stats2c h) _ tiles) as [s2c| |] eqn:E3;
      [|done|done]. cbn [bind].
    intros [= <-]. cbn [Home.stats2t].
    rewrite update_unfold, foldM_app.
    rewrite (update_onto G _ _ _ _ (HomeStats.reset (Home.stats2t h)) E2).
    cbn [bind].
    exact (update_onto G _ _ _ _ _ E3).
  - by rewrite <- (home_update_ext G h h1 tiles Hs).
  - intros Hloc. rewrite <- E. unfold Home.update_stats, ring_of in *.
    unfold get. destruct (Home.hop h !! 1%nat) as [hop1|]; [|done].
    cbn [bind default] in *.
    rewrite (update_local G (Home.stats1 h) hop1 tiles' tiles).
    2:{ intros k Hk. symmetry. apply Hloc. apply elem_of_app. by left. }
    rewrite (update_local G (Home.stats2u h) (Home.hop2u h) tiles' tiles).
    2:{ intros k Hk. symmetry. apply Hloc. rewrite !elem_of_app. right. by left. }
    rewrite (update_local G (Home.stats2c h) (Home.hop2c h) tiles' tiles).
    2:{ intros k Hk. symmetry. apply Hloc. rewrite !elem_of_app. right. by right. }
    done.
Qed.

Lemma home_update_stats_total_witness :
  exists h h1,
    Board.homes Examples.duel !! 0%nat = Some h
    /\ Home.update_stats (Examples.small (Examples.no_flags 2)) h
                         [18; 0; 19; 20; 0; 21; 22] = Ret h1
    /\ same_static h h1
    /\ Home.update_stats (Examples.small (Examples.no_flags 2)) h1
                         [18; 0; 19; 20; 0; 21; 22] = Ret h1.
Proof.
  eexists _, _. split; [by vm_compute|].
  match goal with
  | |- ?u = Ret _ /\ _ =>
      let r := eval vm_compute in u in
      match r with
      | Ret ?h1 =>
          assert (u = Ret h1) as E by (by vm_compute);
          split; [exact E|];
          destruct (home_update_stats_total _ _ _ _ [] E) as (Hs & _ & Hi & _);
          by split
      end
  end.
Defined.

(** ** Construction of a board from a tile list *)

Section FromList.

Variable G : Globals.

Lemma filterM_spec {A} (f : A -> outcome bool) (l : list A) :
  (forall x, x ∈ l -> exists v, f x = Ret v) ->
  exists ys, filterM f l = Ret ys
             /\ ys `sublist_of` l
             /\ forall x, x ∈ ys <-> x ∈ l /\ f x = Ret true.
Proof.
  induction l as [|a l IH]; intros Hf.
  - exists []. split; [done|]. split; [done|]. intros x. split.
    + by intros ?%elem_of_nil.
    + by intros [?%elem_of_nil _].
  - destruct (Hf a) as [v Hv]; [left|].
    destruct IH as (ys & E & Hs & Hin). { intros x Hx. apply Hf. by right. }
    cbn. rewrite Hv, E. cbn. eexists. split; [done|].
    destruct v.
    + split; [by constructor|]. intros x. rewrite !elem_of_cons, Hin. split.
      * intros [->|[? ?]]; [split; [by left|done] | split; [by right|done]].
      * intros [[->|?] ?]; [by left | by right].
    + split; [by constructor|]. intros x. rewrite elem_of_cons, Hin. split.
      * intros [? ?]. split; [by right|done].
      * intros [[->|?] ?]; [congruence | done].
Qed.

Lemma home_init_Ret (i k n : nat) :
  (k < 61)%nat -> (n <= 61)%nat ->
  exists h, Home.init i k n = Ret h
            /\ Home.index h = i /\ Home.keegan h = k
            /\ length (Home.hop h) = 3%nat.
Proof.
  intros Hk Hn. unfold Home.init.
  destruct (lookup_lt_is_Some_2 KEEGAN_TO_COORD k) as [c Hc];
    [by rewrite KEEGAN_TO_COORD_length|].
  unfold get at 1. rewrite Hc. cbn [bind].
  destruct (mapM_returns
              (fun j => x ← get KEEGAN_TO_COORD j; Ret (cube_distance c x))
              (seq 0 n)) as [dist_to ->].
  { intros j Hin. apply elem_of_seq in Hin.
    destruct (lookup_lt_is_Some_2 KEEGAN_TO_COORD j) as [c' Hc'];
      [rewrite KEEGAN_TO_COORD_length; lia|].
    unfold get. rewrite Hc'. by eexists. }
  cbn [bind]. by eexists.
Qed.

Lemma initialize_Ret (self : Home.t) (all_homes : list Home.t) :
  length (Home.hop self) = 3%nat ->
  Forall (fun h => length (Home.hop h) = 3%nat) all_homes ->
  exists h', Home.initialize_hop2_tile_lists self all_homes = Ret h'
             /\ same_place self h'.
Proof.
  intros Hself Hall.
  destruct (others_collects self all_homes (∅, ∅) Hall) as (o & Ho & _).
  unfold Home.initialize_hop2_tile_lists.
  rewrite others_unfold, Ho. cbn [bind].
  rewrite (ring_of_get self 2) by lia. cbn [bind]. by eexists.
Qed.

(** The homes that the second loop of [Board.init] leaves. *)
Lemma initialize_all (n : nat) (homes0 : list Home.t) :
  Forall (fun h => length (Home.hop h) = 3%nat) homes0 ->
  Forall (rings_ok n) homes0 ->
  exists homes1,
    foldM (fun homes i =>
             h ← get homes i;
             h' ← Home.initialize_hop2_tile_lists h homes;
             set homes i h')
          homes0 (seq 0 (length homes0)) = Ret homes1
    /\ Forall2 same_place homes0 homes1
    /\ Forall (rings_ok n) homes1.
Proof.
  intros H3 Hr.
  apply (foldM_invariant
           (fun hs => Forall2 same_place homes0 hs /\ Forall (rings_ok n) hs)).
  { split; [|done]. apply Forall2_same_length_lookup. split; [done|].
    intros i h h' E1 E2. rewrite E1 in E2. by injection E2 as <-. }
  intros hs i [Hp Hrs] Hi. apply elem_of_seq in Hi.
  pose proof (Forall2_length _ _ _ Hp) as Hl.
  destruct (lookup_lt_is_Some_2 hs i) as [h Hh]; [lia|].
  destruct (lookup_lt_is_Some_2 homes0 i) as [h0 Hh0]; [lia|].
  pose proof (Forall2_lookup_lr _ _ _ _ _ _ Hp Hh0 Hh) as (Ei & Ek & Eh).
  assert (Forall (fun h => length (Home.hop h) = 3%nat) hs) as H3s.
  { apply Forall_lookup. intros j hj Hj.
    destruct (Forall2_lookup_r _ _ _ _ _ Hp Hj) as (h0j & Hj0 & (_ & _ & ->)).
    by apply (proj1 (Forall_lookup _ _) H3 j). }
  destruct (initialize_Ret h hs) as (h' & E & (Ei' & Ek' & Eh')).
  { by apply (proj1 (Forall_lookup _ _) H3s i). }
  { done. }
  unfold get. rewrite Hh. cbn [bind]. rewrite E. cbn [bind].
  unfold set. case_decide; [|lia]. eexists. split; [done|]. split.
  - rewrite <- (list_insert_id homes0 i h0 Hh0).
    apply Forall2_insert; [done|]. unfold same_place. split_and!; congruence.
  - apply Forall_insert; [done|]. eapply initialize_rings; [|done].
    by apply (proj1 (Forall_lookup _ _) Hrs i).
Qed.

End FromList.

(** X11.  [Board(board=tiles)] with a non-empty list of at most 61 tiles,
    each the home slot or a catalogue tile, returns without drawing a
    random number.  The board has the given tiles; its homes are, in
    ascending order of position, the positions that hold a home, and the
    home number [i] has index [i]; its unused pool and statistics are up
    to date, so that from two tiles on the board satisfies the
    invariant. *)
Theorem board_init_from_list (G : Globals) (board : list Z) (num_homes : Z)
        (ds : list Z) :
  board <> [] -> tiles_known G board -> (length board <= 61)%nat ->
  exists b,
    Board.init G board num_homes ds = (Ret b, ds)
    /\ Board.tiles b = board
    /\ Board.num_tiles b = length board
    /\ Board.num_homes b = length (Board.homes b)
    /\ map Home.keegan (Board.homes b) `sublist_of` seq 0 (length board)
    /\ (forall k, k ∈ map Home.keegan (Board.homes b) <-> holds_home G board k)
    /\ (forall i h, Board.homes b !! i = Some h -> Home.index h = i)
    /\ Board.update_unused G b = b
    /\ Board.update_stats G b = Ret b
    /\ ((2 <= length board)%nat -> board_ok G b).
Proof.
  intros Hne Hknown Hlen.
  destruct (filterM_spec (fun i => tile_index ← get board i; is_home G tile_index)
                         (seq 0 (length board))) as (hk & Ef & Hsub & Hin).
  { intros i Hi. apply elem_of_seq in Hi.
    destruct (lookup_lt_is_Some_2 board i) as [t Ht]; [lia|].
    unfold get. rewrite Ht. cbn [bind]. apply is_home_returns.
    by apply (proj1 (Forall_lookup _ _) Hknown i). }
  assert (forall k, k ∈ hk <-> holds_home G board k) as Hhk.
  { intros k. rewrite Hin, elem_of_seq. unfold holds_home, get. split.
    - intros [Hk E]. destruct (board !! k) as [t|]; [|done]. by exists t.
    - intros (t & Ht & E). split; [|by rewrite Ht].
      apply lookup_lt_Some in Ht. lia. }
  assert (Forall (fun k => (k < length board)%nat) hk) as Hlt.
  { apply Forall_forall. intros k Hk. apply Hin in Hk as [Hk _].
    apply elem_of_seq in Hk. lia. }
  assert (exists homes0,
             mapM (fun i => k ← get hk i; Home.init i k (length board))
                  (seq 0 (length hk)) = Ret homes0
             /\ Forall2 (fun i h => Home.index h = i /\ hk !! i = Some (Home.keegan h)
                                    /\ length (Home.hop h) = 3%nat
                                    /\ rings_ok (length board) h)
                        (seq 0 (length hk)) homes0) as (homes0 & Em & H0).
  { destruct (mapM_returns (fun i => k ← get hk i; Home.init i k (length board))
                           (seq 0 (length hk))) as [homes0 Em].
    - intros i Hi. apply elem_of_seq in Hi.
      destruct (lookup_lt_is_Some_2 hk i) as [k Hk]; [lia|].
      unfold get. rewrite Hk. cbn [bind].
      pose proof (proj1 (Forall_lookup _ _) Hlt i k Hk) as Hkl. cbn beta in Hkl.
      destruct (home_init_Ret i k (length board)) as (h & E & _); [lia|lia|].
      by exists h.
    - exists homes0. split; [done|]. apply mapM_Ret_Forall2 in Em.
      eapply Forall2_impl; [exact Em|]. intros i h. cbn beta. unfold get.
      destruct (hk !! i) as [k|] eqn:Hk; [|done]. cbn [bind]. intros E.
      pose proof (proj1 (Forall_lookup _ _) Hlt i k Hk) as Hkl. cbn beta in Hkl.
      destruct (home_init_Ret i k (length board)) as (h' & E' & Hi & Hk' & H3);
        [lia|lia|].
      rewrite E in E'. injection E' as <-.
      split_and!; [done|by rewrite Hk'|done|]. by eapply home_init_rings. }
  pose proof (Forall2_length _ _ _ H0) as Hl0. rewrite length_seq in Hl0.
  destruct (initialize_all (length board) homes0) as (homes1 & Ei & Hp & Hr1).
  { apply Forall_lookup. intros i h Hh.
    by destruct (Forall2_lookup_r _ _ _ _ _ H0 Hh) as (? & _ & _ & _ & ? & _). }
  { apply Forall_lookup. intros i h Hh.
    by destruct (Forall2_lookup_r _ _ _ _ _ H0 Hh) as (? & _ & _ & _ & _ & ?). }
  rewrite <- Hl0 in Ei.
  set (self := Board.update_unused G
                 {| Board.tiles := board; Board.unused := []; Board.homes := homes1;
                    Board.num_homes := length hk;
                    Board.num_tiles := length board |}).
  destruct (board_update_returns G self) as [b Eu].
  { done. }
  { cbn. eapply Forall_impl; [exact Hr1|]. intros h. apply rings_home_ok. }
  assert (Board.init G board num_homes ds = (Ret b, ds)) as Einit.
  { unfold Board.init, rbind at 1.
    destruct board as [|t0 board']; [done|]. unfold rret.
    unfold rbind, lift. rewrite Ef, Em, Ei. fold self. by rewrite Eu. }
  destruct (board_update_frame G self b Eu) as [(Hu & Hn & Ht & Hh) Htiles].
  cbn in Hu, Hn, Ht, Hh, Htiles.
  assert (Forall2 (fun i h => Home.index h = i /\ hk !! i = Some (Home.keegan h))
                  (seq 0 (length hk)) (Board.homes b)) as Hfin.
  { apply Forall2_same_length_lookup. split.
    - rewrite length_seq, <- (Forall2_length _ _ _ Hh), <- (Forall2_length _ _ _ Hp).
      done.
    - intros i j h Hj Hb.
      destruct (Forall2_lookup_r _ _ _ _ _ Hh Hb) as (h1 & Hh1 & Hs).
      destruct (Forall2_lookup_r _ _ _ _ _ Hp Hh1) as (h0 & Hh0 & (Pi & Pk & _)).
      destruct (Forall2_lookup_lr _ _ _ _ _ _ H0 Hj Hh0) as (Ii & Ik & _).
      destruct Hs as (Si & Sk & _). split; congruence. }
  assert (map Home.keegan (Board.homes b) = hk) as Hkeegan.
  { apply list_eq_same_length with (length hk).
    - done.
    - by rewrite length_map, <- (Forall2_length _ _ _ Hfin), length_seq.
    - intros i x y Hi Hx Hy. change (map Home.keegan (Board.homes b)) with (Home.keegan <$> Board.homes b) in Hx.
      apply list_lookup_fmap_Some in Hx as (h & -> & Hh').
      destruct (Forall2_lookup_r _ _ _ _ _ Hfin Hh') as (j & Hj & _ & Hk).
      apply lookup_seq in Hj as [-> _]. cbn [Nat.add] in Hk. congruence. }
  exists b. split; [done|].
  split_and!.
  - done.
  - by rewrite <- Ht.
  - rewrite <- Hn. cbn. by rewrite <- (Forall2_length _ _ _ Hfin), length_seq.
  - by rewrite Hkeegan.
  - intros k. by rewrite Hkeegan.
  - intros i h Hh'.
    destruct (Forall2_lookup_r _ _ _ _ _ Hfin Hh') as (j & Hj & Hi & _).
    apply lookup_seq in Hj as [-> _]. done.
  - unfold Board.update_unused, Board.with_unused. clear Eu Einit self.
    destruct b as [bt bu bh bnh bnt]. cbn in *. by subst.
  - by eapply board_update_fresh.
  - intros H2. eapply init_board_ok; [exact Einit|]. rewrite <- Ht. cbn. lia.
Qed.

Lemma board_init_from_list_witness :
  exists b,
    Board.init (Examples.small (Examples.no_flags 2)) [18; 0; 19; 20; 0; 21; 22] 6 []
    = (Ret b, [])
    /\ Board.tiles b = [18; 0; 19; 20; 0; 21; 22]
    /\ map Home.keegan (Board.homes b) `sublist_of` seq 0 7
    /\ board_ok (Examples.small (Examples.no_flags 2)) b.
Proof.
  destruct (board_init_from_list (Examples.small (Examples.no_flags 2))
                                 [18; 0; 19; 20; 0; 21; 22] 6 [])
    as (b & E & Ht & _ & _ & Hs & _ & _ & _ & _ & Hok).
  - done.
  - apply (bool_decide_eq_true_1 (tiles_known _ _)). by vm_compute.
  - cbn. lia.
  - exists b. split_and!; [done|done|done|]. apply Hok. cbn. lia.
Defined.

(** ** The tiles of a generated board *)

Section Generated.

Lemma index_Ret (l : list Z) (x : Z) (i : nat) :
  index l x = Ret i -> l !! i = Some x.
Proof.
  revert i. induction l as [|y l IH]; intros i; cbn; [done|].
  case_decide as E; [by intros [= <-]; subst|].
  destruct (index l x) as [j| |]; [|done|done]. cbn. intros [= <-].
  by apply IH.
Qed.

Lemma NoDup_delete_lookup {A} (l : list A) (i : nat) (x : A) :
  NoDup l -> l !! i = Some x -> NoDup (delete i l) /\ x ∉ delete i l.
Proof.
  intros Hnd Hi. rewrite delete_take_drop.
  rewrite <- (take_drop_middle l i x Hi) in Hnd.
  apply NoDup_app in Hnd as (H1 & H2 & H3).
  apply NoDup_cons in H3 as [H3 H4]. split.
  - apply NoDup_app. split; [done|]. split; [|done].
    intros y Hy Hy'. apply (H2 y Hy). by right.
  - intros [Hx|Hx]%elem_of_app; [|done]. apply (H2 x Hx). by left.
Qed.

Lemma remove_required_Ret (required all_tiles rest : list Z) :
  Board.remove_required all_tiles required = Ret rest ->
  (forall r, r ∈ required -> r ∈ all_tiles)
  /\ (forall x, x ∈ rest -> x ∈ all_tiles)
  /\ (NoDup all_tiles ->
      NoDup rest /\ forall r, r ∈ required -> r ∉ rest).
Proof.
  unfold Board.remove_required. revert all_tiles.
  induction required as [|r required IH]; intros all_tiles; cbn [foldM].
  - intros [= <-]. split; [by intros r ?%elem_of_nil|]. split; [done|].
    intros Hnd. split; [done|]. by intros r ?%elem_of_nil.
  - destruct (index all_tiles r) as [i| |] eqn:Ei; [|done|done]. cbn [bind].
    apply index_Ret in Ei. unfold del at 1. case_decide; [|done]. cbn [bind].
    intros E. apply IH in E as (H1 & H2 & H3). split; [|split].
    + intros r' [->|Hr']%elem_of_cons.
      * by eapply list_elem_of_lookup_2.
      * eapply list_elem_of_delete_inv. by apply H1.
    + intros x Hx. eapply list_elem_of_delete_inv. by apply H2.
    + intros Hnd. destruct (NoDup_delete_lookup all_tiles i r Hnd Ei) as [Hd Hr].
      destruct (H3 Hd) as [Hn Hout]. split; [done|].
      intros r' [->|Hr']%elem_of_cons; [|by apply Hout].
      intros Hin. by apply Hr, H2.
Qed.

Lemma draw_distinct_Ret {A} (k : nat) (pool xs : list A) (ds ds' : list Z) :
  draw_distinct k pool ds = (Ret xs, ds') ->
  length xs = k /\ ds' = drop k ds
  /\ (forall x, x ∈ xs -> x ∈ pool)
  /\ (NoDup pool -> NoDup xs).
Proof.
  revert pool xs ds. induction k as [|k IH]; intros pool xs ds; cbn [draw_distinct].
  - unfold rret. intros [= <- <-]. rewrite drop_0. split_and!; try done.
    + by intros x ?%elem_of_nil.
    + intros _. constructor.
  - destruct ds as [|d ds]; [done|].
    set (j := Z.to_nat (d mod Z.of_nat (length pool))).
    destruct (pool !! j) as [x|] eqn:Hx; [|done]. unfold rbind.
    destruct (draw_distinct k (delete j pool) ds) as [[ys| |] ds1] eqn:E;
      [|done|done].
    unfold rret. intros [= <- <-].
    apply IH in E as (L & D & Hsub & Hnd). split_and!.
    + cbn. by rewrite L.
    + done.
    + intros y [->|Hy]%elem_of_cons.
      * by eapply list_elem_of_lookup_2.
      * eapply list_elem_of_delete_inv. by apply Hsub.
    + intros Hp. destruct (NoDup_delete_lookup pool j x Hp Hx) as [Hd Hout].
      apply NoDup_cons. split; [|by apply Hnd].
      intros Hin. by apply Hout, Hsub.
Qed.

Lemma py_insert_cons {A} (k : nat) (x a : A) (l : list A) :
  Py.insert (S k) x (a :: l) = a :: Py.insert k x l.
Proof. reflexivity. Qed.

(** Inserting home slots after the first position keeps the first tile
    and the sequence of the other tiles. *)
Lemma insert_homes_keeps (ks : list nat) (a : Z) (l : list Z) :
  Forall (fun k => (1 <= k)%nat) ks ->
  let r := foldl (fun tile_list k => Py.insert k 0 tile_list) (a :: l) ks in
  r !! 0%nat = Some a
  /\ filter (fun t => t <> 0) r = filter (fun t => t <> 0) (a :: l)
  /\ length r = (length (a :: l) + length ks)%nat.
Proof.
  revert l. induction ks as [|k ks IH]; intros l Hk; cbn [foldl].
  - split; [done|]. split; [done|]. cbn. lia.
  - apply Forall_cons in Hk as [Hk Hks].
    destruct k as [|k]; [lia|]. rewrite py_insert_cons.
    destruct (IH (Py.insert k 0 l) Hks) as (R1 & R2 & R3).
    split; [done|]. split.
    + rewrite R2. rewrite !filter_cons. unfold Py.insert.
      assert (filter (fun t => t <> 0) (take k l ++ 0 :: drop k l)
              = filter (fun t => t <> 0) l) as ->; [|done].
      rewrite filter_app, filter_cons_False by (intros ?; done).
      by rewrite <- filter_app, take_drop.
    + rewrite R3. cbn [length]. rewrite length_py_insert. lia.
Qed.

Lemma home_keegan_Ret (n : Z) (ks : list nat) :
  Board.home_keegan n = Ret ks ->
  Z.of_nat (length ks) = n /\ Forall (fun k => (1 <= k)%nat) ks.
Proof.
  unfold Board.home_keegan. repeat case_decide; [| | |done];
    intros [= <-]; (split; [by subst|]);
    repeat constructor; lia.
Qed.

(** [Board.generate_random_board] is the function at the order of
    [elements]. *)
Lemma generate_random_board_elements (G : Globals) (n : Z) :
  Board.generate_random_board G n
  = Ordered.generate_random_board G (elements (require (FLAGS G))) n.
Proof. reflexivity. Qed.

Lemma lists_required_elements (G : Globals) :
  Ordered.lists_required G (elements (require (FLAGS G))).
Proof. unfold Ordered.lists_required. reflexivity. Qed.

End Generated.

(** X12.  In whatever order the required tiles are taken from the set,
    whenever [generate_random_board] returns a tile list, for any catalogue
    and any draws: the list has 37 positions (61 above six players) and the
    centre at position 0; its tiles other than home slots are the centre,
    then the required tiles in that order, then the tiles drawn, as many
    as the board has positions besides the centre, the homes and the
    required tiles, and one draw was consumed for each; every required or
    drawn tile is a non-home catalogue tile other than the centre; and when
    the catalogue lists no tile twice, no tile is on the board twice. *)
Theorem generate_random_board_tiles (G : Globals) (required : list Z) (n : Z)
        (ds ds' : list Z) (tile_list : list Z) :
  Ordered.lists_required G required ->
  Ordered.generate_random_board G required n ds = (Ret tile_list, ds') ->
  0 ∉ NONHOME_TILES G ->
  length tile_list = board_size n
  /\ tile_list !! 0%nat = Some MECATOL_INDEX
  /\ exists picked,
      filter (fun t => t <> 0) tile_list
      = MECATOL_INDEX :: required ++ picked
      /\ Z.of_nat (length picked)
         = free_slots n - Z.of_nat (size (require (FLAGS G)))
      /\ ds' = drop (length picked) ds
      /\ (forall t, t ∈ required ++ picked ->
                    t ∈ NONHOME_TILES G /\ t <> MECATOL_INDEX)
      /\ (NoDup (NONHOME_TILES G) -> NoDup (filter (fun t => t <> 0) tile_list)).
Proof.
  intros Hperm.
  assert (length required = size (require (FLAGS G))) as Hsize.
  { unfold Ordered.lists_required in Hperm. by rewrite Hperm. }
  assert (NoDup required) as Hndr.
  { unfold Ordered.lists_required in Hperm. rewrite Hperm. apply NoDup_elements. }
  unfold Ordered.generate_random_board, rbind at 1, lift.
  destruct (Board.home_keegan n) as [hk| |] eqn:Ehk; [|done|done].
  apply home_keegan_Ret in Ehk as [Lhk Hhk].
  set (all_tiles := filter (fun i => i <> MECATOL_INDEX) (NONHOME_TILES G)).
  unfold rbind at 1.
  destruct (Board.remove_required all_tiles required) as [rest| |] eqn:Er;
    [|done|done].
  apply remove_required_Ret in Er as (Hreq & Hrest & Hnd).
  unfold rbind, sample. case_decide as Hk; [done|].
  set (k := (if decide (n <= 6) then 37 else 61)
            - Z.of_nat (length (MECATOL_INDEX :: required)) - n) in *.
  destruct (draw_distinct (Z.to_nat k) rest ds) as [[picked| |] ds1] eqn:Ed;
    [|done|done].
  apply draw_distinct_Ret in Ed as (Lp & Hd & Hsub & Hndp).
  unfold rret. intros [= <- <-] H0.
  assert (forall t, t ∈ required ++ picked ->
                    t ∈ NONHOME_TILES G /\ t <> MECATOL_INDEX) as Hin.
  { intros t [Ht|Ht]%elem_of_app.
    - apply Hreq in Ht. by apply list_elem_of_filter in Ht as [? ?].
    - apply Hsub, Hrest in Ht. by apply list_elem_of_filter in Ht as [? ?]. }
  assert (filter (fun t => t <> 0) (MECATOL_INDEX :: required ++ picked)
          = MECATOL_INDEX :: required ++ picked) as Hnz.
  { assert (Forall (fun t => t <> 0) (MECATOL_INDEX :: required ++ picked)) as Hf.
    { constructor; [done|]. apply Forall_forall. intros t Ht ->.
      by destruct (Hin 0 Ht). }
    clear -Hf. induction Hf as [|t l Ht _ IH]; [done|].
    by rewrite filter_cons_True, IH. }
  destruct (insert_homes_keeps hk MECATOL_INDEX (required ++ picked) Hhk)
    as (R1 & R2 & R3).
  cbn zeta in R1, R2, R3.
  change ((MECATOL_INDEX :: required) ++ picked)
    with (MECATOL_INDEX :: required ++ picked).
  assert (Z.of_nat (length picked) = free_slots n - Z.of_nat (size (require (FLAGS G))))
    as Hlen.
  { rewrite Lp. unfold k, free_slots, board_size in *. cbn [length] in *.
    rewrite <- Hsize. case_decide; lia. }
  split_and!.
  - rewrite R3. cbn [length]. rewrite length_app, Hsize.
    unfold free_slots in Hlen. lia.
  - done.
  - exists picked. split_and!.
    + by rewrite R2, Hnz.
    + done.
    + by rewrite Lp.
    + done.
    + intros Hcat. rewrite R2, Hnz.
      assert (NoDup all_tiles) as Hall by (by apply NoDup_filter).
      destruct (Hnd Hall) as [Hn1 Hout].
      apply NoDup_cons. split.
      * intros Hm. by destruct (Hin _ Hm).
      * apply NoDup_app. split; [done|]. split; [|by apply Hndp].
        intros t Ht Hp. by apply (Hout t Ht), Hsub.
Qed.

Lemma generate_random_board_tiles_witness :
  exists tile_list ds',
    Ordered.generate_random_board (Examples.wide Listed.require_pair)
                                  Listed.pair_order 4 Examples.forty_draws
    = (Ret tile_list, ds')
    /\ length tile_list = 37%nat
    /\ tile_list !! 0%nat = Some MECATOL_INDEX
    /\ (exists picked,
          filter (fun t => t <> 0) tile_list
          = MECATOL_INDEX :: Listed.pair_order ++ picked)
    /\ NoDup (filter (fun t => t <> 0) tile_list).
Proof.
  eexists _, _. split; [by vm_compute|].
  match goal with
  | |- length ?l = _ /\ _ =>
      destruct (generate_random_board_tiles
                  (Examples.wide Listed.require_pair) Listed.pair_order 4
                  Examples.forty_draws
                  (drop 30 Examples.forty_draws) l)
        as (H1 & H2 & picked & H3 & _ & _ & _ & H4)
  end.
  - unfold Ordered.lists_required, Listed.pair_order.
    assert (elements (require (FLAGS (Examples.wide Listed.require_pair)))
            = [42; 40]) as -> by (by vm_compute).
    apply Permutation_swap.
  - by vm_compute.
  - apply (bool_decide_eq_true_1 (_ ∉ _)). by vm_compute.
  - split_and!; [exact H1|exact H2|by exists picked|]. apply H4.
    apply (bool_decide_eq_true_1 (NoDup _)). by vm_compute.
Defined.

(** ** The tiles in play *)

Section Pool.

Lemma picks_NoDup {A} (l : list A) (x : A) (rest : list A) :
  (x, rest) ∈ picks l -> NoDup l -> (x ∉ rest) /\ NoDup rest.
Proof.
  revert x rest. induction l as [|a l IH]; intros x rest; cbn.
  - by intros ?%elem_of_nil.
  - rewrite elem_of_cons. intros [[= -> ->]|H] Hnd;
      apply NoDup_cons in Hnd as [Ha Hl]; [done|].
    apply list_elem_of_fmap in H as ([x' rest'] & [= -> ->] & Hin). cbn.
    destruct (IH _ _ Hin Hl) as [H1 H2].
    destruct (elem_of_picks _ _ _ Hin) as (Hx & Hrest & _). split.
    + intros [->|?]%elem_of_cons; done.
    + apply NoDup_cons. split; [|done]. intros Hin'. by apply Ha, Hrest.
Qed.

Lemma permutations_NoDup {A} (r : nat) (l perm : list A) :
  perm ∈ permutations r l -> NoDup l -> NoDup perm.
Proof.
  revert l perm. induction r as [|r IH]; intros l perm; cbn.
  - intros ->%list_elem_of_singleton _. constructor.
  - rewrite list_elem_of_In, in_flat_map. intros ([x rest] & Hp & Hin) Hnd.
    apply list_elem_of_In in Hp.
    destruct (picks_NoDup _ _ _ Hp Hnd) as [Hx Hrest].
    apply list_elem_of_In, list_elem_of_fmap in Hin as (perm' & -> & Hin').
    cbn in *. apply NoDup_cons. split; [|by eapply IH].
    intros Hin. apply Hx. by apply (proj2 (elem_of_permutations _ _ _ Hin')).
Qed.

Lemma read_write (ps : list nat) (new T : list Z) :
  NoDup ps -> Forall (fun p => (p < length T)%nat) ps ->
  length new = length ps ->
  read ps (write ps new T) = new.
Proof.
  intros Hnd Hps Hl.
  assert (Forall (fun p => (p < length (write ps new T))%nat) ps) as Hps'
    by (by rewrite write_length).
  apply list_eq_same_length with (length ps); [done | by apply read_length |].
  intros i x y Hi Hx Hy.
  destruct (lookup_lt_is_Some_2 ps i Hi) as [p Hp].
  rewrite (read_lookup _ _ i p Hps' Hp) in Hx.
  rewrite (write_at ps new T i p y Hnd Hp Hy) in Hx.
  - by injection Hx.
  - exact (proj1 (Forall_lookup _ _) Hps i p Hp).
Qed.

Lemma write_ext (ps : list nat) (new T T' : list Z) :
  NoDup ps -> Forall (fun p => (p < length T)%nat) ps ->
  length new = length ps -> length T' = length T ->
  (forall q, q ∉ ps -> T' !! q = T !! q) ->
  write ps new T' = write ps new T.
Proof.
  intros Hnd Hps Hl Hlen Hout. apply list_eq. intros q.
  destruct (decide (q ∈ ps)) as [Hq|Hq].
  - apply list_elem_of_lookup in Hq as [i Hi].
    pose proof (proj1 (Forall_lookup _ _) Hps i q Hi) as Hlt. cbn beta in Hlt.
    destruct (lookup_lt_is_Some_2 new i) as [x Hx].
    { rewrite Hl. by eapply lookup_lt_Some. }
    rewrite (write_at ps new T' i q x), (write_at ps new T i q x); try done.
    lia.
  - rewrite !write_outside by done. by apply Hout.
Qed.

Lemma foldM_preserves_in {A S} (P : S -> Prop) (f : S -> A -> outcome S)
      (l : list A) (s r : S) :
  (forall s x s', x ∈ l -> P s -> f s x = Ret s' -> P s') ->
  P s -> foldM f s l = Ret r -> P r.
Proof.
  revert s. induction l as [|x l IH]; intros s Hf Hs; cbn.
  - by intros [= <-].
  - destruct (f s x) as [s'| |] eqn:E; [|done|done]. cbn.
    apply IH.
    + intros s1 y s2 Hy. apply Hf. by right.
    + eapply Hf; [left|done..].
Qed.

Lemma all_true {A} (f : A -> outcome bool) (l : list A) :
  all f l = Ret true -> forall x, x ∈ l -> f x = Ret true.
Proof.
  induction l as [|a l IH]; cbn; [by intros _ x ?%elem_of_nil|].
  destruct (f a) as [[|]| |] eqn:E; cbn; [|done..].
  intros H x [->|Hx]%elem_of_cons; [done | by apply IH].
Qed.

Lemma is_valid_ext (G : Globals) (b1 b2 : Board.t) (p : nat) :
  Board.tiles b1 = Board.tiles b2 -> Board.num_tiles b1 = Board.num_tiles b2 ->
  Board.is_valid G b1 p = Board.is_valid G b2 p.
Proof. unfold Board.is_valid, Board.neighbors. by intros -> ->. Qed.

Variable G : Globals.
Variable b : Board.t.
Hypothesis Hcat : nonhome_ok G.
Hypothesis Hok : board_ok G b.

(** A pass of the loop over the permutations keeps the best tiles or
    replaces them by the permutation tried. *)
Lemma try_permutation_best (v0 : Q) (ps : list nat)
      (st st' : Board.t * Q * list Z) (perm : list Z) :
  NoDup ps -> Forall (selectable G b) ps ->
  length ps = shuffle (FLAGS G) ->
  loop_inv G b v0 ps st ->
  perm ∈ permutations (length ps) (read ps (Board.tiles b) ++ Board.unused b) ->
  Board.try_permutation G ps st perm = Ret st' ->
  loop_inv G b v0 ps st'
  /\ (st'.2 = st.2
      \/ (st'.2 = perm
          /\ forall p, p ∈ ps ->
                       Board.is_valid
                         G (Board.with_tiles b (write ps perm (Board.tiles b))) p
                       = Ret true)).
Proof.
  intros Hnd Hsel Hn Hinv Hperm E.
  destruct (try_permutation_inv G b v0 ps Hcat Hok Hnd Hsel st perm Hn Hinv Hperm)
    as (st'' & E' & Hinv').
  rewrite E in E'. injection E' as <-. split; [done|].
  destruct st as [[cur best] best_tiles].
  destruct Hinv as (Hf & Hc & _). cbn [fst snd] in *.
  pose proof Hc as (Hl & Hout & _).
  pose proof (elem_of_permutations _ _ _ Hperm) as [Hlen _].
  pose proof (ps_in_range G b ps Hok Hsel _ Hl) as Hr.
  revert E. unfold Board.try_permutation. rewrite <- Hn.
  rewrite (place_write cur ps perm Hlen Hr). cbn [bind].
  set (cur1 := Board.with_tiles cur (write ps perm (Board.tiles cur))).
  pose proof (all_range (Board.is_valid G cur1) ps []) as Eall.
  cbn [app length] in Eall. rewrite Eall. clear Eall.
  destruct (all (Board.is_valid G cur1) ps) as [ok| |] eqn:Eok; [|done|done].
  cbn [bind].
  destruct ok; cbn [negb]; [|by intros [= <-]; left].
  destruct (Board.update_stats G _) as [cur2| |] eqn:E2; [|done|done].
  cbn [bind].
  destruct (Board.get_imbalance cur2) as [imb| |]; [|done|done]. cbn [bind].
  destruct (Qlt_le_dec imb best); [|by intros [= <-]; left].
  destruct (board_update_frame G _ _ E2) as [_ Ht]. cbn in Ht.
  rewrite (lifted_read cur2 ps).
  2:{ by rewrite Ht, write_length. }
  cbn [bind]. intros [= <-]. right. cbn. rewrite Ht. split.
  - by apply read_write.
  - intros p Hp. rewrite <- (all_true _ _ Eok p Hp). apply is_valid_ext.
    + cbn. symmetry. apply write_ext; try done.
      by rewrite <- Hl.
    + cbn. by destruct Hf as (_ & _ & ? & _).
Qed.

(** The tiles that [improve] leaves on the board. *)
Lemma improve_places (b' : Board.t) (ds ds' : list Z) :
  Board.improve G b ds = (Ret b', ds') ->
  exists ps new,
    NoDup ps /\ Forall (selectable G b) ps /\ length new = length ps
    /\ (new = read ps (Board.tiles b)
        \/ (new ∈ permutations (length ps)
                               (read ps (Board.tiles b) ++ Board.unused b)
            /\ forall p, p ∈ ps ->
                         Board.is_valid
                           G (Board.with_tiles b (write ps new (Board.tiles b))) p
                         = Ret true))
    /\ Board.tiles b' = write ps new (Board.tiles b).
Proof.
  unfold Board.improve, rbind.
  pose proof (pick_all_spec G b Hok (shuffle (FLAGS G)) [] ds
                            (NoDup_nil_2) (Forall_nil_2 _)) as Hpick.
  destruct (Board.pick_all G b (shuffle (FLAGS G)) [] ds) as [[ks| |] ds1];
    [|done|done].
  destruct Hpick as (Hnd & Hsel & Hlen). cbn in Hlen.
  pose proof (ps_in_range G b ks Hok Hsel (Board.tiles b) eq_refl) as Hrange.
  unfold lift. rewrite (mapM_get_read ks (Board.tiles b) Hrange). cbn [bind].
  destruct (get_imbalance_returns b (ok_homes_length G b Hok)) as [v0 Hv0].
  rewrite Hv0. rewrite <- Hlen. rewrite (lifted_read b ks Hrange).
  destruct (foldM _ _ _) as [[[cur best] best_tiles]| |] eqn:Ef; [|done|done].
  apply (foldM_preserves_in
           (fun st => loop_inv G b v0 ks st
                      /\ (st.2 = read ks (Board.tiles b)
                          \/ (st.2 ∈ permutations (length ks)
                                 (read ks (Board.tiles b) ++ Board.unused b)
                              /\ forall p, p ∈ ks ->
                                   Board.is_valid
                                     G (Board.with_tiles
                                          b (write ks st.2 (Board.tiles b))) p
                                   = Ret true))))
    in Ef.
  - destruct Ef as [(Hf & Hc & _) Hbest]. cbn [fst snd] in *.
    pose proof Hc as (Hl & Hout & _).
    assert (length best_tiles = length ks) as Hbl.
    { destruct Hbest as [->|[Hp _]]; [by apply read_length|].
      by apply elem_of_permutations in Hp as [? _]. }
    rewrite place_write; [| done | by eapply ps_in_range].
    destruct (Board.update_stats G _) as [b2| |] eqn:E2; [|done|done].
    unfold rret. intros [= <- <-].
    destruct (board_update_frame G _ _ E2) as [_ Ht]. cbn in Ht.
    exists ks, best_tiles. split_and!; try done. cbn. rewrite Ht.
    by apply write_ext.
  - intros st perm st' Hperm [Hinv Hb] E.
    destruct (try_permutation_best v0 ks st st' perm Hnd Hsel Hlen Hinv Hperm E)
      as [Hinv' [E'|[E' Hv]]]; (split; [done|]); rewrite E'; [done | by right].
  - split; [|by left].
    split; [apply same_frame_refl|]. split; [by apply candidate_original|].
    exists (Board.tiles b). split; [by apply candidate_original|]. split; [done|].
    split; [|by left]. exists b. by rewrite with_tiles_same, (ok_stats G b Hok).
Qed.

Lemma unused_spec (t : Z) :
  t ∈ Board.unused b <->
  t ∈ NONHOME_TILES G /\ ((t ∉ Board.tiles b) /\ (t ∉ exclude (FLAGS G))).
Proof.
  rewrite <- (ok_unused G b Hok) at 1. cbn. rewrite list_elem_of_filter. tauto.
Qed.

Lemma improve_rearranged (b' : Board.t) (ds ds' : list Z) :
  Board.improve G b ds = (Ret b', ds') -> rearranged G b b'.
Proof.
  intros E. pose proof (improve_spec G b ds Hcat Hok) as Hspec.
  rewrite E in Hspec. destruct Hspec as (ks0 & v & v' & _ & _ & _ & _ & _ & Hok' & _).
  destruct (improve_places b' ds ds' E) as (ps & new & Hnd & Hsel & Hl & Hnew & Ht).
  pose proof (ps_in_range G b ps Hok Hsel (Board.tiles b) eq_refl) as Hrange.
  assert (forall x, x ∈ new -> x ∈ read ps (Board.tiles b) ++ Board.unused b)
    as Hsrc.
  { intros x Hx. destruct Hnew as [->|[Hp _]]; [apply elem_of_app; by left|].
    by apply (proj2 (elem_of_permutations _ _ _ Hp)). }
  assert (forall q t, Board.tiles b' !! q = Some t ->
                      ((q ∉ ps) /\ Board.tiles b !! q = Some t)
                      \/ exists i, ps !! i = Some q /\ new !! i = Some t) as Hat.
  { intros q t Hq. rewrite Ht in Hq. destruct (decide (q ∈ ps)) as [Hin|Hout].
    - right. apply list_elem_of_lookup in Hin as [i Hi]. exists i. split; [done|].
      destruct (lookup_lt_is_Some_2 new i) as [x Hx].
      { rewrite Hl. by eapply lookup_lt_Some. }
      rewrite (write_at ps new _ i q x) in Hq; [congruence|done..|].
      exact (proj1 (Forall_lookup _ _) Hrange i q Hi).
    - left. by rewrite write_outside in Hq. }
  assert (forall t, t ∈ Board.tiles b' -> t ∈ pool b) as Hpool.
  { intros t [q Hq]%list_elem_of_lookup. unfold pool.
    destruct (Hat q t Hq) as [[_ Hb]|(i & Hi & Hn)].
    - apply elem_of_app. left. by eapply list_elem_of_lookup_2.
    - apply list_elem_of_lookup_2, Hsrc in Hn.
      apply elem_of_app in Hn as [Hn|Hn]; apply elem_of_app; [left|by right].
      apply elem_of_read in Hn as (p & _ & Hp). by eapply list_elem_of_lookup_2. }
  split; [done|]. split; [|split].
  - intros t [Hin|Hin]%elem_of_app; [by apply Hpool|].
    rewrite <- (ok_unused G b' Hok') in Hin. cbn in Hin.
    apply list_elem_of_filter in Hin as [[_ Hex] Hcat'].
    unfold pool. apply elem_of_app.
    destruct (decide (t ∈ Board.tiles b)) as [?|Hout]; [by left|].
    right. by apply unused_spec.
  - intros t Hin Hex. apply Hpool in Hin. unfold pool in Hin.
    apply elem_of_app in Hin as [?|Hu]; [done|].
    by apply unused_spec in Hu as (_ & _ & ?).
  - intros Hcatnd Hd i j t Hnz Hi Hj.
    assert (NoDup (read ps (Board.tiles b) ++ Board.unused b)) as Hfree.
    { apply NoDup_app. split; [|split].
      - apply NoDup_alt. intros i1 i2 x H1 H2.
        destruct (lookup_lt_is_Some_2 ps i1) as [p1 Hp1].
        { rewrite <- (read_length ps (Board.tiles b) Hrange).
          by eapply lookup_lt_Some. }
        destruct (lookup_lt_is_Some_2 ps i2) as [p2 Hp2].
        { rewrite <- (read_length ps (Board.tiles b) Hrange).
          by eapply lookup_lt_Some. }
        rewrite (read_lookup _ _ i1 p1 Hrange Hp1) in H1.
        rewrite (read_lookup _ _ i2 p2 Hrange Hp2) in H2.
        assert (x <> 0) as Hx.
        { destruct (proj1 (Forall_lookup _ _) Hsel i1 p1 Hp1)
            as (_ & t' & Ht' & Hpl & _).
          rewrite H1 in Ht'. injection Ht' as <-.
          by destruct (placeable_known G x Hpl). }
        pose proof (Hd p1 p2 x Hx H1 H2) as <-.
        exact (NoDup_lookup ps i1 i2 p1 Hnd Hp1 Hp2).
      - intros x Hr Hu. apply elem_of_read in Hr as (p & _ & Hp).
        apply unused_spec in Hu as (_ & Hu & _). apply Hu.
        by eapply list_elem_of_lookup_2.
      - rewrite <- (ok_unused G b Hok). cbn. by apply NoDup_filter. }
    assert (NoDup new) as Hnewnd.
    { destruct Hnew as [->|[Hp _]]; [by apply NoDup_app in Hfree as [? _]|].
      by eapply permutations_NoDup. }
    destruct (Hat i t Hi) as [[Hio Hib]|(i' & Hi' & Hin)],
             (Hat j t Hj) as [[Hjo Hjb]|(j' & Hj' & Hjn)].
    + by eapply Hd.
    + exfalso. apply list_elem_of_lookup_2, Hsrc in Hjn.
      apply elem_of_app in Hjn as [Hr|Hu].
      * apply elem_of_read in Hr as (p & Hp & Hpb).
        pose proof (Hd i p t Hnz Hib Hpb) as ->. done.
      * apply unused_spec in Hu as (_ & Hu & _). apply Hu.
        by eapply list_elem_of_lookup_2.
    + exfalso. apply list_elem_of_lookup_2, Hsrc in Hin.
      apply elem_of_app in Hin as [Hr|Hu].
      * apply elem_of_read in Hr as (p & Hp & Hpb).
        pose proof (Hd j p t Hnz Hjb Hpb) as ->. done.
      * apply unused_spec in Hu as (_ & Hu & _). apply Hu.
        by eapply list_elem_of_lookup_2.
    + pose proof (NoDup_lookup _ _ _ _ Hnewnd Hin Hjn) as ->. congruence.
Qed.

End Pool.

Lemma rearranged_refl (G : Globals) (b : Board.t) : board_ok G b -> rearranged G b b.
Proof. intros Hok. by split_and!. Qed.

Lemma rearranged_trans (G : Globals) (b1 b2 b3 : Board.t) :
  rearranged G b1 b2 -> rearranged G b2 b3 -> rearranged G b1 b3.
Proof.
  intros (_ & P1 & X1 & D1) (O2 & P2 & X2 & D2). split_and!; [done|..].
  - intros t Ht. by apply P1, P2.
  - intros t Ht Hx. apply X1; [|done]. by apply X2.
  - intros Hc Hd. by apply D2, D1.
Qed.

(** X13.  On a well-formed board, whenever [improve] returns, and
    whenever [optimize] returns after any number of rounds, the board
    returned is well-formed and is a rearrangement of the tiles in play:
    every tile on it or in its unused pool was on the original board or in
    its unused pool; an excluded tile is on it only if it was on the
    original board; and when the catalogue lists no tile twice and no tile
    but the home slot was on the original board twice, none is on the
    board returned twice. *)
Theorem optimize_rearranges (G : Globals) (b : Board.t) (steps : Z)
        (ds : list Z) :
  nonhome_ok G -> board_ok G b ->
  (forall b' ds', Board.improve G b ds = (Ret b', ds') -> rearranged G b b')
  /\ (forall r b' ds', Board.optimize G b steps ds = (Ret (r, b'), ds') ->
                       rearranged G b b').
Proof.
  intros Hcat Hok. split.
  - intros b' ds'. by apply improve_rearranged.
  - unfold Board.optimize. generalize (Z.to_nat steps) as n. intros n.
    revert b ds Hok. induction n as [|n IH]; intros b ds Hok r b' ds';
      cbn [Board.optimize_loop]; unfold rbind, lift.
    + destruct (Board.get_imbalance b) as [v| |]; [|done|done].
      unfold rret. intros [= _ <- _]. by apply rearranged_refl.
    + destruct (Board.get_imbalance b) as [v| |]; [|done|done].
      destruct (Qeq_bool v 0).
      { unfold rret. intros [= _ <- _]. by apply rearranged_refl. }
      destruct (Board.improve G b ds) as [[b1| |] ds1] eqn:E1; [|done|done].
      pose proof (improve_rearranged G b Hcat Hok b1 ds ds1 E1) as H1.
      intros E. eapply rearranged_trans; [exact H1|].
      eapply IH; [|exact E]. by destruct H1.
Qed.

Lemma optimize_rearranges_witness :
  exists r b' ds',
    Board.optimize (Examples.small (Examples.no_flags 2)) Examples.duel 3
                   Examples.duel_draws = (Ret (r, b'), ds')
    /\ rearranged (Examples.small (Examples.no_flags 2)) Examples.duel b'.
Proof.
  assert (nonhome_ok (Examples.small (Examples.no_flags 2))) as Hcat.
  { apply nonhome_check_sound. by vm_compute. }
  assert (board_ok (Examples.small (Examples.no_flags 2)) Examples.duel) as Hok.
  { apply board_check_sound; by vm_compute. }
  eexists _, _, _. split; [by vm_compute|].
  eapply (proj2 (optimize_rearranges (Examples.small (Examples.no_flags 2))
                                     Examples.duel 3 Examples.duel_draws Hcat Hok)).
  by vm_compute.
Defined.

(** ** Legality of the whole board *)

Section Legal.

Lemma existsb_ext_in {A} (f g : A -> bool) (l : list A) :
  (forall x, x ∈ l -> f x = g x) -> existsb f l = existsb g l.
Proof.
  induction l as [|a l IH]; intros H; cbn; [done|].
  rewrite (H a) by left. f_equal. apply IH. intros x Hx. apply H. by right.
Qed.

Lemma adjacent_sym (b : Board.t) (q k : nat) :
  (q < Board.num_tiles b)%nat -> k ∈ adjacent b q -> q ∈ adjacent b k.
Proof.
  unfold adjacent. intros Hq [Hk Hin]%list_elem_of_filter.
  destruct (KEEGAN_ADJACENT !! q) as [adj|] eqn:Eq; [|by apply elem_of_nil in Hin].
  unfold default in Hin. cbn [from_option id] in Hin.
  apply KEEGAN_ADJACENT_lookup in Eq as (c & Hc & ->).
  apply (elem_of_adjacent_of q k c Hc) in Hin as (c' & Hc' & Hd).
  apply list_elem_of_filter. split; [done|].
  assert (KEEGAN_ADJACENT !! k = Some (adjacent_of c')) as ->
    by (apply KEEGAN_ADJACENT_lookup; by exists c').
  unfold default. cbn [from_option id].
  apply (elem_of_adjacent_of k q c' Hc'). exists c. split; [done|].
  by rewrite cube_distance_sym.
Qed.

Variable G : Globals.
Variable b b' : Board.t.
Variable ps : list nat.
Variable new : list Z.
Hypothesis Htags : tags_ok G.
Hypothesis Hok : board_ok G b.
Hypothesis Hok' : board_ok G b'.
Hypothesis Hnd : NoDup ps.
Hypothesis Hsel : Forall (selectable G b) ps.
Hypothesis Hlen : length new = length ps.
Hypothesis Hnew : forall x, x ∈ new -> placeable G x.
Hypothesis Htiles : Board.tiles b' = write ps new (Board.tiles b).
Hypothesis Hvalid : forall p, p ∈ ps -> Board.is_valid G b' p = Ret true.

Lemma written_num_tiles : Board.num_tiles b' = Board.num_tiles b.
Proof.
  rewrite <- (ok_length G b' Hok'), <- (ok_length G b Hok), Htiles.
  apply write_length.
Qed.

Lemma written_adjacent (p : nat) : adjacent b' p = adjacent b p.
Proof. unfold adjacent. by rewrite written_num_tiles. Qed.

Lemma written_outside (k : nat) :
  k ∉ ps -> Board.tiles b' !! k = Board.tiles b !! k.
Proof. intros Hk. rewrite Htiles. by apply write_outside. Qed.

Lemma written_inside (k : nat) :
  k ∈ ps ->
  (exists t, Board.tiles b !! k = Some t /\ placeable G t)
  /\ (exists t, Board.tiles b' !! k = Some t /\ placeable G t).
Proof.
  intros Hk. split.
  - destruct (proj1 (Forall_forall _ _) Hsel k Hk) as (_ & t & Ht & Hp & _).
    by exists t.
  - apply list_elem_of_lookup in Hk as [i Hi].
    destruct (lookup_lt_is_Some_2 new i) as [x Hx].
    { rewrite Hlen. by eapply lookup_lt_Some. }
    exists x. split.
    + rewrite Htiles. eapply write_at; [done..|].
      exact (proj1 (Forall_lookup _ _)
                   (ps_in_range G b ps Hok Hsel _ eq_refl) i k Hi).
    + apply Hnew. by eapply list_elem_of_lookup_2.
Qed.

Lemma written_is_slot (k : nat) : is_slot b' k = is_slot b k.
Proof.
  unfold is_slot. destruct (decide (k ∈ ps)) as [Hk|Hk].
  - destruct (written_inside k Hk) as [(t & Ht & Hp) (t' & Ht' & Hp')].
    rewrite Ht, Ht'.
    destruct (placeable_known G t Hp) as [? _].
    destruct (placeable_known G t' Hp') as [? _].
    rewrite !bool_decide_eq_false_2; [done | congruence | congruence].
  - by rewrite written_outside.
Qed.

Lemma is_valid_parts (cur : Board.t) (p : nat) (t : Z) (tile : Tile) :
  board_ok G cur ->
  Board.tiles cur !! p = Some t -> TILES G !! t = Some tile ->
  Board.is_valid G cur p = Ret true ->
  truthy (tile_anomaly tile) && existsb (anomalous G cur) (adjacent cur p) = false
  /\ truthy (tile_worm tile)
     && existsb (same_worm G cur tile) (adjacent cur p) = false
  /\ bool_decide (tile_skip tile = Some "legend"%string)
     && existsb (is_slot cur) (adjacent cur p) = false
  /\ truthy (tile_worm tile) && existsb (is_slot cur) (adjacent cur p) = false.
Proof.
  intros Hc Hp Ht.
  rewrite (is_valid_unfold G cur (ok_known G cur Hc) (ok_length G cur Hc)
                           (proj2 (ok_size G cur Hc)) p t tile Hp Ht).
  intros [= H]. rewrite !andb_true_iff, !negb_true_iff in H. tauto.
Qed.

(** Writing placeable tiles at selectable positions that pass the check
    afterwards keeps a legal board legal. *)
Lemma written_legal : legal G b -> legal G b'.
Proof.
  intros Hlegal p t Hp Hnz.
  destruct (decide (p ∈ ps)) as [Hin|Hout]; [by apply Hvalid|].
  pose proof Hp as Hpb. rewrite written_outside in Hpb by done.
  assert (p < Board.num_tiles b)%nat as Hlt.
  { rewrite <- (ok_length G b Hok). by eapply lookup_lt_Some. }
  assert (exists tile, TILES G !! t = Some tile) as [tile Ht].
  { pose proof (proj1 (Forall_lookup _ _) (ok_known G b Hok) p t Hpb) as [?|[x ?]];
      [done | by exists x]. }
  destruct (Htags t tile Ht) as (Hpos & Ha & Hw).
  destruct (is_valid_parts b p t tile Hok Hpb Ht (Hlegal p t Hpb Hnz))
    as (A & B & C & D).
  rewrite (is_valid_unfold G b' (ok_known G b' Hok') (ok_length G b' Hok')
                           (proj2 (ok_size G b' Hok')) p t tile Hp Ht).
  rewrite written_adjacent.
  rewrite (existsb_ext_in (is_slot b') (is_slot b) (adjacent b p))
    by (intros; apply written_is_slot).
  rewrite C, D. cbn [negb andb].
  assert (truthy (tile_anomaly tile)
          && existsb (anomalous G b') (adjacent b p) = false) as ->.
  { destruct (truthy (tile_anomaly tile)) eqn:Eta; [|done]. cbn [andb] in *.
    apply existsb_false. intros k Hk.
    pose proof (proj1 (existsb_false _ _) A k Hk) as Hbk.
    destruct (decide (k ∈ ps)) as [Hkin|Hkout].
    2:{ unfold anomalous in *. by rewrite written_outside. }
    destruct (anomalous G b' k) eqn:Ean; [exfalso|done].
    unfold anomalous in Ean.
    destruct (Board.tiles b' !! k) as [tk|] eqn:Htk; [|done].
    case_decide as Hkpos; [|done].
    destruct (TILES G !! tk) as [other|] eqn:Hother; [|done].
    apply bool_decide_eq_true in Ean.
    destruct (Htags tk other Hother) as (_ & Hao & _).
    destruct (is_valid_parts b' k tk other Hok' Htk Hother (Hvalid k Hkin))
      as (A' & _).
    rewrite (proj2 (truthy_tag _ Hao) Ean) in A'. cbn [andb] in A'.
    rewrite written_adjacent in A'.
    pose proof (proj1 (existsb_false _ _) A' p (adjacent_sym b p k Hlt Hk)) as Hp'.
    unfold anomalous in Hp'. rewrite Hp, Ht in Hp'.
    rewrite decide_True in Hp' by lia.
    apply bool_decide_eq_false in Hp'. apply Hp'.
    by apply (truthy_tag _ Ha). }
  assert (truthy (tile_worm tile)
          && existsb (same_worm G b' tile) (adjacent b p) = false) as ->; [|done].
  destruct (truthy (tile_worm tile)) eqn:Etw; [|done]. cbn [andb] in *.
  apply existsb_false. intros k Hk.
  pose proof (proj1 (existsb_false _ _) B k Hk) as Hbk.
  destruct (decide (k ∈ ps)) as [Hkin|Hkout].
  2:{ unfold same_worm in *. by rewrite written_outside. }
  destruct (same_worm G b' tile k) eqn:Esw; [exfalso|done].
  unfold same_worm in Esw.
  destruct (Board.tiles b' !! k) as [tk|] eqn:Htk; [|done].
  case_decide as Hkpos; [|done].
  destruct (TILES G !! tk) as [other|] eqn:Hother; [|done].
  apply bool_decide_eq_true in Esw.
  destruct (is_valid_parts b' k tk other Hok' Htk Hother (Hvalid k Hkin))
    as (_ & B' & _).
  rewrite <- Esw, Etw in B'. cbn [andb] in B'.
  rewrite written_adjacent in B'.
  pose proof (proj1 (existsb_false _ _) B' p (adjacent_sym b p k Hlt Hk)) as Hp'.
  unfold same_worm in Hp'. rewrite Hp, Ht in Hp'.
  rewrite decide_True in Hp' by lia.
  apply bool_decide_eq_false in Hp'. by apply Hp'.
Qed.

End Legal.

Lemma improve_legal (G : Globals) (b b' : Board.t) (ds ds' : list Z) :
  tags_ok G -> nonhome_ok G -> board_ok G b -> legal G b ->
  Board.improve G b ds = (Ret b', ds') ->
  board_ok G b' /\ legal G b'.
Proof.
  intros Htags Hcat Hok Hlegal E.
  pose proof (improve_spec G b ds Hcat Hok) as Hspec. rewrite E in Hspec.
  destruct Hspec as (ks0 & v & v' & _ & _ & _ & _ & _ & Hok' & _).
  split; [done|].
  destruct (improve_places G b Hcat Hok b' ds ds' E)
    as (ps & new & Hnd & Hsel & Hl & Hnew & Ht).
  pose proof (ps_in_range G b ps Hok Hsel (Board.tiles b) eq_refl) as Hrange.
  destruct Hnew as [->|[Hperm Hv]].
  - rewrite write_read in Ht by done.
    intros p t Hp Hnz. rewrite Ht in Hp.
    rewrite <- (Hlegal p t Hp Hnz). apply is_valid_ext; [done|].
    by rewrite <- (ok_length G b' Hok'), <- (ok_length G b Hok), Ht.
  - apply (written_legal G b b' ps new); try done.
    + intros x Hx. apply (free_placeable G b ps Hcat Hok Hsel).
      by apply (proj2 (elem_of_permutations _ _ _ Hperm)).
    + intros p Hp. rewrite <- (Hv p Hp). apply is_valid_ext; [done|]. cbn.
      rewrite <- (ok_length G b' Hok'), <- (ok_length G b Hok), Ht.
      apply write_length.
Qed.

(** X14.  On a well-formed board over a catalogue as [load_tiles] builds
    it, if every position that holds a tile other than the home slot passes
    [is_valid], then the same is true of the board that [improve] returns,
    and of the board that [optimize] returns after any number of rounds:
    although [improve] checks the shuffled positions only, no other
    position becomes illegal. *)
Theorem optimize_keeps_legal (G : Globals) (b : Board.t) (steps : Z)
        (ds : list Z) :
  tags_ok G -> nonhome_ok G -> board_ok G b -> legal G b ->
  (forall b' ds', Board.improve G b ds = (Ret b', ds') -> legal G b')
  /\ (forall r b' ds', Board.optimize G b steps ds = (Ret (r, b'), ds') ->
                       legal G b').
Proof.
  intros Htags Hcat Hok Hlegal. split.
  - intros b' ds' E. by destruct (improve_legal G b b' ds ds' Htags Hcat Hok Hlegal E).
  - unfold Board.optimize. generalize (Z.to_nat steps) as n. intros n.
    revert b ds Hok Hlegal. induction n as [|n IH]; intros b ds Hok Hlegal r b' ds';
      cbn [Board.optimize_loop]; unfold rbind, lift.
    + destruct (Board.get_imbalance b) as [v| |]; [|done|done].
      unfold rret. by intros [= _ <- _].
    + destruct (Board.get_imbalance b) as [v| |]; [|done|done].
      destruct (Qeq_bool v 0).
      { unfold rret. by intros [= _ <- _]. }
      destruct (Board.improve G b ds) as [[b1| |] ds1] eqn:E1; [|done|done].
      destruct (improve_legal G b b1 ds ds1 Htags Hcat Hok Hlegal E1) as [Hok1 Hl1].
      intros E. by eapply (IH b1 ds1 Hok1 Hl1).
Qed.

Lemma optimize_keeps_legal_witness :
  exists r b' ds',
    Board.optimize (Examples.small (Examples.no_flags 2)) Examples.duel 3
                   Examples.duel_draws = (Ret (r, b'), ds')
    /\ legal (Examples.small (Examples.no_flags 2)) b'.
Proof.
  assert (tags_ok (Examples.small (Examples.no_flags 2))) as Htags.
  { apply tags_check_sound. by vm_compute. }
  assert (nonhome_ok (Examples.small (Examples.no_flags 2))) as Hcat.
  { apply nonhome_check_sound. by vm_compute. }
  assert (board_ok (Examples.small (Examples.no_flags 2)) Examples.duel) as Hok.
  { apply board_check_sound; by vm_compute. }
  assert (legal (Examples.small (Examples.no_flags 2)) Examples.duel) as Hlegal.
  { intros p t Hp Hnz.
    do 7 (destruct p as [|p];
          [vm_compute in Hp; injection Hp as <-;
           first [by destruct Hnz | by vm_compute]|]).
    by vm_compute in Hp. }
  eexists _, _, _. split; [by vm_compute|].
  eapply (proj2 (optimize_keeps_legal (Examples.small (Examples.no_flags 2))
                                      Examples.duel 3 Examples.duel_draws
                                      Htags Hcat Hok Hlegal)).
  by vm_compute.
Defined.

(** ** The catalogue that [load_tiles] builds *)

Section LoadTiles.

Variable int : string -> outcome Z.
Variable strip : string -> string.
Variable effective : bool.

Lemma sum_resource_snoc (ps : list Planet) (p : Planet) :
  sum_resource (ps ++ [p]) = sum_resource ps + planet_resource p.
Proof. unfold sum_resource. induction ps as [|q ps IH]; cbn; [lia|]. rewrite IH. lia. Qed.

Lemma sum_influence_snoc (ps : list Planet) (p : Planet) :
  sum_influence (ps ++ [p]) = sum_influence ps + planet_influence p.
Proof. unfold sum_influence. induction ps as [|q ps IH]; cbn; [lia|]. rewrite IH. lia. Qed.

Lemma keep_nonempty (new : string) (old : option string) :
  old <> Some EmptyString -> Load.keep new old <> Some EmptyString.
Proof. unfold Load.keep. case_decide; congruence. Qed.

(** What a row does to the tables. *)
Lemma load_row_Ret (st st' : Load.tables) (row : list string) :
  Load.load_row int strip effective st row = Ret st' ->
  exists (index : Z) (is_home : bool) (c2 c3 : string) (resource influence : Z)
         (skip anomaly worm : string),
    int c2 = Ret resource /\ int c3 = Ret influence
    /\ (is_home = true -> skip = EmptyString)
    /\ let planet := row_planet effective resource influence in
       let known := Load.TILES st !! index in
       let tile0 :=
         match known with
         | Some tile => tile
         | None => {| tile_resource := 0; tile_influence := 0;
                      tile_skip := None; tile_anomaly := None;
                      tile_worm := None; tile_planets := [];
                      tile_home := if is_home then Some skip else None |}
         end in
       st' = {| Load.PLANETS := Load.PLANETS st ++ [planet];
                Load.TILES :=
                  <[index :=
                      {| tile_resource := tile_resource tile0 + planet_resource planet;
                         tile_influence :=
                           tile_influence tile0 + planet_influence planet;
                         tile_skip := if is_home then tile_skip tile0
                                      else Load.keep skip (tile_skip tile0);
                         tile_anomaly := if is_home then tile_anomaly tile0
                                         else Load.keep anomaly (tile_anomaly tile0);
                         tile_worm := if is_home then tile_worm tile0
                                      else Load.keep worm (tile_worm tile0);
                         tile_planets := tile_planets tile0 ++ [planet];
                         tile_home := tile_home tile0 |}]> (Load.TILES st);
                Load.HOME_TILES :=
                  match known with
                  | Some _ => Load.HOME_TILES st
                  | None => if is_home then Load.HOME_TILES st ++ [index]
                            else Load.HOME_TILES st
                  end;
                Load.NONHOME_TILES :=
                  match known with
                  | Some _ => Load.NONHOME_TILES st
                  | None => if is_home then Load.NONHOME_TILES st
                            else Load.NONHOME_TILES st ++ [index]
                  end |}.
Proof.
  unfold Load.load_row.
  destruct (get (Load.pad row) 0) as [c0| |]; [|done|done]. cbn [bind].
  destruct (int c0) as [index| |]; [|done|done]. cbn [bind].
  destruct (get (Load.pad row) 4) as [c4| |]; [|done|done]. cbn [bind].
  destruct (get (Load.pad row) 2) as [c2| |]; [|done|done]. cbn [bind].
  destruct (int c2) as [resource| |] eqn:E2; [|done|done]. cbn [bind].
  destruct (get (Load.pad row) 3) as [c3| |]; [|done|done]. cbn [bind].
  destruct (int c3) as [influence| |] eqn:E3; [|done|done]. cbn [bind].
  destruct (bool_decide (strip c4 = "home"%string)) eqn:Eh.
  - cbn [bind fst snd]. intros [= <-].
    by exists index, true, c2, c3, resource, influence,
              EmptyString, EmptyString, EmptyString.
  - destruct (get (Load.pad row) 5) as [c5| |]; [|done|done]. cbn [bind].
    destruct (get (Load.pad row) 6) as [c6| |]; [|done|done]. cbn [bind].
    destruct (get (Load.pad row) 7) as [c7| |]; [|done|done]. cbn [bind fst snd].
    intros [= <-].
    by exists index, false, c2, c3, resource, influence,
              (strip c5), (strip c6), (strip c7).
Qed.

Lemma load_row_ok (st st' : Load.tables) (row : list string) :
  tables_ok st -> Load.load_row int strip effective st row = Ret st' ->
  tables_ok st'.
Proof.
  intros [Hkeys Hnd Hmark Htags Htot] E.
  apply load_row_Ret in E
      as (index & is_home & c2 & c3 & resource & influence & skip & anomaly
          & worm & _ & _ & Hskip & ->).
  cbn zeta. set (planet := row_planet effective resource influence).
  destruct (Load.TILES st !! index) as [tile|] eqn:Ek.
  - (* a further planet of a known tile *)
    split; cbn.
    + intros t. rewrite <- Hkeys. rewrite lookup_insert_is_Some.
      split; [intros [<-|[_ ?]]; [by rewrite Ek | done] |].
      intros ?. destruct (decide (index = t)); [by left | by right].
    + done.
    + intros t tile'. rewrite lookup_insert_Some.
      intros [[<- <-]|[_ Ht]]; [cbn; by apply Hmark | by apply Hmark].
    + intros t tile'. rewrite lookup_insert_Some.
      intros [[<- <-]|[_ Ht]]; [|by eapply Htags]. cbn.
      destruct (Htags index tile Ek) as (? & ? & ?).
      destruct is_home; [done|]. split_and!; by apply keep_nonempty.
    + intros t tile'. rewrite lookup_insert_Some.
      intros [[<- <-]|[_ Ht]]; [|by eapply Htot]. cbn.
      destruct (Htot index tile Ek) as (_ & -> & ->).
      rewrite sum_resource_snoc, sum_influence_snoc.
      split; [by destruct (tile_planets tile)|done].
  - (* the first planet of a new tile *)
    assert (index ∉ Load.HOME_TILES st ++ Load.NONHOME_TILES st) as Hnew.
    { rewrite elem_of_app, <- Hkeys, Ek. by intros [? ?]. }
    split; cbn.
    + intros t. rewrite lookup_insert_is_Some, Hkeys.
      destruct is_home; rewrite elem_of_app, list_elem_of_singleton; split.
      * intros [<-|[_ [?|?]]]; tauto.
      * intros [[?| ->]|?]; [right|by left|right].
        -- split; [|by left]. intros <-. apply Hnew, elem_of_app. by left.
        -- split; [|by right]. intros <-. apply Hnew, elem_of_app. by right.
      * intros [<-|[_ [?|?]]]; tauto.
      * intros [?|[?| ->]]; [right|right|by left].
        -- split; [|by left]. intros <-. apply Hnew, elem_of_app. by left.
        -- split; [|by right]. intros <-. apply Hnew, elem_of_app. by right.
    + destruct is_home.
      * rewrite <- app_assoc. cbn. apply NoDup_app in Hnd as (H1 & H2 & H3).
        apply NoDup_app. split; [done|]. split.
        -- intros x Hx [->|Hx']%elem_of_cons.
           ++ apply Hnew, elem_of_app. by left.
           ++ by apply (H2 x).
        -- apply NoDup_cons. split; [|done]. intros ?. apply Hnew, elem_of_app.
           by right.
      * rewrite app_assoc. apply NoDup_app. split; [done|]. split.
        -- intros x Hx ->%list_elem_of_singleton. done.
        -- apply NoDup_singleton.
    + intros t tile'. rewrite lookup_insert_Some.
      intros [[<- <-]|[_ Ht]]; cbn.
      * destruct is_home.
        -- right. rewrite Hskip by done. split; [done|].
           apply elem_of_app. right. by apply list_elem_of_singleton.
        -- left. split; [done|].
           apply elem_of_app. right. by apply list_elem_of_singleton.
      * destruct (Hmark t tile' Ht) as [[? ?]|[? ?]]; [left|right];
          (split; [done|]); destruct is_home; try done;
          apply elem_of_app; by left.
    + intros t tile'. rewrite lookup_insert_Some.
      intros [[<- <-]|[_ Ht]]; [|by eapply Htags]. cbn.
      destruct is_home; [done|]. split_and!; by apply keep_nonempty.
    + intros t tile'. rewrite lookup_insert_Some.
      intros [[<- <-]|[_ Ht]]; [|by eapply Htot]. cbn.
      split; [done|]. split; lia.
Qed.

Lemma load_row_planets (P : Planet -> Prop) (st st' : Load.tables)
      (row : list string) :
  (forall c2 c3 resource influence,
      int c2 = Ret resource -> int c3 = Ret influence ->
      P (row_planet effective resource influence)) ->
  every_planet st P -> Load.load_row int strip effective st row = Ret st' ->
  every_planet st' P.
Proof.
  intros Hrow Hst E.
  apply load_row_Ret in E
      as (index & is_home & c2 & c3 & resource & influence & skip & anomaly
          & worm & E2 & E3 & _ & ->).
  cbn zeta. intros t tile p. cbn. rewrite lookup_insert_Some.
  intros [[<- <-]|[_ Ht]]; [|by eapply Hst]. cbn.
  intros [Hp| ->%list_elem_of_singleton]%elem_of_app; [|by eapply Hrow].
  destruct (Load.TILES st !! index) as [tile|] eqn:Ek; [by eapply Hst|].
  by apply elem_of_nil in Hp.
Qed.

Lemma tables_ok_initial : tables_ok Load.initial.
Proof.
  split; cbn.
  - intros t. rewrite lookup_empty. split; [by intros [? ?]|].
    intros [?%elem_of_nil|?%elem_of_nil]; done.
  - constructor.
  - intros t tile. by rewrite lookup_empty.
  - intros t tile. by rewrite lookup_empty.
  - intros t tile. by rewrite lookup_empty.
Qed.

Lemma load_tiles_ok (rows : list (list string)) (st : Load.tables) :
  Load.load_tiles int strip effective rows = Ret st -> tables_ok st.
Proof.
  apply (foldM_preserves tables_ok); [|apply tables_ok_initial].
  intros s row s'. apply load_row_ok.
Qed.

Lemma load_tiles_planets (P : Planet -> Prop) (rows : list (list string))
      (st : Load.tables) :
  (forall c2 c3 resource influence,
      int c2 = Ret resource -> int c3 = Ret influence ->
      P (row_planet effective resource influence)) ->
  Load.load_tiles int strip effective rows = Ret st -> every_planet st P.
Proof.
  intros Hrow. apply (foldM_preserves (fun st => every_planet st P)).
  - intros s row s'. by apply load_row_planets.
  - intros t tile p. cbn. by rewrite lookup_empty.
Qed.

End LoadTiles.

(** X15.  Whenever [load_tiles] returns, for any rows, whatever the
    builtins [int] and [strip] return and whether or not effective values
    are asked for: the keys of [TILES] are the tiles listed in [HOME_TILES]
    or [NONHOME_TILES], no tile is listed twice or in both, a tile has a
    home mark exactly when it is listed as home, no tag of a tile is the
    empty string, and the resource and influence of a tile are the sums
    over its planets, of which it has at least one.  So [is_home] is false
    of every tile listed as non-home unless tile 0 is listed, and the
    catalogue is well-formed for the legality check when all tile numbers
    are positive.  In effective mode every planet has resource 0 or
    influence 0; and when [int] returns no negative number, no planet has a
    negative value. *)
Theorem load_tiles_catalogue (int : string -> outcome Z) (strip : string -> string)
        (effective : bool) (flags : Flags) (rows : list (list string))
        (st : Load.tables) :
  Load.load_tiles int strip effective rows = Ret st ->
  tables_ok st
  /\ ((0 ∉ Load.NONHOME_TILES st) -> nonhome_ok (catalogue flags st))
  /\ ((forall t, is_Some (Load.TILES st !! t) -> 0 < t) ->
      tags_ok (catalogue flags st))
  /\ (effective = true ->
      every_planet st (fun p => planet_resource p = 0 \/ planet_influence p = 0))
  /\ ((forall s z, int s = Ret z -> 0 <= z) -> planets_nonneg (catalogue flags st)).
Proof.
  intros E. pose proof (load_tiles_ok int strip effective rows st E) as Hok.
  split; [done|]. split_and!.
  - intros H0 t Ht. cbn in Ht. unfold is_home, item. cbn.
    rewrite decide_False by (by intros ->).
    destruct (proj2 (tab_keys st Hok t) (or_intror Ht)) as [tile Htile].
    rewrite Htile. cbn.
    destruct (tab_mark st Hok t tile Htile) as [[-> _]|[_ Hh]].
    + by rewrite bool_decide_eq_false_2 by (intros H; by apply H).
    + exfalso. pose proof (tab_nodup st Hok) as (_ & Hd & _)%NoDup_app.
      by apply (Hd t).
  - intros Hpos t tile Ht. cbn in Ht.
    destruct (tab_tags st Hok t tile Ht) as (_ & ? & ?).
    split; [apply Hpos; by exists tile | done].
  - intros ->. apply (load_tiles_planets int strip true _ rows st); [|done].
    intros _ _ resource influence _ _. unfold row_planet. cbn.
    case_decide; cbn; [by right | by left].
  - intros Hint. unfold planets_nonneg. cbn.
    apply (load_tiles_planets int strip effective
             (fun p => 0 <= planet_resource p /\ 0 <= planet_influence p) rows st);
      [|done].
    intros c2 c3 resource influence H2%Hint H3%Hint. unfold row_planet.
    destruct effective; [case_decide|]; cbn; lia.
Qed.

Lemma load_tiles_catalogue_witness :
  exists st,
    Load.load_tiles DataFile.decimal id false DataFile.rows = Ret st
    /\ Load.HOME_TILES st = [1] /\ Load.NONHOME_TILES st = [18; 25]
    /\ tables_ok st
    /\ nonhome_ok (catalogue (Examples.no_flags 2) st)
    /\ tags_ok (catalogue (Examples.no_flags 2) st).
Proof.
  eexists. split; [by vm_compute|]. split; [reflexivity|]. split; [reflexivity|].
  match goal with
  | |- tables_ok ?st /\ _ =>
      destruct (load_tiles_catalogue DataFile.decimal id false
                                     (Examples.no_flags 2) DataFile.rows st)
        as (Hok & Hn & Ht & _); [by vm_compute|]
  end.
  split; [done|]. split.
  - apply Hn. apply (bool_decide_eq_true_1 (_ ∉ _)). by vm_compute.
  - apply Ht. intros t [tile Htile].
    destruct (proj1 (tab_keys _ Hok t) (ex_intro _ tile Htile)) as [H|H];
      cbn in H; repeat (apply elem_of_cons in H as [->|H]; [lia|]);
      by apply elem_of_nil in H.
Defined.

(** ** The URL of a board *)

Section Url.

Lemma pop_negative_all (fuel : nat) (tiles : list Z) :
  (length tiles < fuel)%nat -> Forall (fun t => t < 0) tiles ->
  pop_negative fuel tiles = Raise IndexError.
Proof.
  revert fuel. induction tiles as [|t tiles IH] using rev_ind; intros fuel Hf Hall.
  - destruct fuel; [cbn in Hf; lia | done].
  - destruct fuel as [|fuel]; [lia|]. cbn [pop_negative].
    rewrite last_snoc, removelast_last.
    apply Forall_app in Hall as [Hall Ht]. rewrite Forall_singleton in Ht.
    rewrite decide_False by lia. apply IH; [|done].
    rewrite length_app in Hf. cbn in Hf. lia.
Qed.

Lemma pop_negative_last (fuel : nat) (kept dropped : list Z) (t : Z) :
  (length dropped < fuel)%nat -> 0 <= t -> Forall (fun t => t < 0) dropped ->
  pop_negative fuel (kept ++ t :: dropped) = Ret (kept ++ [t]).
Proof.
  revert fuel. induction dropped as [|d dropped IH] using rev_ind;
    intros fuel Hf Ht Hall.
  - destruct fuel as [|fuel]; [cbn in Hf; lia|]. cbn [pop_negative].
    rewrite last_snoc, removelast_last. by rewrite decide_True by lia.
  - destruct fuel as [|fuel]; [lia|]. cbn [pop_negative].
    apply Forall_app in Hall as [Hall Hd]. rewrite Forall_singleton in Hd.
    assert (kept ++ t :: dropped ++ [d] = (kept ++ t :: dropped) ++ [d]) as ->
      by (by rewrite <- app_assoc).
    rewrite last_snoc, removelast_last. rewrite decide_False by lia.
    apply IH; [|done|done]. rewrite length_app in Hf. cbn in Hf. lia.
Qed.

End Url.

(** X16.  [get_url] raises IndexError on a board without a tile that is
    not negative, as on a board without tiles.  Otherwise it returns the
    base URL followed by the tiles up to the last one that is not
    negative, each printed by [str], separated by commas: trailing negative
    entries are dropped.  On a well-formed board over a catalogue whose
    tile numbers are positive the URL lists every tile of the board. *)
Theorem get_url_lists_tiles (str : Z -> string) (b : Board.t) :
  (Forall (fun t => t < 0) (Board.tiles b) -> get_url str b = Raise IndexError)
  /\ (forall kept t dropped,
         Board.tiles b = kept ++ t :: dropped -> 0 <= t ->
         Forall (fun t => t < 0) dropped ->
         get_url str b
         = Ret (BASE_URL ++ String.concat "," (map str (kept ++ [t])))%string)
  /\ (forall G, tags_ok G -> board_ok G b ->
                get_url str b
                = Ret (BASE_URL ++ String.concat "," (map str (Board.tiles b)))%string).
Proof.
  assert (forall kept t dropped,
             Board.tiles b = kept ++ t :: dropped -> 0 <= t ->
             Forall (fun t => t < 0) dropped ->
             get_url str b
             = Ret (BASE_URL ++ String.concat "," (map str (kept ++ [t])))%string)
    as Hlast.
  { intros kept t dropped E Ht Hd. unfold get_url. rewrite E.
    rewrite pop_negative_last; [done| |done|done].
    rewrite length_app. cbn. lia. }
  split; [|split; [done|]].
  - intros Hall. unfold get_url. rewrite pop_negative_all; [done|lia|done].
  - intros G Htags Hok.
    destruct (Board.tiles b) as [|t0 tiles0] eqn:E using rev_ind.
    { pose proof (ok_length G b Hok) as Hl. pose proof (ok_size G b Hok).
      rewrite E in Hl. cbn in Hl. lia. }
    apply (Hlast tiles0 t0 []); [done| |done].
    pose proof (ok_known G b Hok) as Hk. rewrite E in Hk.
    apply Forall_app in Hk as [_ Hk]. rewrite Forall_singleton in Hk.
    destruct Hk as [->|[tile Ht]]; [done|].
    destruct (Htags t0 tile Ht) as [? _]. lia.
Qed.

Lemma get_url_lists_tiles_witness :
  get_url (fun t => if decide (t = 0) then "0" else "18")%string
          (Examples.bare [18; 0; -1; -1])
  = Ret (BASE_URL ++ "18,0")%string.
Proof.
  etrans.
  - apply (proj1 (proj2 (get_url_lists_tiles
                           (fun t => if decide (t = 0) then "0" else "18")%string
                           (Examples.bare [18; 0; -1; -1])))
                 [18] 0 [-1; -1]).
    + reflexivity.
    + lia.
    + repeat constructor.
  - by vm_compute.
Defined.
